(** * dataloaders: batching, caching data loaders and their lazy dispatchers

    A shallow embedding of the Go package [dataloaders]
    (the batching [DataLoader], the per-attribute [AttrDataLoader] and the
    per-object-type [ObjAttrDataLoader]) together with the properties of
    its specification.

    Conventions of the embedding:
    - a Go [interface{}] is a value of [Go.Any], compared with [==] as
      Rocq values are with [=]; a Go [error] is a [Go.error], an option
      where [None] is [nil];
    - a method with a pointer receiver takes the receiver's state and
      returns the new state; a [*batch] is an index into the loader's
      [heap] of batch objects, so that thunks, goroutines and the loader
      alias one batch; a map of pointers to loaders is a map of loader
      states, written back after a call on the loader;
    - [go f()] puts a goroutine in the loader's [spawned] list; the
      scheduler ([sched]) runs one of them at a time, each critical
      section under the mutex being one atomic step, at any moment: the
      duration [wait] of the timer is not measured;
    - a callback is given by what it does: a fetcher by its answers, call
      after call; a propagator by the calls it makes on the dispatcher;
    - a run-time panic and a goroutine that can never wake up are results
      of their own ([Panics], [Blocks]). *)

From Stdlib Require Import ZArith List String Lia Bool.
From stdpp Require Import base option gmap list strings pretty.

Local Open Scope Z_scope.

(** ** Go values *)

Module Go.

(** Dynamically typed values: what the program stores in [interface{}]. *)
Inductive Any : Type :=
| ANil
| AInt (n : Z)
| AStr (s : string).

(** the zero value of an interface type *)
#[global] Instance Any_inhabited : Inhabited Any := populate ANil.

#[global] Instance Any_eq_dec : EqDecision Any.
Proof. solve_decision. Defined.

Definition Any_enc (a : Any) : unit + (Z + string) :=
  match a with
  | ANil => inl tt
  | AInt n => inr (inl n)
  | AStr s => inr (inr s)
  end.

Definition Any_dec (x : unit + (Z + string)) : Any :=
  match x with
  | inl _ => ANil
  | inr (inl n) => AInt n
  | inr (inr s) => AStr s
  end.

#[global] Instance Any_countable : Countable Any.
Proof. apply (inj_countable' Any_enc Any_dec). by intros []. Defined.

(** [fmt.Sprintf("%s", a)]: a string prints as itself, other dynamic
    types print in the bad-verb form. *)
Definition fmt_s (a : Any) : string :=
  match a with
  | ANil => "%!s(<nil>)"
  | AInt n => ("%!s(int=" ++ pretty n ++ ")")%string
  | AStr s => s
  end.

(** The dynamic types behind a non-nil [error]: the two routing errors
    of the package, and any other error type (what a fetcher returns). *)
Inductive err : Type :=
| ObjTypeNotRegError (msg : string)
| AttrNotRegError (msg : string)
| OtherError (msg : string).

#[global] Instance err_eq_dec : EqDecision err.
Proof. solve_decision. Defined.

(** The interface type [error]; [None] is [nil]. *)
Definition error : Type := option err.

(** Machine [int] (64 bit): subtraction wraps around. *)
Definition wrap (z : Z) : Z := (z + 2 ^ 63) mod 2 ^ 64 - 2 ^ 63.
Definition int_sub (a b : Z) : Z := wrap (a - b).

(** What running a piece of code comes to. *)
Inductive Outcome (A : Type) : Type :=
| Ret (a : A)
| Panics (why : string)
| Blocks.
Arguments Ret {A} a.
Arguments Panics {A} why.
Arguments Blocks {A}.

#[global] Instance Outcome_ret : MRet Outcome := fun A a => Ret a.
#[global] Instance Outcome_bind : MBind Outcome := fun A B f m =>
  match m with
  | Ret a => f a
  | Panics why => Panics why
  | Blocks => Blocks
  end.

End Go.

Import Go.

Abbreviation Key := Go.Any (only parsing).
Abbreviation Value := Go.Any (only parsing).
Abbreviation Attribute := Go.Any (only parsing).
Abbreviation ObjectType := Go.Any (only parsing).

Definition NewObjTypeNotRegError (msg : string) : Go.error :=
  Some (ObjTypeNotRegError msg).

Definition NewAttrNotRegError (msg : string) : Go.error :=
  Some (AttrNotRegError msg).

(** [IsLoadingError]: the type switch runs for a non-nil error only; every
    path that does not hit one of its two cases reaches [return true]. *)
Definition IsLoadingError (e : Go.error) : bool :=
  match e with
  | Some e' =>
      match e' with
      | ObjTypeNotRegError _ => false
      | AttrNotRegError _ => false
      | OtherError _ => true
      end
  | None => true
  end.

(** ** The batching loader *)

Module DataLoader.

(** A fetcher is a callback of the embedder and may answer differently
    each time it runs: its first argument is the number of calls the
    loader made before this one. It returns the values and the errors
    slice; for the errors, [None] is the nil slice, which the loader
    tells apart from an empty one. *)
Definition Fetcher : Type :=
  nat → list Key → list Value * option (list Go.error).

Record Batch : Type := mkBatch {
  keys : list Key;
  data : list Value;
  error : option (list Go.error);
  closing : bool;
  (** [done] is closed *)
  done : bool
}.

#[global] Instance Batch_inhabited : Inhabited Batch :=
  populate (mkBatch [] [] None false false).

(** The goroutines the loader starts, by the batch they work on:
    [go b.startTimer(l)] and the call of [b.end(l)] (started by [go], or
    the tail of the timer goroutine once it has released the mutex). *)
Inductive goroutine : Type :=
| GoStartTimer (b : nat)
| GoEnd (b : nat).

#[global] Instance goroutine_eq_dec : EqDecision goroutine.
Proof. solve_decision. Defined.

(** One invocation of the fetch callback, as observed from outside. *)
Record FetchCall : Type := mkFetchCall {
  fc_batch : nat;
  fc_keys : list Key;
  fc_data : list Value;
  fc_error : option (list Go.error)
}.

Record t : Type := mk {
  fetch : Fetcher;
  wait : Z;
  maxBatch : Z;
  (** lazily created: [None] is the nil map *)
  cache : option (gmap Key Value);
  (** the current batch *)
  batch : option nat;
  (** the batch objects allocated so far *)
  heap : list Batch;
  (** goroutines started and not yet run *)
  spawned : list goroutine;
  (** the calls of [fetch] so far, oldest first *)
  fetched : list FetchCall
}.

Definition NewDataLoader (maxBatch : Z) (wait : Z) (fetch : Fetcher) : t :=
  mk fetch wait maxBatch None None [] [] [].

Definition set_cache (c : option (gmap Key Value)) (l : t) : t :=
  mk (fetch l) (wait l) (maxBatch l) c (batch l) (heap l) (spawned l) (fetched l).
Definition set_batch (b : option nat) (l : t) : t :=
  mk (fetch l) (wait l) (maxBatch l) (cache l) b (heap l) (spawned l) (fetched l).
Definition set_heap (h : list Batch) (l : t) : t :=
  mk (fetch l) (wait l) (maxBatch l) (cache l) (batch l) h (spawned l) (fetched l).
Definition set_spawned (g : list goroutine) (l : t) : t :=
  mk (fetch l) (wait l) (maxBatch l) (cache l) (batch l) (heap l) g (fetched l).
Definition set_fetched (f : list FetchCall) (l : t) : t :=
  mk (fetch l) (wait l) (maxBatch l) (cache l) (batch l) (heap l) (spawned l) f.

(** [go g] *)
Definition go (g : goroutine) (l : t) : t := set_spawned (spawned l ++ [g]) l.

(** [*b] and [*b = bt] *)
Definition deref (b : nat) (l : t) : Batch := heap l !!! b.
Definition store (b : nat) (bt : Batch) (l : t) : t :=
  set_heap (<[b := bt]> (heap l)) l.

(** [l.cache[key]] with its [ok] flag; a nil map reads as empty. *)
Definition cache_get (key : Key) (l : t) : option Value :=
  match cache l with
  | Some c => c !! key
  | None => None
  end.

Definition unsafeSet (key : Key) (value : Value) (l : t) : t :=
  let c := match cache l with
           | None => ∅
           | Some c => c
           end in
  set_cache (Some (<[key := value]> c)) l.

(** The loop of [keyIndex]: the index of the first key equal to [key],
    looking from index [i] on. *)
Fixpoint scan (key : Key) (ks : list Key) (i : nat) : option nat :=
  match ks with
  | [] => None
  | existingKey :: ks' =>
      if decide (key = existingKey) then Some i else scan key ks' (S i)
  end.

Definition keyIndex (b : nat) (key : Key) (l : t) : nat * t :=
  match scan key (keys (deref b l)) 0 with
  | Some i => (i, l)
  | None =>
      let bt := deref b l in
      let pos := length (keys bt) in
      let l := store b (mkBatch (keys bt ++ [key]) (data bt) (error bt)
                                (closing bt) (done bt)) l in
      let l := if decide (pos = 0%nat) then go (GoStartTimer b) l else l in
      let l :=
        if bool_decide (maxBatch l ≠ 0)
           && bool_decide (int_sub (maxBatch l) 1 ≤ Z.of_nat pos)
        then
          let bt := deref b l in
          if negb (closing bt) then
            let l := store b (mkBatch (keys bt) (data bt) (error bt)
                                      true (done bt)) l in
            let l := set_batch None l in
            go (GoEnd b) l
          else l
        else l in
      (pos, l)
  end.

(** [startTimer] once its sleep is over. *)
Definition startTimer (b : nat) (l : t) : t :=
  if closing (deref b l) then l
  else
    let l := set_batch None l in
    go (GoEnd b) l.

(** [b.end(l)]; closing a closed channel panics. *)
Definition batch_end (b : nat) (l : t) : Outcome t :=
  let bt := deref b l in
  let '(vs, es) := fetch l (length (fetched l)) (keys bt) in
  let l := set_fetched (fetched l ++ [mkFetchCall b (keys bt) vs es]) l in
  if done bt then Panics "close of closed channel"
  else Ret (store b (mkBatch (keys bt) vs es (closing bt) true) l).

Definition run (g : goroutine) (l : t) : Outcome t :=
  match g with
  | GoStartTimer b => Ret (startTimer b l)
  | GoEnd b => batch_end b l
  end.

(** Take the first goroutine equal to [g] out of the list. *)
Fixpoint take (g : goroutine) (gs : list goroutine) : option (list goroutine) :=
  match gs with
  | [] => None
  | g' :: gs' =>
      if decide (g = g') then Some gs'
      else gs'' ← take g gs'; Some (g' :: gs'')
  end.

(** The scheduler runs the spawned goroutine [g]; nothing happens when
    no such goroutine is waiting to run. *)
Definition sched (g : goroutine) (l : t) : Outcome t :=
  match take g (spawned l) with
  | Some gs => run g (set_spawned gs l)
  | None => Ret l
  end.

(** The closures [LoadThunk] returns, by what they capture: the cached
    value [it], or the batch, the position and the key. *)
Inductive Thunk : Type :=
| Cached (it : Value)
| Waiting (b : nat) (pos : nat) (key : Key).

Definition newBatch : Batch := mkBatch [] [] None false false.

(** The part of [LoadThunk] that runs under the mutex. *)
Definition LoadThunk (key : Key) (l : t) : Thunk * t :=
  match cache_get key l with
  | Some it => (Cached it, l)
  | None =>
      let '(b, l) :=
        match batch l with
        | Some b => (b, l)
        | None =>
            let b := length (heap l) in
            (b, set_batch (Some b) (set_heap (heap l ++ [newBatch]) l))
        end in
      let '(pos, l) := keyIndex b key l in
      (Waiting b pos key, l)
  end.

(** [<-batch.done]. The receive returns once [done] is closed. Until
    then the caller is parked and the goroutines of this batch that are
    still to run get their turn, the timer before [end]; with none of
    them left the caller never wakes up. *)
Definition await (b : nat) (l : t) : Outcome t :=
  if done (deref b l) then Ret l
  else
    l ← sched (GoStartTimer b) l;
    l ← sched (GoEnd b) l;
    if done (deref b l) then Ret l else Blocks.

(** [len(s)] and [s[i]] for a slice that may be nil. *)
Definition len {A} (s : option (list A)) : nat :=
  match s with
  | Some xs => length xs
  | None => 0%nat
  end.

Definition index {A} (s : option (list A)) (i : nat) : Outcome A :=
  match s ≫= (.!! i) with
  | Some x => Ret x
  | None => Panics "index out of range"
  end.

(** Calling a thunk. Once [done] is closed the batch no longer changes,
    so the reads of the closure are taken together with its write to
    the cache. *)
Definition call (thunk : Thunk) (l : t) : Outcome (Value * Go.error * t) :=
  match thunk with
  | Cached it => Ret (it, None, l)
  | Waiting b pos key =>
      l ← await b l;
      let batch := deref b l in
      let data := if decide (pos < length (data batch))%nat
                  then data batch !!! pos
                  else ANil in
      err ← (if decide (len (error batch) = 1%nat) then index (error batch) 0
             else if decide (error batch ≠ None) then index (error batch) pos
             else Ret None);
      let l := if decide (err = None) then unsafeSet key data l else l in
      Ret (data, err, l)
  end.

Definition Prime (key : Key) (value : Value) (forcePrime : bool) (l : t)
  : bool * t :=
  let primeIt := forcePrime in
  let primeIt :=
    if negb primeIt then
      match cache_get key l with
      | None => true
      | Some _ => primeIt
      end
    else primeIt in
  let l := if primeIt then unsafeSet key value l else l in
  (primeIt, l).

(** Modelled from the spec: the unexported [prime(key, value, forcePrime)]
    of the batching loader, which the attribute layer calls and which is
    missing from the loader's source at hand. The spec gives the loader
    one priming operation with a force flag; [Prime] is that operation. *)
Definition prime (key : Key) (value : Value) (forcePrime : bool) (l : t)
  : bool * t :=
  Prime key value forcePrime l.

(** [delete] on a nil map does nothing. *)
Definition Clear (key : Key) (l : t) : t :=
  set_cache (delete key <$> cache l) l.

(** A thunk the loader has handed out: its key sits at its position in
    its batch. *)
Definition issued (thunk : Thunk) (l : t) : bool :=
  match thunk with
  | Cached _ => true
  | Waiting b pos key => bool_decide (keys (deref b l) !! pos = Some key)
  end.

(** What the goroutines that share the loader can do to it, one atomic
    action at a time. *)
Inductive Event : Type :=
| DoLoadThunk (key : Key)
| DoCall (thunk : Thunk)
| DoPrime (key : Key) (value : Value) (forcePrime : bool)
| DoClear (key : Key)
| DoSched (g : goroutine).

(** One action. A thunk can be called once [LoadThunk] has returned it;
    calling a thunk that does not exist is no action. *)
Definition step (e : Event) (l : t) : Outcome t :=
  match e with
  | DoLoadThunk key => Ret (LoadThunk key l).2
  | DoCall thunk =>
      if issued thunk l then '(_, _, l) ← call thunk l; Ret l else Ret l
  | DoPrime key value forcePrime => Ret (Prime key value forcePrime l).2
  | DoClear key => Ret (Clear key l)
  | DoSched g => sched g l
  end.

Fixpoint exec (es : list Event) (l : t) : Outcome t :=
  match es with
  | [] => Ret l
  | e :: es' => l ← step e l; exec es' l
  end.

(** The states of a loader over its lifetime. *)
Definition reachable (l : t) : Prop :=
  ∃ maxBatch wait fetch es, exec es (NewDataLoader maxBatch wait fetch) = Ret l.

(** [Load]: [LoadThunk(key)()]; [env] is what the other goroutines do
    between the two calls. *)
Definition Load (env : list Event) (key : Key) (l : t)
  : Outcome (Value * Go.error * t) :=
  let '(thunk, l) := LoadThunk key l in
  l ← exec env l;
  call thunk l.

(** The first loop of [LoadAll], at index [i]; [env i] is what the other
    goroutines do before the caller's [i]-th action. *)
Fixpoint LoadAll_enqueue (env : nat → list Event) (i : nat) (keys : list Key)
    (results : list (option Thunk)) (l : t)
  : Outcome (list (option Thunk) * t) :=
  match keys with
  | [] => Ret (results, l)
  | key :: keys' =>
      l ← exec (env i) l;
      let '(thunk, l) := LoadThunk key l in
      LoadAll_enqueue env (S i) keys' (<[i := Some thunk]> results) l
  end.

(** Calling a function value; [None] is the nil function. *)
Definition call_func (f : option Thunk) (l : t)
  : Outcome (Value * Go.error * t) :=
  match f with
  | Some thunk => call thunk l
  | None => Panics "nil function call"
  end.

(** The second loop of [LoadAll], at index [i] of [n]. *)
Fixpoint LoadAll_resolve (env : nat → list Event) (n i : nat)
    (results : list (option Thunk)) (values : list Value)
    (errors : list Go.error) (l : t)
  : Outcome (list Value * list Go.error * t) :=
  match results with
  | [] => Ret (values, errors, l)
  | thunk :: results' =>
      l ← exec (env (n + i)%nat) l;
      '(v, e, l) ← call_func thunk l;
      LoadAll_resolve env n (S i) results' (<[i := v]> values) (<[i := e]> errors) l
  end.

Definition LoadAll (env : nat → list Event) (keys : list Key) (l : t)
  : Outcome (list Value * list Go.error * t) :=
  let results := replicate (length keys) None in
  '(results, l) ← LoadAll_enqueue env 0 keys results l;
  let values := replicate (length keys) ANil in
  let errors := replicate (length keys) None in
  LoadAll_resolve env (length keys) 0 results values errors l.

End DataLoader.

(** ** The attribute dispatcher *)

Module AttrDataLoader.

(** A propagator is handed the loader and uses its cache methods: it is
    given by the calls it makes, in order, for the value it receives. *)
Inductive Action : Type :=
| CallPrime (attribute : Attribute) (key : Key) (value : Value)
| CallForcePrime (attribute : Attribute) (key : Key) (value : Value)
| CallClear (attribute : Attribute) (key : Key).

Abbreviation ValuePropagator := (Value → list Action).

(** A [func() *DataLoader] and a [*DataLoader]; [None] is nil. Every
    initializer returns a loader of its own. *)
Abbreviation Init := (option (unit → option DataLoader.t)).

Record t : Type := mk {
  initLoaders : gmap Attribute Init;
  loaders : gmap Attribute (option DataLoader.t);
  propagators : gmap Attribute ValuePropagator;
  (** the attributes whose initializer ran, oldest first *)
  inited : list Attribute;
  (** the calls of propagators with their first argument, oldest first *)
  propagated : list (Attribute * Value)
}.

Definition NewAttrDataLoader (initLoaders : option (gmap Attribute Init))
    (propagators : option (gmap Attribute ValuePropagator)) : t :=
  let initLoaders := match initLoaders with
                     | None => ∅
                     | Some m => m
                     end in
  let propagators := match propagators with
                     | None => ∅
                     | Some m => m
                     end in
  mk initLoaders ∅ propagators [] [].

Definition set_initLoaders (i : gmap Attribute Init) (l : t) : t :=
  mk i (loaders l) (propagators l) (inited l) (propagated l).
Definition set_loaders (m : gmap Attribute (option DataLoader.t)) (l : t) : t :=
  mk (initLoaders l) m (propagators l) (inited l) (propagated l).
Definition set_inited (a : list Attribute) (l : t) : t :=
  mk (initLoaders l) (loaders l) (propagators l) a (propagated l).
Definition set_propagated (p : list (Attribute * Value)) (l : t) : t :=
  mk (initLoaders l) (loaders l) (propagators l) (inited l) p.

(** The loader behind the pointer stored for [attribute] is now [dl]. *)
Definition update (attribute : Attribute) (dl : DataLoader.t) (l : t) : t :=
  set_loaders (<[attribute := Some dl]> (loaders l)) l.

Definition loader (attribute : Attribute) (l : t)
  : Outcome (option DataLoader.t * t) :=
  match loaders l !! attribute with
  | Some loader => Ret (loader, l)
  | None =>
      match initLoaders l !! attribute with
      | Some loaderInit =>
          match loaderInit with
          | Some f =>
              let loader := f tt in
              let l := set_inited (inited l ++ [attribute]) l in
              let l := set_initLoaders (<[attribute := None]> (initLoaders l)) l in
              let l := set_loaders (<[attribute := loader]> (loaders l)) l in
              Ret (loader, l)
          | None => Panics "nil function call"
          end
      | None => Ret (None, l)
      end
  end.

Definition prime (attribute : Attribute) (key : Key) (value : Value)
    (forcePrime : bool) (l : t) : Outcome (bool * t) :=
  '(loader, l) ← loader attribute l;
  match loader with
  | Some dl =>
      let '(r, dl) := DataLoader.prime key value forcePrime dl in
      Ret (r, update attribute dl l)
  | None => Ret (false, l)
  end.

Definition Prime (attribute : Attribute) (key : Key) (value : Value) (l : t)
  : Outcome (bool * t) :=
  prime attribute key value false l.

Definition ForcePrime (attribute : Attribute) (key : Key) (value : Value)
    (l : t) : Outcome t :=
  '(_, l) ← prime attribute key value true l; Ret l.

(** [Clear] returns its receiver: the state after the call. *)
Definition Clear (attribute : Attribute) (key : Key) (l : t) : Outcome t :=
  '(loader, l) ← loader attribute l;
  match loader with
  | Some dl => Ret (update attribute (DataLoader.Clear key dl) l)
  | None => Ret l
  end.

Definition perform (a : Action) (l : t) : Outcome t :=
  match a with
  | CallPrime attribute key value =>
      '(_, l) ← Prime attribute key value l; Ret l
  | CallForcePrime attribute key value => ForcePrime attribute key value l
  | CallClear attribute key => Clear attribute key l
  end.

Fixpoint perform_all (acts : list Action) (l : t) : Outcome t :=
  match acts with
  | [] => Ret l
  | a :: acts' => l ← perform a l; perform_all acts' l
  end.

Definition RunPropagator (value : Value) (attribute : Attribute) (l : t)
  : Outcome t :=
  match propagators l !! attribute with
  | Some propagator =>
      let l := set_propagated (propagated l ++ [(attribute, value)]) l in
      perform_all (propagator value) l
  | None => Ret l
  end.

Definition Load (env : list DataLoader.Event) (attribute : Attribute)
    (key : Key) (l : t) : Outcome (Value * Go.error * t) :=
  '(loader, l) ← loader attribute l;
  match loader with
  | Some dl =>
      '(value, err, dl) ← DataLoader.Load env key dl;
      let l := update attribute dl l in
      l ← (if decide (err = None) then RunPropagator value attribute l
           else Ret l);
      Ret (value, err, l)
  | None =>
      Ret (ANil,
           NewAttrNotRegError ("no dataloader for attribute '"
                               ++ fmt_s attribute ++ "' registered")%string,
           l)
  end.

(** [for val := range values]: with one loop variable, [range] yields
    the indices of the slice. *)
Fixpoint LoadAll_range (vals : list nat) (attribute : Attribute) (l : t)
  : Outcome t :=
  match vals with
  | [] => Ret l
  | val :: vals' =>
      l ← RunPropagator (AInt (Z.of_nat val)) attribute l;
      LoadAll_range vals' attribute l
  end.

(** The values come back as a slice that may be nil ([None]). *)
Definition LoadAll (env : nat → list DataLoader.Event) (attribute : Attribute)
    (keys : list Key) (l : t)
  : Outcome (option (list Value) * list Go.error * t) :=
  '(loader, l) ← loader attribute l;
  match loader with
  | Some dl =>
      '(values, errs, dl) ← DataLoader.LoadAll env keys dl;
      let l := update attribute dl l in
      l ← LoadAll_range (seq 0 (length values)) attribute l;
      Ret (Some values, errs, l)
  | None =>
      Ret (None,
           [NewAttrNotRegError ("no dataloader for attribute '"
                                ++ fmt_s attribute ++ "' registered")%string],
           l)
  end.

(** The calls a client makes over the lifetime of the loader. *)
Inductive Call : Type :=
| DoLoad (env : list DataLoader.Event) (attribute : Attribute) (key : Key)
| DoLoadAll (env : nat → list DataLoader.Event) (attribute : Attribute)
    (keys : list Key)
| DoPrime (attribute : Attribute) (key : Key) (value : Value)
| DoForcePrime (attribute : Attribute) (key : Key) (value : Value)
| DoClear (attribute : Attribute) (key : Key).

Definition step (c : Call) (l : t) : Outcome t :=
  match c with
  | DoLoad env attribute key => '(_, _, l) ← Load env attribute key l; Ret l
  | DoLoadAll env attribute keys =>
      '(_, _, l) ← LoadAll env attribute keys l; Ret l
  | DoPrime attribute key value => '(_, l) ← Prime attribute key value l; Ret l
  | DoForcePrime attribute key value => ForcePrime attribute key value l
  | DoClear attribute key => Clear attribute key l
  end.

Fixpoint exec (cs : list Call) (l : t) : Outcome t :=
  match cs with
  | [] => Ret l
  | c :: cs' => l ← step c l; exec cs' l
  end.

End AttrDataLoader.

(** ** The object type dispatcher *)

Module ObjAttrDataLoader.

Abbreviation Init := (option (unit → option AttrDataLoader.t)).

Record t : Type := mk {
  initLoaders : gmap ObjectType Init;
  loaders : gmap ObjectType (option AttrDataLoader.t);
  (** the object types whose initializer ran, oldest first *)
  inited : list ObjectType
}.

Definition NewObjAttrDataLoader (initLoaders : option (gmap ObjectType Init))
  : t :=
  let initLoaders := match initLoaders with
                     | None => ∅
                     | Some m => m
                     end in
  mk initLoaders ∅ [].

Definition update (objectType : ObjectType) (al : AttrDataLoader.t) (l : t)
  : t :=
  mk (initLoaders l) (<[objectType := Some al]> (loaders l)) (inited l).

Definition loader (objectType : ObjectType) (l : t)
  : Outcome (option AttrDataLoader.t * t) :=
  match loaders l !! objectType with
  | Some loader => Ret (loader, l)
  | None =>
      match initLoaders l !! objectType with
      | Some loaderInit =>
          match loaderInit with
          | Some f =>
              let loader := f tt in
              let l := mk (initLoaders l) (loaders l) (inited l ++ [objectType]) in
              let l := mk (<[objectType := None]> (initLoaders l)) (loaders l)
                          (inited l) in
              let l := mk (initLoaders l) (<[objectType := loader]> (loaders l))
                          (inited l) in
              Ret (loader, l)
          | None => Panics "nil function call"
          end
      | None => Ret (None, l)
      end
  end.

Definition Load (env : list DataLoader.Event) (objectType : ObjectType)
    (attribute : Attribute) (key : Key) (l : t)
  : Outcome (Value * Go.error * t) :=
  '(loader, l) ← loader objectType l;
  match loader with
  | Some al =>
      '(value, err, al) ← AttrDataLoader.Load env attribute key al;
      Ret (value, err, update objectType al l)
  | None =>
      Ret (ANil,
           NewObjTypeNotRegError ("no dataloader for objectType '"
                                  ++ fmt_s objectType ++ "' registered")%string,
           l)
  end.

Definition LoadAll (env : nat → list DataLoader.Event)
    (objectType : ObjectType) (attribute : Attribute) (keys : list Key) (l : t)
  : Outcome (option (list Value) * list Go.error * t) :=
  '(loader, l) ← loader objectType l;
  match loader with
  | Some al =>
      '(values, errs, al) ← AttrDataLoader.LoadAll env attribute keys al;
      Ret (values, errs, update objectType al l)
  | None =>
      Ret (None,
           [NewObjTypeNotRegError ("no dataloader for objectType '"
                                   ++ fmt_s objectType ++ "' registered")%string],
           l)
  end.

Definition prime (objectType : ObjectType) (attribute : Attribute) (key : Key)
    (value : Value) (forcePrime : bool) (l : t) : Outcome (bool * t) :=
  '(loader, l) ← loader objectType l;
  match loader with
  | Some al =>
      '(r, al) ← AttrDataLoader.prime attribute key value forcePrime al;
      Ret (r, update objectType al l)
  | None => Ret (false, l)
  end.

Definition Prime (objectType : ObjectType) (attribute : Attribute) (key : Key)
    (value : Value) (l : t) : Outcome (bool * t) :=
  prime objectType attribute key value false l.

Definition ForcePrime (objectType : ObjectType) (attribute : Attribute)
    (key : Key) (value : Value) (l : t) : Outcome (bool * t) :=
  prime objectType attribute key value true l.

Definition Clear (objectType : ObjectType) (attribute : Attribute) (key : Key)
    (l : t) : Outcome t :=
  '(loader, l) ← loader objectType l;
  match loader with
  | Some al =>
      al ← AttrDataLoader.Clear attribute key al;
      Ret (update objectType al l)
  | None => Ret l
  end.

(** The calls a client makes over the lifetime of the loader. *)
Inductive Call : Type :=
| DoLoad (env : list DataLoader.Event) (objectType : ObjectType)
    (attribute : Attribute) (key : Key)
| DoLoadAll (env : nat → list DataLoader.Event) (objectType : ObjectType)
    (attribute : Attribute) (keys : list Key)
| DoPrime (objectType : ObjectType) (attribute : Attribute) (key : Key)
    (value : Value)
| DoForcePrime (objectType : ObjectType) (attribute : Attribute) (key : Key)
    (value : Value)
| DoClear (objectType : ObjectType) (attribute : Attribute) (key : Key).

Definition step (c : Call) (l : t) : Outcome t :=
  match c with
  | DoLoad env objectType attribute key =>
      '(_, _, l) ← Load env objectType attribute key l; Ret l
  | DoLoadAll env objectType attribute keys =>
      '(_, _, l) ← LoadAll env objectType attribute keys l; Ret l
  | DoPrime objectType attribute key value =>
      '(_, l) ← Prime objectType attribute key value l; Ret l
  | DoForcePrime objectType attribute key value =>
      '(_, l) ← ForcePrime objectType attribute key value l; Ret l
  | DoClear objectType attribute key => Clear objectType attribute key l
  end.

Fixpoint exec (cs : list Call) (l : t) : Outcome t :=
  match cs with
  | [] => Ret l
  | c :: cs' => l ← step c l; exec cs' l
  end.

End ObjAttrDataLoader.

(** ** Notions used by the properties *)

Import DataLoader.

(** The type assertions on an error: is its dynamic type the pointer to
    an [AttrNotRegError], or to an [ObjTypeNotRegError]. *)
Definition isAttrNotRegError (e : Go.error) : bool :=
  match e with
  | Some (AttrNotRegError _) => true
  | _ => false
  end.

Definition isObjTypeNotRegError (e : Go.error) : bool :=
  match e with
  | Some (ObjTypeNotRegError _) => true
  | _ => false
  end.

(** An attribute with no constructed loader and no initializer, and the
    same for an object type. *)
Definition attr_unregistered (attribute : Attribute) (l : AttrDataLoader.t)
  : Prop :=
  AttrDataLoader.loaders l !! attribute = None
  ∧ AttrDataLoader.initLoaders l !! attribute = None.

Definition obj_unregistered (objectType : ObjectType) (l : ObjAttrDataLoader.t)
  : Prop :=
  ObjAttrDataLoader.loaders l !! objectType = None
  ∧ ObjAttrDataLoader.initLoaders l !! objectType = None.


(** *** The batches of a loader *)

Definition batch_of (g : goroutine) : nat :=
  match g with
  | GoStartTimer b => b
  | GoEnd b => b
  end.

(** The timer goroutines and the [end] goroutines of batch [b] that are
    still to run, and the calls of [fetch] made for it. *)
Definition timers (b : nat) (l : DataLoader.t) : nat :=
  count_occ goroutine_eq_dec (spawned l) (GoStartTimer b).

Definition ends (b : nat) (l : DataLoader.t) : nat :=
  count_occ goroutine_eq_dec (spawned l) (GoEnd b).

Definition calls (b : nat) (l : DataLoader.t) : nat :=
  length (filter (λ c, fc_batch c = b) (fetched l)).

(** The size test of [keyIndex] at position [pos]. *)
Definition capped (l : DataLoader.t) (pos : nat) : bool :=
  bool_decide (maxBatch l ≠ 0) && bool_decide (int_sub (maxBatch l) 1 ≤ Z.of_nat pos).

(** What holds of every batch [bt] at address [b] in every state of a
    loader: it has keys, without duplicates; exactly one finalization has
    been made or is still to come ([bi_once]: a spawned [end], or the
    timer of a batch that is not closing); it is done exactly when its
    fetch was made; it is the current batch exactly when it is open with
    its timer to come; and the record of its fetch agrees with it. *)
Record batch_inv (l : DataLoader.t) (b : nat) (bt : Batch) : Prop := {
  bi_keys : keys bt ≠ [];
  bi_nodup : NoDup (keys bt);
  bi_once : (calls b l + ends b l + (if closing bt then 0 else timers b l) = 1)%nat;
  bi_timers : (timers b l ≤ 1)%nat;
  bi_done : done bt = true ↔ calls b l = 1%nat;
  bi_open : batch l = Some b ↔ closing bt = false ∧ timers b l = 1%nat;
  bi_fetched : ∀ c, c ∈ fetched l → fc_batch c = b →
               fc_keys c = keys bt ∧ fc_data c = data bt ∧ fc_error c = error bt;
  bi_result : done bt = true →
              ∃ n, fetch l n (keys bt) = (data bt, error bt)
}.

Record inv (l : DataLoader.t) : Prop := {
  inv_batch : ∀ b bt, heap l !! b = Some bt → batch_inv l b bt;
  inv_spawned : ∀ g, g ∈ spawned l → (batch_of g < length (heap l))%nat;
  inv_fetched : ∀ c, c ∈ fetched l → (fc_batch c < length (heap l))%nat;
  inv_cur : ∀ b, batch l = Some b → (b < length (heap l))%nat
}.

(** How a loader changes over time: batches stay where they are and only
    gain keys, a batch that is done no longer changes, and the record of
    fetch calls only grows. *)
Record evolves (l l' : DataLoader.t) : Prop := {
  ev_fetch : fetch l' = fetch l;
  ev_maxBatch : maxBatch l' = maxBatch l;
  ev_heap : ∀ b bt, heap l !! b = Some bt →
            ∃ bt', heap l' !! b = Some bt'
                   ∧ keys bt `prefix_of` keys bt'
                   ∧ (done bt = true → bt' = bt);
  ev_fetched : fetched l `prefix_of` fetched l'
}.

(** What the closure of a thunk reads from its batch. *)
Definition value_at (bt : Batch) (pos : nat) : Value :=
  if decide (pos < length (data bt))%nat then data bt !!! pos else ANil.

Definition error_at (bt : Batch) (pos : nat) : Outcome Go.error :=
  if decide (len (error bt) = 1%nat) then index (error bt) 0
  else if decide (error bt ≠ None) then index (error bt) pos
  else Ret None.

(** The errors slice of a fetch fits its keys: it is nil, or has one
    element, or has an element for every key. *)
Definition errors_fit (ks : list Key) (es : option (list Go.error)) : Prop :=
  es = None ∨ len es = 1%nat ∨ (length ks ≤ len es)%nat.

Definition well_behaved (f : Fetcher) : Prop :=
  ∀ n ks, errors_fit ks (f n ks).2.

(** A thunk resolves to [v] and [e] in state [l]: a cache hit yields its
    value and no error; a thunk of a batch yields what its closure reads
    at its position, once the batch is done. *)
Definition resolves (thunk : Thunk) (l : DataLoader.t) (v : Value)
    (e : Go.error) : Prop :=
  match thunk with
  | Cached it => v = it ∧ e = None
  | Waiting b pos key =>
      ∃ bt, heap l !! b = Some bt ∧ done bt = true
            ∧ v = value_at bt pos ∧ error_at bt pos = Ret e
  end.

(** *** Fetches and the cache *)

(** The most recent call of fetch that had [key] among its keys, and the
    error that call reported for [key], as the thunks of its batch read
    it. *)
Definition last_fetch (key : Key) (l : DataLoader.t) : option FetchCall :=
  last (filter (λ c, key ∈ fc_keys c) (fetched l)).

Definition reported (key : Key) (c : FetchCall) : option Go.error :=
  pos ← scan key (fc_keys c) 0;
  match error_at (mkBatch (fc_keys c) (fc_data c) (fc_error c) true true) pos with
  | Ret e => Some e
  | _ => None
  end.

Definition last_fetch_failed (key : Key) (l : DataLoader.t) : Prop :=
  ∃ c e, last_fetch key l = Some c ∧ reported key c = Some (Some e).

(** A backend that answers its first call and fails afterwards, behind a
    loader with batches of one key; and two loads of the same key whose
    thunks are called in the opposite order. *)
Definition flaky : Fetcher :=
  λ n ks,
    match n with
    | O => (map (λ _, AStr "v") ks, None)
    | S _ => ([], Some [Some (OtherError "backend down")])
    end.

Definition two_loads_of_one_key : list Event :=
  [DoLoadThunk (AInt 7); DoLoadThunk (AInt 7);
   DoSched (GoEnd 0); DoSched (GoEnd 1);
   DoCall (Waiting 1 0 (AInt 7)); DoCall (Waiting 0 0 (AInt 7))].

(** A fetcher that doubles integer keys. *)
Definition double : Fetcher :=
  λ _ ks, (map (λ k, match k with
                     | AInt n => AInt (2 * n)
                     | _ => ANil
                     end) ks, None).

(** *** Lazy initialization *)

(** What holds of a dispatcher over its lifetime: an attribute that has
    an entry in [loaders] has a nil entry in [initLoaders]; no attribute's
    initializer ran twice; and it ran only for attributes that have an
    entry in [loaders]. The same for object types. *)
Record attr_inv (l : AttrDataLoader.t) : Prop := {
  ai_consumed : ∀ a, is_Some (AttrDataLoader.loaders l !! a) →
                AttrDataLoader.initLoaders l !! a = Some None;
  ai_once : NoDup (AttrDataLoader.inited l);
  ai_loaded : ∀ a, a ∈ AttrDataLoader.inited l →
              is_Some (AttrDataLoader.loaders l !! a)
}.

Record obj_inv (l : ObjAttrDataLoader.t) : Prop := {
  oi_consumed : ∀ o, is_Some (ObjAttrDataLoader.loaders l !! o) →
                ObjAttrDataLoader.initLoaders l !! o = Some None;
  oi_once : NoDup (ObjAttrDataLoader.inited l);
  oi_loaded : ∀ o, o ∈ ObjAttrDataLoader.inited l →
              is_Some (ObjAttrDataLoader.loaders l !! o)
}.

(** *** An attribute dispatcher for accounts *)

(** Accounts are loaded by id or by email. The backend knows account 1
    only; for any other id it returns no value and an error. The
    propagator of ["id"] primes the ["email"] loader with the value it is
    handed, under that value as the key. *)
Definition accounts_by_id : Fetcher :=
  λ _ ks,
    (map (λ k, match k with
               | AInt 1 => AStr "ann@x"
               | _ => ANil
               end) ks,
     Some (map (λ k, match k with
                     | AInt 1 => None
                     | _ => Some (OtherError "no such account")
                     end) ks)).

Definition accounts_by_email : Fetcher := λ _ ks, (map (λ _, ANil) ks, None).

Definition account_loader : AttrDataLoader.t :=
  AttrDataLoader.NewAttrDataLoader
    (Some {[ AStr "id" := Some (λ _, Some (NewDataLoader 0 0 accounts_by_id));
             AStr "email" := Some (λ _, Some (NewDataLoader 0 0 accounts_by_email)) ]})
    (Some {[ AStr "id" := λ v, [AttrDataLoader.CallPrime (AStr "email") v v] ]}).

(** *** Observations on a run *)

(** The key lists that fetch received, oldest first, and the cache as a
    list. *)
Definition fetched_keys (l : DataLoader.t) : list (list Key) :=
  fc_keys <$> fetched l.

Definition cached (l : DataLoader.t) : list (Key * Value) :=
  map_to_list (default ∅ (cache l)).

(** A fetcher that returns a value for every key and one error for all
    of them. *)
Definition one_error_for_all : Fetcher :=
  λ _ ks, (map (λ _, AStr "V") ks, Some [Some (OtherError "E")]).

(** *** What a step does to the batches *)

(** Between [l] and [l'] no batch gained a key or changed its [closing]
    flag, no batch was created and none became the current one. *)
Definition still (l l' : DataLoader.t) : Prop :=
  ∀ b bt', heap l' !! b = Some bt' →
    ∃ bt, heap l !! b = Some bt
          ∧ keys bt' = keys bt ∧ closing bt' = closing bt
          ∧ (batch l' = Some b → batch l = Some b).

(** Batch [b] of [l'], with content [bt'], came out of [LoadThunk] on [l]
    as it was ([Kept]), with one more key ([Joined]), or as a new batch
    ([Fresh]); a batch that gained a key is the current one afterwards
    exactly when the size test did not close it. *)
Inductive enqueued (l l' : DataLoader.t) (b : nat) (bt' : Batch) : Prop :=
| Kept bt :
    heap l !! b = Some bt → keys bt' = keys bt → closing bt' = closing bt →
    (batch l' = Some b → batch l = Some b) →
    enqueued l l' b bt'
| Joined bt key :
    heap l !! b = Some bt → batch l = Some b →
    keys bt' = keys bt ++ [key] →
    closing bt' = capped l (length (keys bt)) →
    (batch l' = Some b ↔ capped l (length (keys bt)) = false) →
    enqueued l l' b bt'
| Fresh key :
    heap l !! b = None → batch l = None →
    keys bt' = [key] →
    closing bt' = capped l 0 →
    (batch l' = Some b ↔ capped l 0 = false) →
    enqueued l l' b bt'.

(** *** A quiet [LoadAll] *)

(** The keys the current batch is waiting with; those keys after one more
    key was looked up, which [keyIndex] appends when it is not among
    them; the keys of a list that are not cached; and the condition that
    a batch of [n] keys stays below the cap. With [idle], no other
    goroutine acts while [LoadAll] runs. *)
Definition pending (l : DataLoader.t) : list Key :=
  match batch l with
  | Some b => keys (deref b l)
  | None => []
  end.

Definition add_key (ks : list Key) (key : Key) : list Key :=
  if decide (key ∈ ks) then ks else ks ++ [key].

Definition misses (l : DataLoader.t) (keys : list Key) : list Key :=
  filter (λ key, cache_get key l = None) keys.

Definition roomy (l : DataLoader.t) (n : nat) : Prop :=
  maxBatch l = 0 ∨ Z.of_nat n < maxBatch l < 2 ^ 63.

Definition idle : nat → list Event := λ _, [].


(** *** The fetches of a quiet [LoadAll] *)

(** The batches of the thunks of a list, in the order of the list, and
    those of them that are not done according to [dn], each once, in the
    order of their first occurrence. *)
Definition batches_of (results : list (option Thunk)) : list nat :=
  omap (λ f, match f with
             | Some (Waiting b _ _) => Some b
             | _ => None
             end) results.

Fixpoint undone (dn : nat → bool) (bs : list nat) : list nat :=
  match bs with
  | [] => []
  | b :: bs' =>
      if dn b then undone dn bs'
      else b :: undone (λ b', bool_decide (b' = b) || dn b') bs'
  end.

(** *** The object type of a call *)

Definition called_type (c : ObjAttrDataLoader.Call) : ObjectType :=
  match c with
  | ObjAttrDataLoader.DoLoad _ objectType _ _ => objectType
  | ObjAttrDataLoader.DoLoadAll _ objectType _ _ => objectType
  | ObjAttrDataLoader.DoPrime objectType _ _ _ => objectType
  | ObjAttrDataLoader.DoForcePrime objectType _ _ _ => objectType
  | ObjAttrDataLoader.DoClear objectType _ _ => objectType
  end.

(** *** [LoadAll] in the words of the specification *)





(** * Properties *)

#[local] Set Warnings "-clear-no-such-hyp".

(** ** Error classification *)

(** C1 (the code departs from the claim at nil). [IsLoadingError] is
    false exactly on the two routing errors and true on every other
    argument: on an error of any other type, and also on the nil error,
    for which the claim asks false. *)
Theorem IsLoadingError_nil_is_true :
  IsLoadingError None = true
  ∧ (∀ msg, IsLoadingError (NewObjTypeNotRegError msg) = false)
  ∧ (∀ msg, IsLoadingError (NewAttrNotRegError msg) = false)
  ∧ (∀ msg, IsLoadingError (Some (OtherError msg)) = true)
  ∧ (∀ e, IsLoadingError e
          = negb (isObjTypeNotRegError e || isAttrNotRegError e)).
Proof.
  repeat split. intros [[msg | msg | msg] |]; reflexivity.
Qed.

(** ** The cache of the batching loader *)

Lemma cache_get_unsafeSet key value k (l : DataLoader.t) :
  cache_get k (unsafeSet key value l)
  = if decide (key = k) then Some value else cache_get k l.
Proof.
  unfold cache_get, unsafeSet; simpl.
  rewrite lookup_insert. destruct (cache l); simpl.
  - reflexivity.
  - case_decide; [reflexivity | apply lookup_empty].
Qed.

Lemma Prime_result key value forcePrime (l : DataLoader.t) :
  DataLoader.Prime key value forcePrime l
  = if forcePrime || bool_decide (cache_get key l = None)
    then (true, unsafeSet key value l)
    else (false, l).
Proof.
  unfold DataLoader.Prime. destruct forcePrime; simpl; [reflexivity |].
  destruct (cache_get key l) eqn:E; reflexivity.
Qed.

(** C7. [Prime] stores the value and returns true when it is forced or
    the key is not cached, and otherwise changes nothing and returns
    false; in both cases it leaves the batches, the goroutines and the
    record of fetch calls as they are, so it never fetches. A second,
    unforced [Prime] of the same key returns false and keeps the loader as
    the first one left it: with the first value cached when the first call
    stored it. *)
Theorem Prime_stores_when_forced_or_absent key value forcePrime (l : DataLoader.t) :
  let r := (DataLoader.Prime key value forcePrime l).1 in
  let l' := (DataLoader.Prime key value forcePrime l).2 in
  r = (forcePrime || bool_decide (cache_get key l = None))
  ∧ (r = true →
     cache_get key l' = Some value
     ∧ ∀ k, k ≠ key → cache_get k l' = cache_get k l)
  ∧ (r = false → l' = l)
  ∧ (fetched l' = fetched l ∧ spawned l' = spawned l
     ∧ heap l' = heap l ∧ batch l' = batch l)
  ∧ (∀ value2,
       let r2 := (DataLoader.Prime key value2 false l').1 in
       let l2 := (DataLoader.Prime key value2 false l').2 in
       (r = true → r2 = false ∧ l2 = l' ∧ cache_get key l2 = Some value)
       ∧ (r = false → r2 = false ∧ l2 = l)).
Proof.
  intros r l'. subst r l'. rewrite Prime_result.
  destruct (forcePrime || bool_decide (cache_get key l = None)) eqn:E;
    cbn [fst snd].
  - split; [reflexivity |]. split.
    { intros _. split.
      - rewrite cache_get_unsafeSet. by rewrite decide_True.
      - intros k Hk. rewrite cache_get_unsafeSet. by rewrite decide_False. }
    split; [discriminate |]. split; [done |].
    intros value2. rewrite Prime_result, cache_get_unsafeSet, decide_True by done.
    rewrite bool_decide_eq_false_2 by discriminate. cbn [fst snd orb].
    split; [| discriminate]. intros _.
    rewrite cache_get_unsafeSet, decide_True by done. done.
  - split; [reflexivity |]. split; [discriminate |]. split; [done |].
    split; [done |]. intros value2. rewrite Prime_result.
    apply orb_false_iff in E as [_ E]. rewrite E. cbn [fst snd orb].
    split; [discriminate | done].
Qed.

Lemma Prime_stores_when_forced_or_absent_witness :
  let l := NewDataLoader 0 0 (λ _ ks, (ks, None)) in
  (DataLoader.Prime (AInt 1) (AStr "a") false l).1 = true
  ∧ cache_get (AInt 1)
      (DataLoader.Prime (AInt 1) (AStr "b") false
         (DataLoader.Prime (AInt 1) (AStr "a") false l).2).2
    = Some (AStr "a").
Proof.
  intros l.
  pose proof (Prime_stores_when_forced_or_absent (AInt 1) (AStr "a") false l)
    as (Hr & _ & _ & _ & H2).
  split; [exact Hr |].
  destruct (H2 (AStr "b")) as [H _].
  destruct (H Hr) as (_ & _ & Hc). exact Hc.
Defined.

(** ** Unregistered attributes and object types *)

Lemma attr_loader_unregistered attribute (l : AttrDataLoader.t) :
  attr_unregistered attribute l → AttrDataLoader.loader attribute l = Ret (None, l).
Proof. intros [H1 H2]. unfold AttrDataLoader.loader. by rewrite H1, H2. Qed.

Lemma obj_loader_unregistered objectType (l : ObjAttrDataLoader.t) :
  obj_unregistered objectType l →
  ObjAttrDataLoader.loader objectType l = Ret (None, l).
Proof. intros [H1 H2]. unfold ObjAttrDataLoader.loader. by rewrite H1, H2. Qed.

(** C8. On an attribute with no constructed loader and no initializer,
    [Load] and [LoadAll] of the attribute dispatcher return an
    [AttrNotRegError], [Prime] returns false, and [Clear] changes nothing
    and returns the dispatcher; on an unregistered object type, [Load] and
    [LoadAll] of the object dispatcher return an [ObjTypeNotRegError]. No
    call changes the dispatcher. *)
Theorem unregistered_gives_not_registered_error :
  (∀ attribute (l : AttrDataLoader.t),
     attr_unregistered attribute l →
     (∀ env key, ∃ e,
         AttrDataLoader.Load env attribute key l = Ret (ANil, e, l)
         ∧ isAttrNotRegError e = true)
     ∧ (∀ env keys, ∃ e,
         AttrDataLoader.LoadAll env attribute keys l = Ret (None, [e], l)
         ∧ isAttrNotRegError e = true)
     ∧ (∀ key value, AttrDataLoader.Prime attribute key value l = Ret (false, l))
     ∧ (∀ key, AttrDataLoader.Clear attribute key l = Ret l))
  ∧ (∀ objectType (l : ObjAttrDataLoader.t),
       obj_unregistered objectType l →
       (∀ env attribute key, ∃ e,
           ObjAttrDataLoader.Load env objectType attribute key l = Ret (ANil, e, l)
           ∧ isObjTypeNotRegError e = true)
       ∧ (∀ env attribute keys, ∃ e,
           ObjAttrDataLoader.LoadAll env objectType attribute keys l
           = Ret (None, [e], l)
           ∧ isObjTypeNotRegError e = true)).
Proof.
  split.
  - intros attribute l H. pose proof (attr_loader_unregistered _ _ H) as Hl.
    repeat split.
    + intros env key. unfold AttrDataLoader.Load. rewrite Hl. cbn. eauto.
    + intros env keys. unfold AttrDataLoader.LoadAll. rewrite Hl. cbn. eauto.
    + intros key value. unfold AttrDataLoader.Prime, AttrDataLoader.prime.
      by rewrite Hl.
    + intros key. unfold AttrDataLoader.Clear. by rewrite Hl.
  - intros objectType l H. pose proof (obj_loader_unregistered _ _ H) as Hl.
    split.
    + intros env attribute key. unfold ObjAttrDataLoader.Load. rewrite Hl.
      cbn. eauto.
    + intros env attribute keys. unfold ObjAttrDataLoader.LoadAll. rewrite Hl.
      cbn. eauto.
Qed.

Lemma unregistered_gives_not_registered_error_witness :
  (let l := AttrDataLoader.NewAttrDataLoader None None in
   AttrDataLoader.Prime (AStr "id") (AInt 1) (AStr "a") l = Ret (false, l)
   ∧ AttrDataLoader.Clear (AStr "id") (AInt 1) l = Ret l)
  ∧ (let l := ObjAttrDataLoader.NewObjAttrDataLoader None in
     ∃ e, ObjAttrDataLoader.Load [] (AStr "account") (AStr "id") (AInt 1) l
          = Ret (ANil, e, l)
          ∧ isObjTypeNotRegError e = true).
Proof.
  destruct unregistered_gives_not_registered_error as [HA HO]. split.
  - intros l.
    destruct (HA (AStr "id") l) as (_ & _ & HP & HC);
      [split; reflexivity |].
    split; [apply HP | apply HC].
  - intros l.
    destruct (HO (AStr "account") l) as (HL & _); [split; reflexivity |].
    apply HL.
Defined.

(** C10. On an attribute with no loader and no initializer, [LoadAll] of
    the attribute dispatcher returns, for a key list of any length, the
    nil values slice and an errors slice of length one that holds an
    [AttrNotRegError]; [LoadAll] of the object dispatcher does the same
    with an [ObjTypeNotRegError] on an unregistered object type. The
    errors are parallel to the keys only when there is exactly one key. *)
Theorem LoadAll_unregistered_returns_one_error :
  (∀ env attribute keys (l : AttrDataLoader.t),
     attr_unregistered attribute l →
     ∃ values errs,
       AttrDataLoader.LoadAll env attribute keys l = Ret (values, errs, l)
       ∧ values = None
       ∧ length errs = 1%nat
       ∧ errs = [NewAttrNotRegError
                   ("no dataloader for attribute '" ++ fmt_s attribute
                    ++ "' registered")%string]
       ∧ (length errs = length keys ↔ length keys = 1%nat))
  ∧ (∀ env objectType attribute keys (l : ObjAttrDataLoader.t),
       obj_unregistered objectType l →
       ∃ values errs,
         ObjAttrDataLoader.LoadAll env objectType attribute keys l
         = Ret (values, errs, l)
         ∧ values = None
         ∧ length errs = 1%nat
         ∧ errs = [NewObjTypeNotRegError
                     ("no dataloader for objectType '" ++ fmt_s objectType
                      ++ "' registered")%string]
         ∧ (length errs = length keys ↔ length keys = 1%nat)).
Proof.
  split.
  - intros env attribute keys l H. unfold AttrDataLoader.LoadAll.
    rewrite (attr_loader_unregistered _ _ H). cbn.
    eexists _, _. repeat split; auto.
  - intros env objectType attribute keys l H. unfold ObjAttrDataLoader.LoadAll.
    rewrite (obj_loader_unregistered _ _ H). cbn.
    eexists _, _. repeat split; auto.
Qed.

Lemma LoadAll_unregistered_returns_one_error_witness :
  let l := AttrDataLoader.NewAttrDataLoader None None in
  ∃ errs,
    AttrDataLoader.LoadAll (λ _, []) (AStr "id") [AInt 1; AInt 2; AInt 3] l
    = Ret (None, errs, l)
    ∧ length errs = 1%nat.
Proof.
  intros l.
  destruct LoadAll_unregistered_returns_one_error as [HA _].
  destruct (HA (λ _, []) (AStr "id") [AInt 1; AInt 2; AInt 3] l)
    as (values & errs & HL & -> & Hlen & _); [split; reflexivity |].
  exists errs. split; [exact HL | exact Hlen].
Defined.

(** ** The batches of a loader *)

(** Counting goroutines in the list of those still to run. *)
Lemma count_occ_snoc (gs : list goroutine) g g' :
  count_occ goroutine_eq_dec (gs ++ [g]) g'
  = (count_occ goroutine_eq_dec gs g' + if decide (g = g') then 1 else 0)%nat.
Proof.
  rewrite count_occ_app. f_equal.
Qed.

Lemma count_occ_zero (gs : list goroutine) g :
  g ∉ gs → count_occ goroutine_eq_dec gs g = 0%nat.
Proof. intros H. apply count_occ_not_In. by rewrite <- list_elem_of_In. Qed.

Lemma count_occ_pos (gs : list goroutine) g :
  (0 < count_occ goroutine_eq_dec gs g)%nat → g ∈ gs.
Proof. intros H. apply list_elem_of_In. apply (count_occ_In goroutine_eq_dec). lia. Qed.

(** Taking a goroutine out leaves one occurrence less of it, and nothing new. *)
Lemma take_Some g gs gs' :
  take g gs = Some gs' →
  (∀ g', count_occ goroutine_eq_dec gs g'
         = (count_occ goroutine_eq_dec gs' g' + if decide (g = g') then 1 else 0)%nat)
  ∧ (∀ g', g' ∈ gs' → g' ∈ gs).
Proof.
  revert gs'. induction gs as [| x gs IH]; intros gs' H; simpl in H; [discriminate |].
  destruct (decide (g = x)) as [-> | Hne].
  - injection H as <-. split.
    + intros g'. simpl. destruct (goroutine_eq_dec x g'); case_decide; try congruence; lia.
    + intros g' Hg. by right.
  - destruct (take g gs) as [gs'' |] eqn:E; simpl in H; [| discriminate].
    injection H as <-. destruct (IH _ eq_refl) as [IH1 IH2]. split.
    + intros g'. simpl. rewrite IH1.
      destruct (goroutine_eq_dec x g'); lia.
    + intros g' Hg. apply elem_of_cons in Hg as [-> | Hg]; [by left | right; auto].
Qed.

Lemma take_None g gs : take g gs = None → g ∉ gs.
Proof.
  induction gs as [| x gs IH]; simpl; intros H.
  - apply not_elem_of_nil.
  - destruct (decide (g = x)); [discriminate |].
    destruct (take g gs); [discriminate |].
    apply not_elem_of_cons. auto.
Qed.

(** Counting the calls of fetch of a batch. *)
Lemma calls_snoc b c (l : DataLoader.t) fs :
  length (filter (λ c, fc_batch c = b) (fs ++ [c]))
  = (length (filter (λ c, fc_batch c = b) fs) + if decide (fc_batch c = b) then 1 else 0)%nat.
Proof.
  rewrite filter_app, length_app. f_equal.
  rewrite filter_cons. case_decide; reflexivity.
Qed.

Lemma calls_zero b (fs : list FetchCall) :
  length (filter (λ c, fc_batch c = b) fs) = 0%nat → ∀ c, c ∈ fs → fc_batch c ≠ b.
Proof.
  intros H c Hc Hb. apply length_zero_iff_nil in H.
  assert (c ∈ filter (λ c, fc_batch c = b) fs) as Hin by (apply list_elem_of_filter; done).
  rewrite H in Hin. by apply not_elem_of_nil in Hin.
Qed.

Lemma calls_none b (fs : list FetchCall) :
  (∀ c, c ∈ fs → fc_batch c ≠ b) → length (filter (λ c, fc_batch c = b) fs) = 0%nat.
Proof.
  induction fs as [| c fs IH]; intros H; [reflexivity |].
  rewrite filter_cons. rewrite decide_False by (apply H; by left).
  apply IH. intros c' Hc'. apply H. by right.
Qed.

Lemma deref_lookup b bt (l : DataLoader.t) : heap l !! b = Some bt → deref b l = bt.
Proof. intros H. unfold deref. by apply list_lookup_total_correct. Qed.

(** The loop of [keyIndex] finds the key, or the key is not there. *)
Lemma scan_spec key ks i :
  match scan key ks i with
  | Some j => (i ≤ j)%nat ∧ ks !! (j - i)%nat = Some key
  | None => key ∉ ks
  end.
Proof.
  revert i. induction ks as [| k ks IH]; intros i; simpl.
  - apply not_elem_of_nil.
  - destruct (decide (key = k)) as [-> | Hne].
    + split; [lia |]. by rewrite Nat.sub_diag.
    + specialize (IH (S i)). destruct (scan key ks (S i)) as [j |].
      * destruct IH as [Hle Hj]. split; [lia |].
        replace (j - i)%nat with (S (j - S i)) by lia. exact Hj.
      * apply not_elem_of_cons. auto.
Qed.

(** The invariant speaks of the batches, the goroutines and the record of
    fetch calls only. *)
Lemma inv_frame (l l' : DataLoader.t) :
  fetch l' = fetch l →
  batch l' = batch l → heap l' = heap l → spawned l' = spawned l →
  fetched l' = fetched l → inv l → inv l'.
Proof.
  destruct l, l'; simpl. intros -> -> -> -> -> [H1 H2 H3 H4].
  split; try assumption.
  intros b bt Hb. destruct (H1 b bt Hb). split; assumption.
Qed.

Lemma not_done_yet (l : DataLoader.t) b bt :
  batch_inv l b bt → calls b l = 0%nat → done bt = false.
Proof.
  intros [_ _ _ _ B5 _ _ _] Hc. destruct (done bt); [| done].
  destruct B5 as [B5 _]. specialize (B5 eq_refl). lia.
Qed.

Lemma inv_valid (l : DataLoader.t) g :
  inv l → g ∈ spawned l → ∃ bt, heap l !! batch_of g = Some bt.
Proof.
  intros Hinv Hg. apply lookup_lt_is_Some_2. by apply (inv_spawned l Hinv).
Qed.

(** Proof steps for the invariant: [counts] brings the counters of a state
    after a step to the lists of the state before it; [finish] settles
    what is left, which is arithmetic on the counters and a case
    distinction on the batches and their [closing] flags. *)
Ltac counts :=
  unfold timers, ends, calls in *;
  cbn [spawned fetched heap batch fetch set_spawned set_batch set_heap
       set_fetched set_cache go store] in *;
  rewrite ?count_occ_snoc.

Ltac clear_quantified :=
  repeat match goal with
         | H : ∀ x : ?T, _ |- _ =>
             lazymatch type of T with
             | Prop => fail
             | _ => clear H
             end
         end.

Ltac finish :=
  clear_quantified;
  repeat case_decide; simplify_eq;
  repeat match goal with
         | H : context [if closing ?bt then _ else _] |- _ =>
             destruct (closing bt) eqn:?
         | |- context [if closing ?bt then _ else _] =>
             destruct (closing bt) eqn:?
         end;
  first [done | lia | naive_solver lia].

(** The timer goroutine keeps the invariant: on a closing batch it does
    nothing; on an open batch, which then is the current one, it detaches
    the batch and goes on to [end]. *)
Lemma startTimer_inv b gs (l : DataLoader.t) :
  inv l → take (GoStartTimer b) (spawned l) = Some gs →
  inv (startTimer b (set_spawned gs l)).
Proof.
  intros Hinv Htake. destruct (take_Some _ _ _ Htake) as [Hcount Hsub].
  assert (GoStartTimer b ∈ spawned l) as Hin.
  { apply count_occ_pos. rewrite Hcount, decide_True by done. lia. }
  destruct (inv_valid _ _ Hinv Hin) as [bt Hbt]. simpl in Hbt.
  unfold startTimer. rewrite (deref_lookup b bt) by done.
  destruct Hinv as [H1 H2 H3 H4].
  pose proof (H1 b bt Hbt) as [B1 B2 B3 B4 B5 B6 B7 B8].
  pose proof (Hcount (GoStartTimer b)) as C1b.
  pose proof (Hcount (GoEnd b)) as C2b.
  destruct (closing bt) eqn:Hcl.
  - split; [| by auto ..].
    intros b' bt' Hb'. pose proof (H1 b' bt' Hb') as [K1 K2 K3 K4 K5 K6 K7 K8].
    pose proof (Hcount (GoStartTimer b')) as C1. pose proof (Hcount (GoEnd b')) as C2.
    split; counts; [assumption | assumption | finish .. | assumption | assumption].
  - split.
    + intros b' bt' Hb'. pose proof (H1 b' bt' Hb') as [K1 K2 K3 K4 K5 K6 K7 K8].
      pose proof (Hcount (GoStartTimer b')) as C1. pose proof (Hcount (GoEnd b')) as C2.
      split; counts; [assumption | assumption | finish .. | assumption | assumption].
    + intros g Hg. counts. apply elem_of_app in Hg as [Hg | Hg]; [auto |].
      apply list_elem_of_singleton in Hg as ->. simpl. by apply lookup_lt_Some in Hbt.
    + done.
    + done.
Qed.

(** An [end] goroutine that gets its turn finds its batch not done (so
    closing [done] does not panic), makes the one fetch of the batch and
    keeps the invariant. *)
Lemma batch_end_inv b gs (l : DataLoader.t) :
  inv l → take (GoEnd b) (spawned l) = Some gs →
  ∃ bt vs es,
    heap l !! b = Some bt
    ∧ done bt = false
    ∧ fetch l (length (fetched l)) (keys bt) = (vs, es)
    ∧ batch_end b (set_spawned gs l)
      = Ret (store b (mkBatch (keys bt) vs es (closing bt) true)
               (set_fetched (fetched l ++ [mkFetchCall b (keys bt) vs es])
                  (set_spawned gs l)))
    ∧ inv (store b (mkBatch (keys bt) vs es (closing bt) true)
             (set_fetched (fetched l ++ [mkFetchCall b (keys bt) vs es])
                (set_spawned gs l))).
Proof.
  intros Hinv Htake. destruct (take_Some _ _ _ Htake) as [Hcount Hsub].
  assert (GoEnd b ∈ spawned l) as Hin.
  { apply count_occ_pos. rewrite Hcount, decide_True by done. lia. }
  destruct (inv_valid _ _ Hinv Hin) as [bt Hbt]. simpl in Hbt.
  destruct Hinv as [H1 H2 H3 H4].
  pose proof (H1 b bt Hbt) as [B1 B2 B3 B4 B5 B6 B7 B8].
  pose proof (Hcount (GoStartTimer b)) as C1b.
  pose proof (Hcount (GoEnd b)) as C2b.
  assert (calls b l = 0%nat) as Hcalls by (counts; finish).
  assert (done bt = false) as Hdone.
  { destruct (done bt); [| done]. destruct B5 as [B5 _]. specialize (B5 eq_refl). lia. }
  destruct (fetch l (length (fetched l)) (keys bt)) as [vs es] eqn:Hf.
  exists bt, vs, es. split; [done |]. split; [done |]. split; [done |]. split.
  { unfold batch_end. rewrite (deref_lookup b bt) by done. cbn [fetch set_spawned fetched].
    rewrite Hf, Hdone. reflexivity. }
  split.
  - intros b' bt' Hb'. counts.
    pose proof (Hcount (GoStartTimer b')) as C1. pose proof (Hcount (GoEnd b')) as C2.
    apply list_lookup_insert_Some in Hb' as [(<- & <- & Hlt) | (Hne & Hb')].
    + split; cbn [keys data error closing done]; counts;
        rewrite ?calls_snoc; cbn [fc_batch];
        [assumption | assumption | finish .. | | by eauto].
      intros c Hc Hcb. apply elem_of_app in Hc as [Hc | Hc].
      * exfalso. by apply (calls_zero b (fetched l) Hcalls c).
      * apply list_elem_of_singleton in Hc as ->. done.
    + pose proof (H1 b' bt' Hb') as [K1 K2 K3 K4 K5 K6 K7 K8].
      split; counts; rewrite ?calls_snoc; cbn [fc_batch];
        [assumption | assumption | finish .. | | assumption].
      intros c Hc Hcb. apply elem_of_app in Hc as [Hc | Hc]; [auto |].
      apply list_elem_of_singleton in Hc as ->. done.
  - intros g Hg. counts. rewrite length_insert. auto.
  - intros c Hc. counts. rewrite length_insert.
    apply elem_of_app in Hc as [Hc | Hc]; [auto |].
    apply list_elem_of_singleton in Hc as ->. simpl. by apply lookup_lt_Some in Hbt.
  - intros b' Hb'. counts. rewrite length_insert. auto.
Qed.

Lemma evolves_refl l : evolves l l.
Proof. split; try done. intros b bt Hb. exists bt. done. Qed.

Lemma evolves_trans l1 l2 l3 : evolves l1 l2 → evolves l2 l3 → evolves l1 l3.
Proof.
  intros [A1 A2 A3 A4] [B1 B2 B3 B4]. split; try congruence.
  - intros b bt Hb. destruct (A3 b bt Hb) as (bt2 & Hb2 & Hp2 & Hd2).
    destruct (B3 b bt2 Hb2) as (bt3 & Hb3 & Hp3 & Hd3).
    exists bt3. split; [done |]. split; [by etrans |].
    intros Hd. specialize (Hd2 Hd). subst bt2. auto.
  - by etrans.
Qed.

Lemma evolves_frame (l l' : DataLoader.t) :
  fetch l' = fetch l → maxBatch l' = maxBatch l → heap l' = heap l →
  fetched l' = fetched l → evolves l l'.
Proof.
  intros H1 H2 H3 H4. split; try done.
  - intros b bt Hb. exists bt. by rewrite H3.
  - by rewrite H4.
Qed.

Lemma deref_store b bt (l : DataLoader.t) :
  (b < length (heap l))%nat → deref b (store b bt l) = bt.
Proof.
  intros H. unfold deref, store. cbn [heap set_heap].
  apply list_lookup_total_correct. by apply list_lookup_insert_eq.
Qed.

(** [keyIndex] on the current batch of the loader. *)
Lemma keyIndex_current b bt key (l : DataLoader.t) :
  inv l → heap l !! b = Some bt → batch l = Some b →
  keyIndex b key l =
    match scan key (keys bt) 0 with
    | Some i => (i, l)
    | None =>
        (length (keys bt),
         if capped l (length (keys bt))
         then go (GoEnd b)
                (set_batch None
                   (store b (mkBatch (keys bt ++ [key]) (data bt) (error bt)
                                     true (done bt)) l))
         else store b (mkBatch (keys bt ++ [key]) (data bt) (error bt)
                               false (done bt)) l)
    end.
Proof.
  intros Hinv Hbt Hcur. unfold keyIndex. rewrite (deref_lookup b bt) by done.
  destruct (scan key (keys bt) 0); [done |].
  pose proof (inv_batch l Hinv b bt Hbt) as [B1 B2 B3 B4 B5 B6 B7 B8].
  assert (closing bt = false) as Hcl by (by apply B6).
  assert (b < length (heap l))%nat as Hlt by (by apply lookup_lt_Some in Hbt).
  rewrite decide_False by (destruct (keys bt); [done | simpl; lia]).
  f_equal. rewrite Hcl.
  fold (capped (store b (mkBatch (keys bt ++ [key]) (data bt) (error bt)
                                 false (done bt)) l) (length (keys bt))).
  change (capped (store _ _ l) ?p) with (capped l p).
  destruct (capped l (length (keys bt))); [| done].
  rewrite deref_store by done. cbn [closing negb keys data error done].
  unfold store at 1. cbn [heap set_heap store]. 
  rewrite list_insert_insert_eq. reflexivity.
Qed.

Lemma snoc_lookup_Some {A} (xs : list A) x i y :
  (xs ++ [x]) !! i = Some y →
  xs !! i = Some y ∨ (i = length xs ∧ y = x).
Proof.
  intros H. apply lookup_app_Some in H as [H | [Hle H]]; [by left |].
  right. destruct (i - length xs)%nat eqn:E; simpl in H; [| by destruct n].
  split; [lia | congruence].
Qed.

(** A new key joins the current batch, which the size test may close. *)
Lemma join_inv b bt key closes (l : DataLoader.t) :
  inv l → heap l !! b = Some bt → batch l = Some b → key ∉ keys bt →
  let l1 := store b (mkBatch (keys bt ++ [key]) (data bt) (error bt)
                             closes (done bt)) l in
  inv (if closes then go (GoEnd b) (set_batch None l1) else l1).
Proof.
  intros Hinv Hbt Hcur Hkey l1. subst l1.
  destruct Hinv as [H1 H2 H3 H4].
  pose proof (H1 b bt Hbt) as [B1 B2 B3 B4 B5 B6 B7 B8].
  assert (closing bt = false ∧ timers b l = 1%nat) as [Hcl Htm] by (by apply B6).
  assert (calls b l = 0%nat) as Hcalls by (counts; finish).
  assert (b < length (heap l))%nat as Hlt by (by apply lookup_lt_Some in Hbt).
  assert (NoDup (keys bt ++ [key])) as Hnd.
  { apply NoDup_app. split; [done |]. split; [| apply NoDup_singleton].
    intros x Hx Hx'. apply list_elem_of_singleton in Hx' as ->. done. }
  assert (keys bt ++ [key] ≠ []) as Hne by (by destruct (keys bt)).
  assert (done bt = false) as Hdone by (by eapply not_done_yet).
  destruct closes.
  - split.
    + intros b' bt' Hb'. counts.
      apply list_lookup_insert_Some in Hb' as [(<- & <- & _) | (Hneq & Hb')].
      * split; cbn [keys data error closing done]; counts;
          [assumption | assumption | finish .. | | congruence].
        intros c Hc Hcb. exfalso. by apply (calls_zero b (fetched l) Hcalls c).
      * pose proof (H1 b' bt' Hb') as [K1 K2 K3 K4 K5 K6 K7 K8].
        split; counts;
          [assumption | assumption | finish .. | assumption | assumption].
    + intros g Hg. counts. rewrite length_insert.
      apply elem_of_app in Hg as [Hg | Hg]; [auto |].
      apply list_elem_of_singleton in Hg as ->. done.
    + intros c Hc. counts. rewrite length_insert. auto.
    + done.
  - split.
    + intros b' bt' Hb'. counts.
      apply list_lookup_insert_Some in Hb' as [(<- & <- & _) | (Hneq & Hb')].
      * split; cbn [keys data error closing done]; counts;
          [assumption | assumption | finish .. | | congruence].
        intros c Hc Hcb. exfalso. by apply (calls_zero b (fetched l) Hcalls c).
      * pose proof (H1 b' bt' Hb') as [K1 K2 K3 K4 K5 K6 K7 K8].
        split; counts;
          [assumption | assumption | finish .. | assumption | assumption].
    + intros g Hg. counts. rewrite length_insert. auto.
    + intros c Hc. counts. rewrite length_insert. auto.
    + intros b' Hb'. counts. rewrite length_insert. auto.
Qed.

Lemma join_evolves b bt key closes (l : DataLoader.t) :
  inv l → heap l !! b = Some bt → batch l = Some b →
  let l1 := store b (mkBatch (keys bt ++ [key]) (data bt) (error bt)
                             closes (done bt)) l in
  evolves l (if closes then go (GoEnd b) (set_batch None l1) else l1).
Proof.
  intros Hinv Hbt Hcur l1. subst l1.
  pose proof (inv_batch l Hinv b bt Hbt) as [B1 B2 B3 B4 B5 B6 B7 B8].
  assert (closing bt = false ∧ timers b l = 1%nat) as [Hcl Htm] by (by apply B6).
  assert (done bt = false) as Hdone.
  { destruct (done bt); [| done]. destruct B5 as [B5 _]. specialize (B5 eq_refl).
    rewrite Hcl in B3. lia. }
  assert (b < length (heap l))%nat as Hlt by (by apply lookup_lt_Some in Hbt).
  assert (∀ b' bt', heap l !! b' = Some bt' →
            ∃ bt'', <[b := mkBatch (keys bt ++ [key]) (data bt) (error bt)
                             closes (done bt)]> (heap l) !! b' = Some bt''
                    ∧ keys bt' `prefix_of` keys bt''
                    ∧ (done bt' = true → bt'' = bt')) as Hheap.
  { intros b' bt' Hb'. destruct (decide (b' = b)) as [-> |].
    - assert (bt' = bt) as -> by congruence.
      eexists. split; [by apply list_lookup_insert_eq |].
      split; [by apply prefix_app_r | congruence].
    - exists bt'. rewrite list_lookup_insert_ne by done. done. }
  destruct closes; split; try done.
Qed.

(** [LoadThunk] past the cache when the loader has no current batch. *)
Lemma LoadThunk_fresh key (l : DataLoader.t) :
  cache_get key l = None → batch l = None →
  let b := length (heap l) in
  let closes := capped l 0 in
  LoadThunk key l =
    (Waiting b 0 key,
     mk (fetch l) (wait l) (maxBatch l) (cache l)
        (if closes then None else Some b)
        (heap l ++ [mkBatch [key] [] None closes false])
        (if closes then (spawned l ++ [GoStartTimer b]) ++ [GoEnd b]
         else spawned l ++ [GoStartTimer b])
        (fetched l)).
Proof.
  intros Hc Hcur b closes. unfold LoadThunk. rewrite Hc, Hcur.
  fold b. unfold keyIndex.
  assert (∀ bt, deref b (set_batch (Some b) (set_heap (heap l ++ [bt]) l)) = bt)
    as Hd.
  { intros bt. unfold deref. cbn [heap set_batch set_heap].
    apply list_lookup_total_correct. by apply list_lookup_middle. }
  rewrite Hd. cbn [scan keys newBatch length data error closing done app].
  rewrite decide_True by done.
  assert (∀ bt bt', store b bt' (set_batch (Some b) (set_heap (heap l ++ [bt]) l))
                    = set_batch (Some b) (set_heap (heap l ++ [bt']) l)) as Hs.
  { intros bt bt'. unfold store. cbn [heap set_batch set_heap]. f_equal.
    replace b with (length (heap l) + 0)%nat by (unfold b; lia).
    by rewrite insert_app_r. }
  rewrite Hs.
  change (bool_decide (maxBatch (go _ _) ≠ 0)
          && bool_decide (int_sub (maxBatch (go _ _)) 1 ≤ Z.of_nat 0))
    with closes.
  assert ((heap l ++ [mkBatch [key] [] None false false]) !!! b
          = mkBatch [key] [] None false false) as Hm.
  { apply list_lookup_total_correct. by apply list_lookup_middle. }
  destruct closes; [| reflexivity].
  unfold deref, go, store.
  cbn [heap batch spawned fetched fetch wait maxBatch cache
       set_batch set_heap set_spawned].
  rewrite Hm. cbn [closing negb keys data error done].
  unfold set_spawned, set_batch, set_heap.
  cbn [heap batch spawned fetched fetch wait maxBatch cache].
  f_equal. f_equal.
  replace b with (length (heap l) + 0)%nat by (unfold b; lia).
  by rewrite insert_app_r.
Qed.

(** A new batch with its first key, which the size test may close at
    once. *)
Lemma fresh_inv (key : Key) (closes : bool) (l : DataLoader.t) :
  inv l → batch l = None →
  let b := length (heap l) in
  inv (mk (fetch l) (wait l) (maxBatch l) (cache l)
          (if closes then None else Some b)
          (heap l ++ [mkBatch [key] [] None closes false])
          (if closes then (spawned l ++ [GoStartTimer b]) ++ [GoEnd b]
           else spawned l ++ [GoStartTimer b])
          (fetched l)).
Proof.
  intros Hinv Hcur b. destruct Hinv as [H1 H2 H3 H4].
  assert (calls b l = 0%nat) as Hcalls.
  { apply calls_none. intros c Hc. specialize (H3 c Hc). unfold b. lia. }
  assert (timers b l = 0%nat) as Htm.
  { apply count_occ_zero. intros Hg. specialize (H2 _ Hg). simpl in H2.
    unfold b in H2. lia. }
  assert (ends b l = 0%nat) as Hen.
  { apply count_occ_zero. intros Hg. specialize (H2 _ Hg). simpl in H2.
    unfold b in H2. lia. }
  assert (∀ b' bt', heap l !! b' = Some bt' → b' ≠ b) as Hold.
  { intros b' bt' Hb' ->. apply lookup_lt_Some in Hb'. unfold b in Hb'. lia. }
  split.
  - intros b' bt' Hb'. cbn [heap] in Hb'.
    apply snoc_lookup_Some in Hb' as [Hb' | [-> ->]].
    + pose proof (H1 b' bt' Hb') as [K1 K2 K3 K4 K5 K6 K7 K8].
      pose proof (Hold _ _ Hb') as Hne. counts.
      destruct closes;
        (split; counts;
         [assumption | assumption | finish .. | assumption | assumption]).
    + fold b. counts.
      destruct closes;
        (split; cbn [keys data error closing done]; counts;
         [done | apply NoDup_singleton | finish ..
         | intros c Hc Hcb; exfalso;
           by apply (calls_zero b (fetched l) Hcalls c)
         | done]).
  - intros g Hg. cbn [heap spawned] in *. rewrite length_app. cbn [length].
    assert (g ∈ spawned l ∨ batch_of g = b) as [Hg' | ->].
    { destruct closes; rewrite ?elem_of_app, ?list_elem_of_singleton in Hg;
        naive_solver. }
    + specialize (H2 _ Hg'). lia.
    + unfold b. lia.
  - intros c Hc. cbn [heap fetched] in *. rewrite length_app. specialize (H3 c Hc). lia.
  - intros b' Hb'. cbn [heap batch] in *. rewrite length_app. simpl.
    destruct closes; [done |]. injection Hb' as <-. unfold b. lia.
Qed.

Lemma fresh_evolves bt cur gs (l : DataLoader.t) :
  evolves l (mk (fetch l) (wait l) (maxBatch l) (cache l) cur (heap l ++ [bt]) gs
               (fetched l)).
Proof.
  split; try done. intros b' bt' Hb'. exists bt'. cbn [heap].
  split; [by apply lookup_app_l_Some | done].
Qed.

(** [LoadThunk] keeps the invariant and the cache, and the thunk it returns
    has its key at its position. *)
Lemma LoadThunk_inv key (l : DataLoader.t) :
  inv l →
  inv (LoadThunk key l).2
  ∧ evolves l (LoadThunk key l).2
  ∧ cache (LoadThunk key l).2 = cache l
  ∧ issued (LoadThunk key l).1 (LoadThunk key l).2 = true.
Proof.
  intros Hinv. destruct (cache_get key l) as [it |] eqn:Hc.
  { unfold LoadThunk. rewrite Hc. cbn. split; [done |].
    split; [apply evolves_refl | done]. }
  destruct (batch l) as [b |] eqn:Hcur.
  - assert (∃ bt, heap l !! b = Some bt) as [bt Hbt].
    { apply lookup_lt_is_Some_2. by apply (inv_cur l Hinv). }
    unfold LoadThunk. rewrite Hc, Hcur.
    rewrite (keyIndex_current b bt key l Hinv Hbt Hcur).
    pose proof (scan_spec key (keys bt) 0) as Hscan.
    destruct (scan key (keys bt) 0) as [i |].
    + cbn. split; [done |]. split; [apply evolves_refl |]. split; [done |].
      rewrite (deref_lookup b bt) by done. apply bool_decide_eq_true.
      destruct Hscan as [_ Hscan]. by rewrite Nat.sub_0_r in Hscan.
    + assert (b < length (heap l))%nat as Hlt by (by apply lookup_lt_Some in Hbt).
      pose proof (join_inv b bt key (capped l (length (keys bt))) l
                    Hinv Hbt Hcur Hscan) as Hi.
      pose proof (join_evolves b bt key (capped l (length (keys bt))) l
                    Hinv Hbt Hcur) as He.
      cbn zeta in Hi, He. cbn [fst snd].
      destruct (capped l (length (keys bt))); (split; [done |]; split; [done |]);
        (split; [done |]); cbn [issued]; apply bool_decide_eq_true;
        unfold deref, go, store; cbn [heap set_heap set_batch set_spawned];
        rewrite (list_lookup_total_correct _ _ _ (list_lookup_insert_eq _ _ _ Hlt));
        cbn [keys]; by apply list_lookup_middle.
  - rewrite (LoadThunk_fresh key l Hc Hcur). cbn [fst snd].
    split; [by apply fresh_inv |]. split; [apply fresh_evolves |]. split; [done |].
    cbn [issued]. apply bool_decide_eq_true. unfold deref. cbn [heap].
    by rewrite (list_lookup_total_correct _ _ _ (list_lookup_middle _ [] _ _ eq_refl)).
Qed.

(** What a step of the scheduler comes to. *)
Lemma sched_cases g (l : DataLoader.t) :
  inv l →
  ((g ∉ spawned l) ∧ sched g l = Ret l)
  ∨ (∃ b gs, g = GoStartTimer b ∧ take g (spawned l) = Some gs
             ∧ sched g l = Ret (startTimer b (set_spawned gs l)))
  ∨ (∃ b gs bt vs es,
        g = GoEnd b ∧ take g (spawned l) = Some gs
        ∧ heap l !! b = Some bt ∧ done bt = false
        ∧ fetch l (length (fetched l)) (keys bt) = (vs, es)
        ∧ sched g l
          = Ret (store b (mkBatch (keys bt) vs es (closing bt) true)
                   (set_fetched (fetched l ++ [mkFetchCall b (keys bt) vs es])
                      (set_spawned gs l)))).
Proof.
  intros Hinv. unfold sched. destruct (take g (spawned l)) as [gs |] eqn:Ht.
  - right. destruct g as [b | b].
    + left. by exists b, gs.
    + right. destruct (batch_end_inv b gs l Hinv Ht)
        as (bt & vs & es & Hbt & Hd & Hf & He & _).
      exists b, gs, bt, vs, es. done.
  - left. split; [by apply take_None | done].
Qed.

Lemma startTimer_evolves b (l : DataLoader.t) gs :
  evolves l (startTimer b (set_spawned gs l)).
Proof.
  unfold startTimer. destruct (closing _); by apply evolves_frame.
Qed.

Lemma batch_end_evolves b bt bt' c gs (l : DataLoader.t) :
  heap l !! b = Some bt → done bt = false → keys bt' = keys bt →
  evolves l (store b bt' (set_fetched (fetched l ++ [c]) (set_spawned gs l))).
Proof.
  intros Hbt Hd Hk. split; try done.
  - intros b0 bt0 Hb0. cbn [store heap set_heap set_fetched set_spawned].
    destruct (decide (b0 = b)) as [-> |].
    + assert (bt0 = bt) as -> by congruence. exists bt'.
      split; [apply list_lookup_insert_eq; by apply lookup_lt_Some in Hbt |].
      split; [by rewrite Hk | congruence].
    + exists bt0. by rewrite list_lookup_insert_ne.
  - by apply prefix_app_r.
Qed.

(** A step of the scheduler never panics and keeps the invariant. *)
Lemma sched_inv g (l : DataLoader.t) :
  inv l →
  ∃ l', sched g l = Ret l' ∧ inv l' ∧ evolves l l' ∧ cache l' = cache l.
Proof.
  intros Hinv.
  destruct (sched_cases g l Hinv)
    as [[_ ->] | [(b & gs & -> & Ht & ->)
                 | (b & gs & bt & vs & es & -> & Ht & Hbt & Hd & Hf & ->)]].
  - exists l. split; [done |]. split; [done |]. split; [apply evolves_refl | done].
  - eexists. split; [done |]. split; [by apply startTimer_inv |].
    split; [apply startTimer_evolves |].
    unfold startTimer. by destruct (closing _).
  - eexists. split; [done |].
    destruct (batch_end_inv b gs l Hinv Ht)
      as (bt' & vs' & es' & Hbt' & _ & Hf' & _ & Hi).
    assert (bt' = bt) as -> by congruence.
    assert (vs' = vs ∧ es' = es) as [-> ->] by (split; congruence).
    split; [done |]. split; [by apply (batch_end_evolves b bt) | done].
Qed.

(** After its timer and its [end] have had their turn, a batch is done. *)
Lemma await_inv b (l : DataLoader.t) :
  inv l → (b < length (heap l))%nat →
  ∃ l', await b l = Ret l' ∧ inv l' ∧ evolves l l' ∧ cache l' = cache l
        ∧ done (deref b l') = true.
Proof.
  intros Hinv Hlt. unfold await.
  destruct (done (deref b l)) eqn:Hd.
  { exists l. split; [done |]. split; [done |]. split; [apply evolves_refl | done]. }
  destruct (lookup_lt_is_Some_2 _ _ Hlt) as [bt Hbt].
  rewrite (deref_lookup b bt) in Hd by done.
  pose proof (inv_batch l Hinv b bt Hbt) as [B1 B2 B3 B4 B5 B6 B7 B8].
  assert (calls b l = 0%nat) as Hcalls.
  { assert (calls b l ≠ 1%nat) by (intros Hx; apply B5 in Hx; congruence).
    destruct (closing bt); lia. }
  (* the timer *)
  destruct (sched_cases (GoStartTimer b) l Hinv)
    as [[Hno E1] | [(b1 & gs & Hg & Ht & E1) | (? & ? & ? & ? & ? & ? & _)]];
    [| | done].
  - (* no timer left: the batch is closing, its end is spawned *)
    rewrite E1. cbn [mbind Outcome_bind].
    assert (timers b l = 0%nat) as Htm by (by apply count_occ_zero).
    assert (ends b l = 1%nat) as Hen by (destruct (closing bt); lia).
    destruct (sched_cases (GoEnd b) l Hinv)
      as [[Hno2 _] | [(? & ? & ? & _) | (b2 & gs & bt2 & vs & es & Hg & Ht
                                         & Hbt2 & Hd2 & Hf & E2)]]; [| done |].
    { exfalso. apply count_occ_zero in Hno2. unfold ends in Hen. lia. }
    injection Hg as <-. rewrite E2. cbn [mbind Outcome_bind].
    rewrite deref_store by done. cbn [done].
    destruct (sched_inv (GoEnd b) l Hinv) as (l' & E & Hi & He & Hc).
    rewrite E2 in E. injection E as <-. eexists.
    split; [reflexivity |]. split; [done |]. split; [done |]. split; [done |].
    by rewrite deref_store.
  - injection Hg as <-. rewrite E1. cbn [mbind Outcome_bind].
    pose proof (startTimer_inv b gs l Hinv Ht) as Hi1.
    pose proof (startTimer_evolves b l gs) as He1.
    set (l1 := startTimer b (set_spawned gs l)) in *.
    assert (cache l1 = cache l) as Hc1.
    { unfold l1, startTimer.
      destruct (closing (deref b (set_spawned gs l))); reflexivity. }
    destruct (ev_heap l l1 He1 b bt Hbt) as (bt1 & Hbt1 & _ & _).
    pose proof (inv_batch l1 Hi1 b bt1 Hbt1) as [C1 C2 C3 C4 C5 C6 C7 C8].
    assert (heap l1 = heap l) as Hh1.
    { unfold l1, startTimer.
      destruct (closing (deref b (set_spawned gs l))); reflexivity. }
    assert (bt1 = bt) as -> by (rewrite Hh1 in Hbt1; congruence).
    assert (fetched l1 = fetched l) as Hf1.
    { unfold l1, startTimer.
      destruct (closing (deref b (set_spawned gs l))); reflexivity. }
    assert (calls b l1 = 0%nat) as Hcalls1 by (unfold calls; by rewrite Hf1).
    assert (timers b l1 = 0%nat) as Htm1.
    { destruct (take_Some _ _ _ Ht) as [Hcount _].
      pose proof (Hcount (GoStartTimer b)) as Hx. rewrite decide_True in Hx by done.
      unfold timers in *. unfold l1, startTimer.
      destruct (closing (deref b (set_spawned gs l)));
        cbn [spawned set_spawned go set_batch];
        rewrite ?count_occ_snoc, ?decide_False by done; lia. }
    assert (ends b l1 = 1%nat) as Hen1 by (destruct (closing bt); lia).
    destruct (sched_cases (GoEnd b) l1 Hi1)
      as [[Hno2 _] | [(? & ? & ? & _) | (b2 & gs2 & bt2 & vs & es & Hg & Ht2
                                         & Hbt2 & Hd2 & Hf & E2)]]; [| done |].
    { exfalso. apply count_occ_zero in Hno2. unfold ends in Hen1. lia. }
    injection Hg as <-. rewrite E2. cbn [mbind Outcome_bind].
    rewrite deref_store
      by (change (b < length (heap l1))%nat; by rewrite Hh1).
    cbn [done].
    destruct (sched_inv (GoEnd b) l1 Hi1) as (l' & E & Hi & He & Hc).
    rewrite E2 in E. injection E as <-. eexists. split; [reflexivity |].
    split; [done |]. split; [by eapply evolves_trans |].
    split; [by rewrite <- Hc1 |].
    rewrite deref_store; [done |].
    change (b < length (heap l1))%nat. by rewrite Hh1.
Qed.

Lemma call_Waiting b pos key (l : DataLoader.t) :
  call (Waiting b pos key) l =
    l1 ← await b l;
    err ← error_at (deref b l1) pos;
    Ret (value_at (deref b l1) pos, err,
         if decide (err = None) then unsafeSet key (value_at (deref b l1) pos) l1
         else l1).
Proof. reflexivity. Qed.

Lemma error_at_fit bt pos :
  errors_fit (keys bt) (error bt) → (pos < length (keys bt))%nat →
  ∃ e, error_at bt pos = Ret e.
Proof.
  intros Hfit Hpos. unfold error_at, index. unfold errors_fit in Hfit.
  destruct (error bt) as [es |]; cbn [len mbind option_bind] in *.
  - destruct (decide (length es = 1%nat)) as [H1 | H1].
    + destruct es as [| e es]; [done |]. eauto.
    + rewrite decide_True by done.
      destruct Hfit as [? | [? | Hle]]; [done | done |].
      destruct (lookup_lt_is_Some_2 es pos) as [e He]; [lia |].
      rewrite He. eauto.
  - rewrite decide_False by done. rewrite decide_False by (intros H; by apply H).
    eauto.
Qed.

Lemma unsafeSet_inv key value (l : DataLoader.t) : inv l → inv (unsafeSet key value l).
Proof. by apply (inv_frame l). Qed.

Lemma unsafeSet_evolves key value (l : DataLoader.t) : evolves l (unsafeSet key value l).
Proof. by apply evolves_frame. Qed.

Lemma Prime_inv key value forcePrime (l : DataLoader.t) :
  inv l →
  inv (DataLoader.Prime key value forcePrime l).2
  ∧ evolves l (DataLoader.Prime key value forcePrime l).2.
Proof.
  intros Hinv. rewrite Prime_result.
  destruct (_ || _); cbn [snd].
  - split; [by apply unsafeSet_inv | apply unsafeSet_evolves].
  - split; [done | apply evolves_refl].
Qed.

Lemma Clear_inv key (l : DataLoader.t) :
  inv l → inv (DataLoader.Clear key l) ∧ evolves l (DataLoader.Clear key l).
Proof. intros Hinv. split; [by apply (inv_frame l) | by apply evolves_frame]. Qed.

Lemma issued_valid b pos key (l : DataLoader.t) :
  issued (Waiting b pos key) l = true →
  ∃ bt, heap l !! b = Some bt ∧ keys bt !! pos = Some key.
Proof.
  cbn [issued]. intros H. apply bool_decide_eq_true in H. unfold deref in H.
  destruct (heap l !! b) as [bt |] eqn:Hb.
  - rewrite (list_lookup_total_correct _ _ _ Hb) in H. eauto.
  - rewrite list_lookup_total_alt, Hb in H. cbn in H. by rewrite lookup_nil in H.
Qed.

(** A thunk that was handed out stays so: batches only gain keys. *)
Lemma issued_evolves thunk (l l' : DataLoader.t) :
  evolves l l' → issued thunk l = true → issued thunk l' = true.
Proof.
  intros He Hi. destruct thunk as [it | b pos key]; [done |].
  destruct (issued_valid _ _ _ _ Hi) as (bt & Hbt & Hk).
  destruct (ev_heap l l' He b bt Hbt) as (bt' & Hbt' & Hp & _).
  cbn [issued]. apply bool_decide_eq_true. rewrite (deref_lookup b bt') by done.
  by eapply prefix_lookup_Some.
Qed.

(** Calling a thunk that was handed out keeps the invariant. *)
Lemma call_inv thunk (l : DataLoader.t) v e l' :
  inv l → issued thunk l = true → call thunk l = Ret (v, e, l') →
  inv l' ∧ evolves l l'.
Proof.
  intros Hinv Hi Hcall. destruct thunk as [it | b pos key].
  { cbn in Hcall. injection Hcall as <- <- <-. split; [done | apply evolves_refl]. }
  destruct (issued_valid _ _ _ _ Hi) as (bt & Hbt & Hk).
  destruct (await_inv b l Hinv) as (l1 & Ha & Hi1 & He1 & Hc1 & Hd1);
    [by apply lookup_lt_Some in Hbt |].
  rewrite call_Waiting, Ha in Hcall. cbn [mbind Outcome_bind] in Hcall.
  destruct (error_at (deref b l1) pos) as [err | |]; [| done | done].
  cbn [mbind Outcome_bind] in Hcall. injection Hcall as <- <- <-.
  case_decide; [| split; assumption].
  split; [by apply unsafeSet_inv |].
  eapply evolves_trans; [done | apply unsafeSet_evolves].
Qed.

(** Every action keeps the invariant. *)
Lemma step_inv e (l l' : DataLoader.t) :
  inv l → step e l = Ret l' → inv l' ∧ evolves l l'.
Proof.
  intros Hinv Hs. destruct e as [key | thunk | key value forcePrime | key | g];
    cbn [step] in Hs.
  - injection Hs as <-. destruct (LoadThunk_inv key l Hinv) as (? & ? & _). done.
  - destruct (issued thunk l) eqn:Hi.
    + destruct (call thunk l) as [[[v err] l1] | |] eqn:Hc; [| done | done].
      cbn in Hs. injection Hs as <-. by eapply call_inv.
    + injection Hs as <-. split; [done | apply evolves_refl].
  - injection Hs as <-. by apply Prime_inv.
  - injection Hs as <-. by apply Clear_inv.
  - destruct (sched_inv g l Hinv) as (l1 & E & ? & ? & _).
    rewrite E in Hs. injection Hs as <-. done.
Qed.

Lemma exec_inv es (l l' : DataLoader.t) :
  inv l → exec es l = Ret l' → inv l' ∧ evolves l l'.
Proof.
  revert l. induction es as [| e es IH]; intros l Hinv Hx; cbn [exec] in Hx.
  - injection Hx as <-. split; [done | apply evolves_refl].
  - destruct (step e l) as [l1 | |] eqn:Hs; [| done | done].
    cbn [mbind Outcome_bind] in Hx.
    destruct (step_inv e l l1 Hinv Hs) as [Hi1 He1].
    destruct (IH l1 Hi1 Hx) as [Hi' He']. split; [done |].
    by eapply evolves_trans.
Qed.

Lemma NewDataLoader_inv maxBatch wait fetch : inv (NewDataLoader maxBatch wait fetch).
Proof.
  split; cbn; intros *; try (rewrite lookup_nil; done).
  - intros H. by apply not_elem_of_nil in H.
  - intros H. by apply not_elem_of_nil in H.
  - done.
Qed.

(** The invariant holds in every state a loader reaches. *)
Lemma reachable_inv (l : DataLoader.t) : reachable l → inv l.
Proof.
  intros (maxBatch & wait & fetch & es & Hx).
  by destruct (exec_inv es _ l (NewDataLoader_inv maxBatch wait fetch) Hx).
Qed.

Lemma reachable_exec es (l l' : DataLoader.t) :
  reachable l → exec es l = Ret l' → reachable l'.
Proof.
  intros (maxBatch & wait & fetch & es0 & Hx) Hx'.
  exists maxBatch, wait, fetch, (es0 ++ es).
  revert Hx. generalize (NewDataLoader maxBatch wait fetch). 
  induction es0 as [| e es0 IH]; intros l0 Hx; cbn [exec app] in *.
  - by injection Hx as ->.
  - destruct (step e l0) as [l1 | |]; [| done | done]. cbn [mbind Outcome_bind] in *.
    by apply IH.
Qed.

Lemma sched_keys g (l l' : DataLoader.t) b :
  inv l → sched g l = Ret l' → keys (deref b l') = keys (deref b l).
Proof.
  intros Hinv Hs.
  destruct (sched_cases g l Hinv)
    as [[_ E] | [(b1 & gs & -> & Ht & E)
                | (b1 & gs & bt & vs & es & -> & Ht & Hbt & Hd & Hf & E)]];
    rewrite E in Hs; injection Hs as <-.
  - done.
  - unfold startTimer. by destruct (closing (deref b1 (set_spawned gs l))).
  - unfold deref, store. cbn [heap set_heap set_fetched set_spawned].
    destruct (decide (b = b1)) as [-> |].
    + rewrite (list_lookup_total_correct _ _ _ Hbt).
      rewrite (list_lookup_total_correct _ b1 (mkBatch (keys bt) vs es (closing bt) true));
        [done |].
      apply list_lookup_insert_eq. by apply lookup_lt_Some in Hbt.
    + by rewrite list_lookup_total_insert_ne.
Qed.

(** Waiting on a batch comes to letting its goroutines run. *)
Lemma await_exec b (l l' : DataLoader.t) :
  await b l = Ret l' →
  ∃ es, exec es l = Ret l'
        ∧ (es = [] ∨ es = [DoSched (GoStartTimer b); DoSched (GoEnd b)]).
Proof.
  unfold await. destruct (done (deref b l)).
  - intros [= <-]. exists []. split; [done | by left].
  - intros H. exists [DoSched (GoStartTimer b); DoSched (GoEnd b)].
    split; [| by right]. cbn [exec step].
    destruct (sched (GoStartTimer b) l) as [l1 | |]; [| done | done].
    cbn [mbind Outcome_bind] in *.
    destruct (sched (GoEnd b) l1) as [l2 | |]; [| done | done].
    cbn [mbind Outcome_bind] in *.
    by destruct (done (deref b l2)).
Qed.

Lemma await_keys b b' (l l' : DataLoader.t) :
  inv l → await b l = Ret l' → keys (deref b' l') = keys (deref b' l).
Proof.
  intros Hinv. unfold await. destruct (done (deref b l)); [by intros [= <-] |].
  destruct (sched_inv (GoStartTimer b) l Hinv) as (l1 & E1 & Hi1 & _).
  rewrite E1. cbn [mbind Outcome_bind].
  destruct (sched_inv (GoEnd b) l1 Hi1) as (l2 & E2 & Hi2 & _).
  rewrite E2. cbn [mbind Outcome_bind].
  destruct (done (deref b l2)); [| done]. intros [= <-].
  rewrite (sched_keys _ _ _ _ Hi1 E2). by rewrite (sched_keys _ _ _ _ Hinv E1).
Qed.

(** [LoadThunk] leaves every batch but the current one alone. *)
Lemma LoadThunk_detached key b bt (l : DataLoader.t) :
  inv l → heap l !! b = Some bt → batch l ≠ Some b →
  heap (LoadThunk key l).2 !! b = Some bt
  ∧ timers b (LoadThunk key l).2 = timers b l
  ∧ ends b (LoadThunk key l).2 = ends b l.
Proof.
  intros Hinv Hbt Hcur. destruct (cache_get key l) as [it |] eqn:Hc.
  { unfold LoadThunk. by rewrite Hc. }
  destruct (batch l) as [b0 |] eqn:Hcur0.
  - assert (b0 ≠ b) as Hne by congruence.
    assert (∃ bt0, heap l !! b0 = Some bt0) as [bt0 Hbt0].
    { apply lookup_lt_is_Some_2. by apply (inv_cur l Hinv). }
    unfold LoadThunk. rewrite Hc, Hcur0.
    rewrite (keyIndex_current b0 bt0 key l Hinv Hbt0 Hcur0).
    destruct (scan key (keys bt0) 0); [done |]. cbn [snd].
    destruct (capped l (length (keys bt0))); counts;
      rewrite ?decide_False by congruence;
      rewrite list_lookup_insert_ne by done; split; [done | lia | done | done].
  - rewrite (LoadThunk_fresh key l Hc Hcur0). cbn [snd].
    assert (b ≠ length (heap l)) as Hne.
    { apply lookup_lt_Some in Hbt. lia. }
    destruct (capped l 0); counts; rewrite ?decide_False by congruence;
      (split; [by apply lookup_app_l_Some | lia]).
Qed.

(** C3. In every state a loader reaches, whatever the order in which
    callers, timers and finalizers took their turns, every batch holds a
    key and has exactly one finalization made or still to come: the calls
    of fetch made for it, its spawned [end] goroutines and its timer (if
    the batch is not closing) add up to one. So fetch is called at most
    once for a batch, on the batch's key list. A timer that finds the
    batch closing does nothing, and [LoadThunk] does not touch a batch the
    timer has detached, so the path that loses does not finalize. Whoever
    waits for the batch is woken, with exactly one call of fetch made for
    it and the batch holding the result of that call. *)
Theorem fetch_once_per_batch (l : DataLoader.t) b bt :
  reachable l → heap l !! b = Some bt →
  keys bt ≠ []
  ∧ (calls b l + ends b l + (if closing bt then 0 else timers b l) = 1)%nat
  ∧ (calls b l ≤ 1)%nat
  ∧ (∀ c, c ∈ fetched l → fc_batch c = b → fc_keys c = keys bt)
  ∧ (closing bt = true →
     ∀ gs, startTimer b (set_spawned gs l) = set_spawned gs l)
  ∧ (batch l ≠ Some b →
     ∀ key, heap (LoadThunk key l).2 !! b = Some bt
            ∧ timers b (LoadThunk key l).2 = timers b l
            ∧ ends b (LoadThunk key l).2 = ends b l)
  ∧ ∃ l' bt',
      await b l = Ret l'
      ∧ reachable l'
      ∧ calls b l' = 1%nat
      ∧ heap l' !! b = Some bt'
      ∧ keys bt' = keys bt
      ∧ done bt' = true
      ∧ ∃ n, fetch l n (keys bt) = (data bt', error bt').
Proof.
  intros Hreach Hbt. pose proof (reachable_inv l Hreach) as Hinv.
  pose proof (inv_batch l Hinv b bt Hbt) as [B1 B2 B3 B4 B5 B6 B7 B8].
  split; [done |]. split; [done |]. split; [lia |].
  split; [intros c Hc Hb; by destruct (B7 c Hc Hb) |].
  split.
  { intros Hcl gs. unfold startTimer.
    change (deref b (set_spawned gs l)) with (deref b l).
    by rewrite (deref_lookup b bt), Hcl. }
  split; [intros Hcur key; by apply LoadThunk_detached |].
  destruct (await_inv b l Hinv) as (l' & Ha & Hi' & He' & _ & Hd');
    [by apply lookup_lt_Some in Hbt |].
  destruct (ev_heap l l' He' b bt Hbt) as (bt' & Hbt' & _ & _).
  rewrite (deref_lookup b bt') in Hd' by done.
  exists l', bt'. split; [done |].
  split.
  { destruct (await_exec b l l' Ha) as (es & Hx & _). by eapply reachable_exec. }
  pose proof (inv_batch l' Hi' b bt' Hbt') as [C1 C2 C3 C4 C5 C6 C7 C8].
  split; [by apply C5 |]. split; [done |].
  assert (keys bt' = keys bt) as Hk.
  { pose proof (await_keys b b l l' Hinv Ha) as Hk.
    by rewrite (deref_lookup b bt'), (deref_lookup b bt) in Hk. }
  split; [done |]. split; [done |].
  destruct (C8 Hd') as [n Hn]. exists n.
  by rewrite <- (ev_fetch l l' He'), <- Hk.
Qed.

Lemma fetch_once_per_batch_witness :
  let l := (LoadThunk (AInt 1) (NewDataLoader 2 10 (λ _ ks, (ks, None)))).2 in
  reachable l
  ∧ ∃ bt, heap l !! 0%nat = Some bt
          ∧ (calls 0 l + ends 0 l + (if closing bt then 0 else timers 0 l) = 1)%nat.
Proof.
  intros l.
  assert (reachable l) as Hreach.
  { exists 2, 10, (λ _ ks, (ks, None)), [DoLoadThunk (AInt 1)]. reflexivity. }
  split; [exact Hreach |].
  exists (mkBatch [AInt 1] [] None false false).
  assert (heap l !! 0%nat = Some (mkBatch [AInt 1] [] None false false)) as Hbt
    by reflexivity.
  split; [exact Hbt |].
  destruct (fetch_once_per_batch l 0%nat _ Hreach Hbt) as (_ & H & _).
  exact H.
Defined.

(** ** Keys of a batch and the resolution of thunks *)

Lemma scan_None key ks i : key ∉ ks → scan key ks i = None.
Proof.
  intros H. pose proof (scan_spec key ks i) as Hs.
  destruct (scan key ks i) as [j |]; [| done].
  destruct Hs as [_ Hs]. exfalso. apply H. by eapply list_elem_of_lookup_2.
Qed.

Lemma scan_Some key ks :
  key ∈ ks → ∃ i, scan key ks 0 = Some i ∧ ks !! i = Some key.
Proof.
  intros H. pose proof (scan_spec key ks 0) as Hs.
  destruct (scan key ks 0) as [j |]; [| done].
  destruct Hs as [_ Hs]. rewrite Nat.sub_0_r in Hs. eauto.
Qed.

(** [keyIndex] on any batch: a key that is there is found, without a
    change; a key that is not there goes to the end. *)
Lemma keyIndex_present b bt key (l : DataLoader.t) :
  heap l !! b = Some bt → key ∈ keys bt →
  ∃ i, keyIndex b key l = (i, l) ∧ keys bt !! i = Some key.
Proof.
  intros Hbt Hk. destruct (scan_Some key (keys bt) Hk) as (i & Hs & Hi).
  exists i. split; [| done]. unfold keyIndex.
  by rewrite (deref_lookup b bt), Hs.
Qed.

Lemma keyIndex_absent b bt key (l : DataLoader.t) :
  heap l !! b = Some bt → key ∉ keys bt →
  (keyIndex b key l).1 = length (keys bt)
  ∧ keys (deref b (keyIndex b key l).2) = keys bt ++ [key].
Proof.
  intros Hbt Hk. unfold keyIndex.
  rewrite (deref_lookup b bt), (scan_None key (keys bt) 0) by done.
  cbn [fst snd]. split; [done |].
  assert (b < length (heap l))%nat as Hlt by (by apply lookup_lt_Some in Hbt).
  set (bt1 := mkBatch (keys bt ++ [key]) (data bt) (error bt) (closing bt) (done bt)).
  assert (∀ l0, heap l0 = <[b:=bt1]> (heap l) → deref b l0 = bt1) as Hd.
  { intros l0 H0. unfold deref. rewrite H0.
    apply list_lookup_total_correct. by apply list_lookup_insert_eq. }
  assert (∀ l0 bt2, heap l0 = <[b:=bt1]> (heap l) →
            keys bt2 = keys bt ++ [key] →
            keys (deref b (go (GoEnd b) (set_batch None (store b bt2 l0))))
            = keys bt ++ [key]) as Hd2.
  { intros l0 bt2 H0 H2. unfold deref, go, store.
    cbn [heap set_heap set_batch set_spawned]. rewrite H0.
    rewrite (list_lookup_total_correct _ b bt2); [done |].
    apply list_lookup_insert_eq. by rewrite length_insert. }
  pose proof (Hd (go (GoStartTimer b) (store b bt1 l)) eq_refl) as E1.
  pose proof (Hd (store b bt1 l) eq_refl) as E2.
  repeat case_decide; repeat (destruct (_ && _)); rewrite ?E1, ?E2;
    repeat (destruct (negb _)); rewrite ?E1, ?E2, ?Hd2 by done; done.
Qed.

Lemma resolves_fun thunk (l : DataLoader.t) v e v2 e2 :
  resolves thunk l v e → resolves thunk l v2 e2 → v = v2 ∧ e = e2.
Proof.
  destruct thunk as [it | b pos key]; cbn [resolves].
  - intros [-> ->] [-> ->]. done.
  - intros (bt & Hbt & _ & -> & He) (bt2 & Hbt2 & _ & -> & He2).
    assert (bt2 = bt) as -> by congruence. split; congruence.
Qed.

Lemma resolves_evolves thunk (l l' : DataLoader.t) v e :
  evolves l l' → resolves thunk l v e → resolves thunk l' v e.
Proof.
  intros He. destruct thunk as [it | b pos key]; cbn [resolves]; [done |].
  intros (bt & Hbt & Hd & Hv & Herr).
  destruct (ev_heap l l' He b bt Hbt) as (bt' & Hbt' & _ & Hsame).
  rewrite (Hsame Hd) in Hbt'. eauto.
Qed.


Lemma call_resolves thunk (l : DataLoader.t) v e l' :
  inv l → issued thunk l = true → call thunk l = Ret (v, e, l') →
  resolves thunk l' v e.
Proof.
  intros Hinv Hi Hcall. destruct thunk as [it | b pos key].
  { cbn in Hcall. by injection Hcall as <- <- <-. }
  destruct (issued_valid _ _ _ _ Hi) as (bt & Hbt & Hk).
  destruct (await_inv b l Hinv) as (l1 & Ha & Hi1 & He1 & Hc1 & Hd1);
    [by apply lookup_lt_Some in Hbt |].
  rewrite call_Waiting, Ha in Hcall. cbn [mbind Outcome_bind] in Hcall.
  destruct (ev_heap l l1 He1 b bt Hbt) as (bt1 & Hbt1 & _ & _).
  rewrite (deref_lookup b bt1) in Hcall, Hd1 by done.
  destruct (error_at bt1 pos) as [err | |] eqn:Herr; [| done | done].
  cbn [mbind Outcome_bind] in Hcall. injection Hcall as <- <- <-.
  exists bt1. split; [by case_decide |]. done.
Qed.

(** C5. In every state a loader reaches, the keys of a batch are pairwise
    different. [keyIndex] returns the index of a key the batch has and
    changes nothing; it puts a key the batch does not have at the end.
    So [LoadThunk] of a key that the current batch has returns the thunk
    of that key once more; two thunks of one batch for the same key have
    the same position, and whenever they are called they yield the same
    value and the same error. The key lists that fetch received have no
    duplicates. *)
Theorem batch_keys_are_unique (l : DataLoader.t) b bt :
  reachable l → heap l !! b = Some bt →
  NoDup (keys bt)
  ∧ (∀ key, key ∈ keys bt →
       ∃ i, keyIndex b key l = (i, l) ∧ keys bt !! i = Some key)
  ∧ (∀ key, key ∉ keys bt →
       (keyIndex b key l).1 = length (keys bt)
       ∧ keys (deref b (keyIndex b key l).2) = keys bt ++ [key])
  ∧ (∀ key p,
       issued (Waiting b p key) l = true →
       batch l = Some b → cache_get key l = None →
       LoadThunk key l = (Waiting b p key, l))
  ∧ (∀ key p1 p2,
       issued (Waiting b p1 key) l = true →
       issued (Waiting b p2 key) l = true →
       p1 = p2
       ∧ ∀ es1 es2 l1 l1' l2 l2' v1 e1 v2 e2,
           exec es1 l = Ret l1 →
           call (Waiting b p1 key) l1 = Ret (v1, e1, l1') →
           exec es2 l1' = Ret l2 →
           call (Waiting b p2 key) l2 = Ret (v2, e2, l2') →
           v1 = v2 ∧ e1 = e2)
  ∧ (∀ c, c ∈ fetched l → NoDup (fc_keys c)).
Proof.
  intros Hreach Hbt. pose proof (reachable_inv l Hreach) as Hinv.
  pose proof (inv_batch l Hinv b bt Hbt) as [B1 B2 B3 B4 B5 B6 B7 B8].
  split; [done |].
  split; [intros key; by apply keyIndex_present |].
  split; [intros key; by apply keyIndex_absent |].
  split.
  { intros key p Hi Hcur Hmiss.
    destruct (issued_valid _ _ _ _ Hi) as (bt1 & Hbt1 & Hk1).
    assert (bt1 = bt) as -> by congruence.
    destruct (keyIndex_present b bt key l Hbt) as (i & Hki & Hi');
      [by eapply list_elem_of_lookup_2 |].
    assert (i = p) as -> by (by eapply NoDup_lookup).
    unfold LoadThunk. by rewrite Hmiss, Hcur, Hki. }
  split.
  - intros key p1 p2 Hi1 Hi2.
    destruct (issued_valid _ _ _ _ Hi1) as (bt1 & Hbt1 & Hk1).
    destruct (issued_valid _ _ _ _ Hi2) as (bt2 & Hbt2 & Hk2).
    assert (bt1 = bt) as -> by congruence. assert (bt2 = bt) as -> by congruence.
    assert (p1 = p2) as <- by (by eapply NoDup_lookup).
    split; [done |].
    intros es1 es2 l1 l1' l2 l2' v1 e1 v2 e2 Hx1 Hc1 Hx2 Hc2.
    destruct (exec_inv es1 l l1 Hinv Hx1) as [Hinv1 Hev1].
    pose proof (issued_evolves _ _ _ Hev1 Hi1) as Hiss1.
    destruct (call_inv _ _ _ _ _ Hinv1 Hiss1 Hc1) as [Hinv1' Hev1'].
    pose proof (call_resolves _ _ _ _ _ Hinv1 Hiss1 Hc1) as Hr1.
    destruct (exec_inv es2 l1' l2 Hinv1' Hx2) as [Hinv2 Hev2].
    pose proof (issued_evolves _ _ _ Hev2 (issued_evolves _ _ _ Hev1' Hiss1))
      as Hiss2.
    destruct (call_inv _ _ _ _ _ Hinv2 Hiss2 Hc2) as [Hinv2' Hev2'].
    pose proof (call_resolves _ _ _ _ _ Hinv2 Hiss2 Hc2) as Hr2.
    eapply resolves_fun; [| exact Hr2].
    eapply resolves_evolves; [exact Hev2' |].
    eapply resolves_evolves; [exact Hev2 | exact Hr1].
  - intros c Hc.
    assert (∃ btc, heap l !! fc_batch c = Some btc) as [btc Hbtc].
    { apply lookup_lt_is_Some_2. by apply (inv_fetched l Hinv). }
    pose proof (inv_batch l Hinv _ btc Hbtc) as [C1 C2 C3 C4 C5 C6 C7 C8].
    destruct (C7 c Hc eq_refl) as (-> & _). done.
Qed.

Lemma batch_keys_are_unique_witness :
  let l := (LoadThunk (AInt 1) (NewDataLoader 2 10 (λ _ ks, (ks, None)))).2 in
  reachable l
  ∧ ∃ bt, heap l !! 0%nat = Some bt ∧ NoDup (keys bt).
Proof.
  intros l.
  assert (reachable l) as Hreach.
  { exists 2, 10, (λ _ ks, (ks, None)), [DoLoadThunk (AInt 1)]. reflexivity. }
  split; [exact Hreach |].
  exists (mkBatch [AInt 1] [] None false false).
  assert (heap l !! 0%nat = Some (mkBatch [AInt 1] [] None false false)) as Hbt
    by reflexivity.
  split; [exact Hbt |].
  destruct (batch_keys_are_unique l 0%nat _ Hreach Hbt) as (H & _).
  exact H.
Defined.

(** ** Thunks and the cache *)

Lemma sched_cache g (l l' : DataLoader.t) : sched g l = Ret l' → cache l' = cache l.
Proof.
  unfold sched. destruct (take g (spawned l)) as [gs |]; [| by intros [= <-]].
  destruct g as [b | b]; cbn [run].
  - intros [= <-]. unfold startTimer.
    by destruct (closing (deref b (set_spawned gs l))).
  - unfold batch_end.
    destruct (fetch _ _ _) as [vs es]. destruct (done _); [done |].
    by intros [= <-].
Qed.

Lemma await_cache b (l l' : DataLoader.t) : await b l = Ret l' → cache l' = cache l.
Proof.
  unfold await. destruct (done (deref b l)); [by intros [= <-] |].
  destruct (sched (GoStartTimer b) l) as [l1 | |] eqn:E1; [| done | done].
  cbn [mbind Outcome_bind].
  destruct (sched (GoEnd b) l1) as [l2 | |] eqn:E2; [| done | done].
  cbn [mbind Outcome_bind].
  destruct (done (deref b l2)); [| done]. intros [= <-].
  by rewrite (sched_cache _ _ _ E2), (sched_cache _ _ _ E1).
Qed.

(** C4 (as amended). When the thunk of a batch returns with a nil error,
    it has written its key with the value it returns into the cache; when
    it returns with an error, it has left the cache as it was, so that a
    key that was not cached is still not cached and the next [LoadThunk]
    of it goes to a batch again. Nothing is said of what other thunks or
    [Prime] wrote. *)
Theorem thunk_caches_on_success_only b pos key (l : DataLoader.t) v e l' :
  call (Waiting b pos key) l = Ret (v, e, l') →
  (e = None →
   cache l' = Some (<[key := v]> (default ∅ (cache l)))
   ∧ cache_get key l' = Some v)
  ∧ (e ≠ None →
     cache l' = cache l
     ∧ (cache_get key l = None →
        ∃ b' pos', (LoadThunk key l').1 = Waiting b' pos' key)).
Proof.
  rewrite call_Waiting. intros Hcall.
  destruct (await b l) as [l1 | |] eqn:Ha; [| done | done].
  cbn [mbind Outcome_bind] in Hcall.
  destruct (error_at (deref b l1) pos) as [err | |]; [| done | done].
  cbn [mbind Outcome_bind] in Hcall. injection Hcall as <- <- <-.
  pose proof (await_cache b l l1 Ha) as Hc.
  case_decide as Herr.
  - split; [| done]. intros _. split.
    + unfold unsafeSet. cbn [cache set_cache]. rewrite Hc. by destruct (cache l).
    + rewrite cache_get_unsafeSet. by rewrite decide_True.
  - split; [done |]. intros _. split; [done |]. intros Hmiss.
    unfold LoadThunk. unfold cache_get in *. rewrite Hc, Hmiss.
    destruct (batch l1) as [b1 |];
      [destruct (keyIndex b1 key l1) | destruct (keyIndex _ key _)]; eauto.
Qed.

Lemma thunk_caches_on_success_only_witness :
  let l := (LoadThunk (AInt 1) (NewDataLoader 1 0 (λ _ ks, (ks, None)))).2 in
  ∃ l', call (Waiting 0 0 (AInt 1)) l = Ret (AInt 1, None, l')
        ∧ cache_get (AInt 1) l' = Some (AInt 1).
Proof.
  intros l. eexists. 
  assert (call (Waiting 0 0 (AInt 1)) l = Ret (AInt 1, None, _)) as Hcall
    by reflexivity.
  split; [exact Hcall |].
  destruct (thunk_caches_on_success_only _ _ _ _ _ _ _ Hcall) as [H _].
  destruct (H eq_refl) as [_ H2]. exact H2.
Defined.

(** C4 (counterexample to the claim as stated). A loader with batches of
    one key and a backend that answers once and fails afterwards; the
    same key is loaded twice before either thunk is called, so it sits in
    two batches. The second batch's fetch fails; its thunk returns the
    error and leaves the cache alone. The first batch's thunk, called
    later, caches its value: the cache then holds the key although the
    most recent fetch for it reported an error. *)
Lemma cache_holds_key_after_failed_fetch :
  ∃ l, exec two_loads_of_one_key (NewDataLoader 1 0 flaky) = Ret l
       ∧ reachable l
       ∧ last_fetch_failed (AInt 7) l
       ∧ cache_get (AInt 7) l = Some (AStr "v").
Proof.
  eexists. split; [vm_compute; reflexivity |].
  split.
  { exists 1, 0, flaky, two_loads_of_one_key. vm_compute. reflexivity. }
  split.
  - eexists _, _. split; vm_compute; reflexivity.
  - vm_compute. reflexivity.
Qed.

(** ** [LoadAll] of the batching loader *)

Lemma batch_errors_fit (l : DataLoader.t) b bt :
  inv l → well_behaved (fetch l) → heap l !! b = Some bt → done bt = true →
  errors_fit (keys bt) (error bt).
Proof.
  intros Hinv Hwb Hbt Hd.
  destruct (bi_result l b bt (inv_batch l Hinv b bt Hbt) Hd) as [n Hn].
  specialize (Hwb n (keys bt)). by rewrite Hn in Hwb.
Qed.

(** With a fetcher that keeps to its contract, calling a thunk the loader
    handed out returns. *)
Lemma call_total thunk (l : DataLoader.t) :
  inv l → well_behaved (fetch l) → issued thunk l = true →
  ∃ v e l', call thunk l = Ret (v, e, l').
Proof.
  intros Hinv Hwb Hi. destruct thunk as [it | b pos key].
  { cbn. by eexists _, _, _. }
  destruct (issued_valid _ _ _ _ Hi) as (bt & Hbt & Hk).
  destruct (await_inv b l Hinv) as (l1 & Ha & Hi1 & He1 & Hc1 & Hd1);
    [by apply lookup_lt_Some in Hbt |].
  destruct (ev_heap l l1 He1 b bt Hbt) as (bt1 & Hbt1 & Hp & _).
  rewrite (deref_lookup b bt1) in Hd1 by done.
  destruct (error_at_fit bt1 pos) as [e He].
  { apply (batch_errors_fit l1 b); try done. by rewrite (ev_fetch l l1 He1). }
  { apply (prefix_lookup_Some _ _ _ _ Hk) in Hp. by apply lookup_lt_Some in Hp. }
  rewrite call_Waiting, Ha. cbn [mbind Outcome_bind].
  rewrite (deref_lookup b bt1), He by done. cbn [mbind Outcome_bind].
  by eexists _, _, _.
Qed.

Lemma step_total e (l : DataLoader.t) :
  inv l → well_behaved (fetch l) → ∃ l', step e l = Ret l'.
Proof.
  intros Hinv Hwb. destruct e as [key | thunk | key value forcePrime | key | g];
    cbn [step]; try by eexists.
  - destruct (issued thunk l) eqn:Hi; [| by eexists].
    destruct (call_total thunk l Hinv Hwb Hi) as (v & e & l' & ->).
    cbn. by eexists.
  - destruct (sched_inv g l Hinv) as (l' & -> & _). by eexists.
Qed.

Lemma exec_total es (l : DataLoader.t) :
  inv l → well_behaved (fetch l) → ∃ l', exec es l = Ret l'.
Proof.
  revert l. induction es as [| e es IH]; intros l Hinv Hwb; cbn [exec].
  - by eexists.
  - destruct (step_total e l Hinv Hwb) as [l1 Hs]. rewrite Hs.
    cbn [mbind Outcome_bind].
    destruct (step_inv e l l1 Hinv Hs) as [Hi1 He1].
    apply IH; [done |]. by rewrite (ev_fetch l l1 He1).
Qed.

Lemma reachable_LoadThunk key (l : DataLoader.t) :
  reachable l → reachable (LoadThunk key l).2.
Proof. intros H. by apply (reachable_exec [DoLoadThunk key] l). Qed.

Lemma reachable_call thunk (l : DataLoader.t) v e l' :
  reachable l → issued thunk l = true → call thunk l = Ret (v, e, l') →
  reachable l'.
Proof.
  intros H Hi Hc. apply (reachable_exec [DoCall thunk] l); [done |].
  cbn [exec step]. by rewrite Hi, Hc.
Qed.

(** The first loop: the thunks of the keys go to their indices. *)
Lemma LoadAll_enqueue_spec env keys :
  ∀ i results (l : DataLoader.t),
    reachable l → well_behaved (fetch l) →
    (i + length keys ≤ length results)%nat →
    ∃ results' l',
      LoadAll_enqueue env i keys results l = Ret (results', l')
      ∧ reachable l' ∧ evolves l l'
      ∧ length results' = length results
      ∧ (∀ j, (j < i)%nat → results' !! j = results !! j)
      ∧ (∀ j key, keys !! j = Some key →
           ∃ thunk l0,
             results' !! (i + j)%nat = Some (Some thunk)
             ∧ reachable l0 ∧ evolves l l0 ∧ evolves l0 l'
             ∧ (LoadThunk key l0).1 = thunk
             ∧ issued thunk l' = true).
Proof.
  induction keys as [| key keys IH]; intros i results l Hr Hwb Hlen;
    cbn [LoadAll_enqueue].
  - exists results, l. split; [done |]. split; [done |].
    split; [apply evolves_refl |]. split; [done |]. split; [done |].
    intros j key Hj. by rewrite lookup_nil in Hj.
  - cbn [length] in Hlen.
    pose proof (reachable_inv l Hr) as Hinv.
    destruct (exec_total (env i) l Hinv Hwb) as [l1 Hx]. rewrite Hx.
    cbn [mbind Outcome_bind].
    destruct (exec_inv _ _ _ Hinv Hx) as [Hinv1 Hev1].
    pose proof (reachable_exec _ _ _ Hr Hx) as Hr1.
    destruct (LoadThunk_inv key l1 Hinv1) as (Hinv2 & Hev2 & _ & Hiss).
    pose proof (reachable_LoadThunk key l1 Hr1) as Hr2.
    destruct (LoadThunk key l1) as [thunk l2] eqn:HLT. cbn [fst snd] in *.
    destruct (IH (S i) (<[i:=Some thunk]> results) l2) as
      (results' & l' & HE & Hr' & Hev' & Hlen' & Hlow & Hkeys).
    { done. }
    { by rewrite (ev_fetch _ _ Hev2), (ev_fetch _ _ Hev1). }
    { rewrite length_insert. lia. }
    exists results', l'. split; [done |]. split; [done |].
    split; [eapply evolves_trans; [done |]; by eapply evolves_trans |].
    split; [by rewrite Hlen', length_insert |].
    split.
    { intros j Hj. rewrite Hlow by lia. apply list_lookup_insert_ne. lia. }
    intros j k Hj. destruct j as [| j]; cbn in Hj.
    + injection Hj as <-. exists thunk, l1. rewrite Nat.add_0_r.
      split. { rewrite Hlow by lia. apply list_lookup_insert_eq. lia. }
      split; [done |]. split; [done |].
      split; [by eapply evolves_trans |]. split; [by rewrite HLT |].
      by eapply issued_evolves.
    + destruct (Hkeys j k Hj) as (th & l0 & H1 & H2 & H3 & H4 & H5 & H6).
      exists th, l0. replace (i + S j)%nat with (S i + j)%nat by lia.
      split; [done |]. split; [done |].
      split; [| done].
      eapply evolves_trans; [done |]. by eapply evolves_trans.
Qed.

(** The second loop: the results of the thunks go to their indices. *)
Lemma LoadAll_resolve_spec env n results :
  ∀ i values errors (l : DataLoader.t),
    reachable l → well_behaved (fetch l) →
    (∀ f, f ∈ results → ∃ thunk, f = Some thunk ∧ issued thunk l = true) →
    (i + length results ≤ length values)%nat →
    (i + length results ≤ length errors)%nat →
    ∃ values' errors' l',
      LoadAll_resolve env n i results values errors l = Ret (values', errors', l')
      ∧ reachable l' ∧ evolves l l'
      ∧ length values' = length values ∧ length errors' = length errors
      ∧ (∀ j, (j < i)%nat →
           values' !! j = values !! j ∧ errors' !! j = errors !! j)
      ∧ (∀ j thunk, results !! j = Some (Some thunk) →
           ∃ v e, values' !! (i + j)%nat = Some v
                  ∧ errors' !! (i + j)%nat = Some e
                  ∧ resolves thunk l' v e).
Proof.
  induction results as [| f results IH]; intros i values errors l Hr Hwb Hiss Hlv Hle;
    cbn [LoadAll_resolve].
  - exists values, errors, l. split; [done |]. split; [done |].
    split; [apply evolves_refl |]. split; [done |]. split; [done |].
    split; [done |]. intros j thunk Hj. by rewrite lookup_nil in Hj.
  - cbn [length] in Hlv, Hle.
    destruct (Hiss f) as (thunk & -> & Hi); [by left |].
    pose proof (reachable_inv l Hr) as Hinv.
    destruct (exec_total (env (n + i)%nat) l Hinv Hwb) as [l1 Hx]. rewrite Hx.
    cbn [mbind Outcome_bind].
    destruct (exec_inv _ _ _ Hinv Hx) as [Hinv1 Hev1].
    pose proof (reachable_exec _ _ _ Hr Hx) as Hr1.
    pose proof (issued_evolves _ _ _ Hev1 Hi) as Hi1.
    assert (well_behaved (fetch l1)) as Hwb1 by (by rewrite (ev_fetch _ _ Hev1)).
    destruct (call_total thunk l1 Hinv1 Hwb1 Hi1) as (v & e & l2 & Hc).
    cbn [call_func]. rewrite Hc. cbn [mbind Outcome_bind].
    destruct (call_inv _ _ _ _ _ Hinv1 Hi1 Hc) as [Hinv2 Hev2].
    pose proof (reachable_call _ _ _ _ _ Hr1 Hi1 Hc) as Hr2.
    pose proof (call_resolves _ _ _ _ _ Hinv1 Hi1 Hc) as Hres.
    destruct (IH (S i) (<[i:=v]> values) (<[i:=e]> errors) l2) as
      (values' & errors' & l' & HE & Hr' & Hev' & Hlv' & Hle' & Hlow & Hall).
    { done. }
    { by rewrite (ev_fetch _ _ Hev2). }
    { intros f Hf. destruct (Hiss f) as (th & -> & Hith); [by right |].
      exists th. split; [done |].
      eapply issued_evolves; [exact Hev2 |]. by eapply issued_evolves. }
    { rewrite length_insert. lia. }
    { rewrite length_insert. lia. }
    exists values', errors', l'. split; [done |]. split; [done |].
    split; [eapply evolves_trans; [done |]; by eapply evolves_trans |].
    split; [by rewrite Hlv', length_insert |].
    split; [by rewrite Hle', length_insert |].
    split.
    { intros j Hj. destruct (Hlow j) as [-> ->]; [lia |].
      split; apply list_lookup_insert_ne; lia. }
    intros j th Hj. destruct j as [| j]; cbn in Hj.
    + injection Hj as <-. exists v, e. rewrite Nat.add_0_r.
      destruct (Hlow i) as [-> ->]; [lia |].
      split; [apply list_lookup_insert_eq; lia |].
      split; [apply list_lookup_insert_eq; lia |].
      by eapply resolves_evolves.
    + destruct (Hall j th Hj) as (v' & e' & H1 & H2 & H3).
      exists v', e'. by replace (i + S j)%nat with (S i + j)%nat by lia.
Qed.

Lemma LoadThunk_thunk key (l : DataLoader.t) :
  match (LoadThunk key l).1 with
  | Cached it => cache_get key l = Some it
  | Waiting _ _ k => k = key
  end.
Proof.
  unfold LoadThunk. destruct (cache_get key l) as [it |]; [done |].
  destruct (batch l) as [b |];
    [destruct (keyIndex b key l) | destruct (keyIndex _ key _)]; done.
Qed.

(** [LoadAll] and its description in words. *)












(** ** Lazy initialization of loaders *)

Section AttrLoader.
Import AttrDataLoader.

Lemma attr_loader_known a o (l : AttrDataLoader.t) :
  loaders l !! a = Some o → loader a l = Ret (o, l).
Proof. intros H. unfold loader. by rewrite H. Qed.

Lemma attr_update_inv a dl (l : AttrDataLoader.t) :
  attr_inv l → is_Some (loaders l !! a) → attr_inv (update a dl l).
Proof.
  intros [H1 H2 H3] Ha. split; cbn.
  - intros a' Ha'. apply H1. destruct (decide (a = a')) as [<- |]; [done |].
    by rewrite lookup_insert_ne in Ha'.
  - done.
  - intros a' Ha'. destruct (decide (a = a')) as [<- |].
    + rewrite lookup_insert_eq. by eexists.
    + rewrite lookup_insert_ne by done. auto.
Qed.

(** [loader] either finds the stored loader and changes nothing, or runs
    the initializer of an attribute that has no loader yet. *)
Lemma attr_loader_inv a (l : AttrDataLoader.t) o l' :
  attr_inv l → loader a l = Ret (o, l') →
  attr_inv l'
  ∧ propagators l' = propagators l
  ∧ propagated l' = propagated l
  ∧ (o = None ∨ loaders l' !! a = Some o)
  ∧ (is_Some o → loaders l' !! a = Some o).
Proof.
  intros [H1 H2 H3] Hl. unfold loader in Hl.
  destruct (loaders l !! a) as [o0 |] eqn:Ha.
  { injection Hl as <- <-. split; [done |]. split; [done |]. split; [done |].
    split; [by right | done]. }
  destruct (initLoaders l !! a) as [[f |] |] eqn:Hi; [| done |].
  - injection Hl as <- <-. split; [| cbn; rewrite lookup_insert_eq; by auto].
    split; cbn.
    + intros a' Ha'. destruct (decide (a = a')) as [<- |].
      * by rewrite lookup_insert_eq.
      * rewrite lookup_insert_ne in Ha' by done.
        rewrite lookup_insert_ne by done. auto.
    + apply NoDup_app. split; [done |]. split; [| apply NoDup_singleton].
      intros a' Ha' Hs. apply list_elem_of_singleton in Hs as ->.
      apply H3 in Ha'. rewrite Ha in Ha'. by destruct Ha'.
    + intros a' Ha'. destruct (decide (a = a')) as [<- |].
      * rewrite lookup_insert_eq. by eexists.
      * rewrite lookup_insert_ne by done. apply H3.
        apply elem_of_app in Ha' as [? | Hs]; [done |].
        by apply list_elem_of_singleton in Hs.
  - injection Hl as <- <-. split; [done |]. split; [done |]. split; [done |].
    split; [by left |]. by intros [? ?].
Qed.

Lemma attr_prime_inv a key value forcePrime (l : AttrDataLoader.t) r l' :
  attr_inv l → prime a key value forcePrime l = Ret (r, l') →
  attr_inv l' ∧ propagators l' = propagators l ∧ propagated l' = propagated l.
Proof.
  intros Hinv Hp. unfold prime in Hp.
  destruct (loader a l) as [[o l1] | |] eqn:Hl; [| done | done].
  cbn [mbind Outcome_bind] in Hp.
  destruct (attr_loader_inv a l o l1 Hinv Hl) as (Hi1 & Hp1 & Hq1 & _ & Hs).
  destruct o as [dl |].
  - destruct (DataLoader.prime key value forcePrime dl) as [r' dl'].
    injection Hp as <- <-. split; [| done].
    apply attr_update_inv; [done |]. rewrite Hs; by eexists.
  - by injection Hp as <- <-.
Qed.

Lemma attr_Clear_inv a key (l l' : AttrDataLoader.t) :
  attr_inv l → Clear a key l = Ret l' →
  attr_inv l' ∧ propagators l' = propagators l ∧ propagated l' = propagated l.
Proof.
  intros Hinv Hp. unfold Clear in Hp.
  destruct (loader a l) as [[o l1] | |] eqn:Hl; [| done | done].
  cbn [mbind Outcome_bind] in Hp.
  destruct (attr_loader_inv a l o l1 Hinv Hl) as (Hi1 & Hp1 & Hq1 & _ & Hs).
  destruct o as [dl |].
  - injection Hp as <-. split; [| done].
    apply attr_update_inv; [done |]. rewrite Hs; by eexists.
  - by injection Hp as <-.
Qed.

Lemma attr_perform_inv act (l l' : AttrDataLoader.t) :
  attr_inv l → perform act l = Ret l' →
  attr_inv l' ∧ propagators l' = propagators l ∧ propagated l' = propagated l.
Proof.
  intros Hinv Hp. destruct act as [a key value | a key value | a key];
    cbn [perform] in Hp.
  - unfold Prime in Hp.
    destruct (prime a key value false l) as [[r l1] | |] eqn:E; [| done | done].
    cbn in Hp. injection Hp as <-. by eapply attr_prime_inv.
  - unfold ForcePrime in Hp.
    destruct (prime a key value true l) as [[r l1] | |] eqn:E; [| done | done].
    cbn in Hp. injection Hp as <-. by eapply attr_prime_inv.
  - by eapply attr_Clear_inv.
Qed.

Lemma attr_perform_all_inv acts :
  ∀ (l l' : AttrDataLoader.t),
    attr_inv l → perform_all acts l = Ret l' →
    attr_inv l' ∧ propagators l' = propagators l ∧ propagated l' = propagated l.
Proof.
  induction acts as [| act acts IH]; intros l l' Hinv Hp; cbn [perform_all] in Hp.
  - by injection Hp as <-.
  - destruct (perform act l) as [l1 | |] eqn:E; [| done | done].
    cbn [mbind Outcome_bind] in Hp.
    destruct (attr_perform_inv act l l1 Hinv E) as (Hi1 & Hp1 & Hq1).
    destruct (IH l1 l' Hi1 Hp) as (Hi' & Hp' & Hq'). split; [done |].
    split; congruence.
Qed.

(** [RunPropagator] calls the propagator of the attribute, if it has
    one, once, with the value it is given. *)
Lemma attr_RunPropagator_inv value a (l l' : AttrDataLoader.t) :
  attr_inv l → RunPropagator value a l = Ret l' →
  attr_inv l'
  ∧ propagators l' = propagators l
  ∧ propagated l'
    = propagated l ++ match propagators l !! a with
                      | Some _ => [(a, value)]
                      | None => []
                      end.
Proof.
  intros Hinv Hp. unfold RunPropagator in Hp.
  destruct (propagators l !! a) as [p |].
  - destruct (attr_perform_all_inv _ _ _
                (ltac:(by destruct Hinv) : attr_inv (set_propagated _ l)) Hp)
      as (Hi' & Hp' & Hq').
    done.
  - injection Hp as <-. by rewrite app_nil_r.
Qed.

End AttrLoader.

Section AttrCalls.
Import AttrDataLoader.

Lemma attr_LoadAll_range_inv vals a :
  ∀ (l l' : AttrDataLoader.t),
    attr_inv l → LoadAll_range vals a l = Ret l' →
    attr_inv l'
    ∧ propagators l' = propagators l
    ∧ propagated l'
      = propagated l ++ match propagators l !! a with
                        | Some _ => map (λ val, (a, AInt (Z.of_nat val))) vals
                        | None => []
                        end.
Proof.
  induction vals as [| val vals IH]; intros l l' Hinv Hr; cbn [LoadAll_range] in Hr.
  - injection Hr as <-. split; [done |]. split; [done |].
    destruct (propagators l !! a); by rewrite app_nil_r.
  - destruct (RunPropagator (AInt (Z.of_nat val)) a l) as [l1 | |] eqn:E;
      [| done | done].
    cbn [mbind Outcome_bind] in Hr.
    destruct (attr_RunPropagator_inv _ _ _ _ Hinv E) as (Hi1 & Hp1 & Hq1).
    destruct (IH l1 l' Hi1 Hr) as (Hi' & Hp' & Hq'). split; [done |].
    split; [congruence |]. rewrite Hq', Hq1, Hp1.
    destruct (propagators l !! a); cbn [map]; by rewrite <- app_assoc.
Qed.

Lemma attr_Load_inv env a key (l : AttrDataLoader.t) v e l' :
  attr_inv l → Load env a key l = Ret (v, e, l') → attr_inv l'.
Proof.
  intros Hinv HL. unfold Load in HL.
  destruct (loader a l) as [[o l1] | |] eqn:Hl; [| done | done].
  cbn [mbind Outcome_bind] in HL.
  destruct (attr_loader_inv a l o l1 Hinv Hl) as (Hi1 & _ & _ & _ & Hs).
  destruct o as [dl |]; [| by injection HL as <- <- <-].
  destruct (DataLoader.Load env key dl) as [[[v1 e1] dl1] | |]; [| done | done].
  cbn [mbind Outcome_bind] in HL.
  assert (attr_inv (update a dl1 l1)) as Hi2.
  { apply attr_update_inv; [done |]. rewrite Hs; by eexists. }
  case_decide.
  - destruct (RunPropagator v1 a (update a dl1 l1)) as [l2 | |] eqn:E;
      [| done | done].
    cbn [mbind Outcome_bind] in HL. injection HL as <- <- <-.
    by destruct (attr_RunPropagator_inv _ _ _ _ Hi2 E).
  - cbn [mbind Outcome_bind] in HL. by injection HL as <- <- <-.
Qed.

Lemma attr_LoadAll_inv env a keys (l : AttrDataLoader.t) vs es l' :
  attr_inv l → LoadAll env a keys l = Ret (vs, es, l') → attr_inv l'.
Proof.
  intros Hinv HL. unfold LoadAll in HL.
  destruct (loader a l) as [[o l1] | |] eqn:Hl; [| done | done].
  cbn [mbind Outcome_bind] in HL.
  destruct (attr_loader_inv a l o l1 Hinv Hl) as (Hi1 & _ & _ & _ & Hs).
  destruct o as [dl |]; [| by injection HL as <- <- <-].
  destruct (DataLoader.LoadAll env keys dl) as [[[v1 e1] dl1] | |]; [| done | done].
  cbn [mbind Outcome_bind] in HL.
  assert (attr_inv (update a dl1 l1)) as Hi2.
  { apply attr_update_inv; [done |]. rewrite Hs; by eexists. }
  destruct (LoadAll_range (seq 0 (length v1)) a (update a dl1 l1)) as [l2 | |] eqn:E;
    [| done | done].
  cbn [mbind Outcome_bind] in HL. injection HL as <- <- <-.
  by destruct (attr_LoadAll_range_inv _ _ _ _ Hi2 E).
Qed.

Lemma attr_step_inv c (l l' : AttrDataLoader.t) :
  attr_inv l → step c l = Ret l' → attr_inv l'.
Proof.
  intros Hinv Hs.
  destruct c as [env a key | env a keys | a key value | a key value | a key];
    cbn [step] in Hs.
  - destruct (Load env a key l) as [[[v e] l1] | |] eqn:E; [| done | done].
    cbn in Hs. injection Hs as <-. by eapply attr_Load_inv.
  - destruct (LoadAll env a keys l) as [[[v e] l1] | |] eqn:E; [| done | done].
    cbn in Hs. injection Hs as <-. by eapply attr_LoadAll_inv.
  - by destruct (attr_perform_inv (CallPrime a key value) l l' Hinv Hs).
  - by destruct (attr_perform_inv (CallForcePrime a key value) l l' Hinv Hs).
  - by destruct (attr_perform_inv (CallClear a key) l l' Hinv Hs).
Qed.

Lemma attr_exec_inv cs :
  ∀ (l l' : AttrDataLoader.t), attr_inv l → exec cs l = Ret l' → attr_inv l'.
Proof.
  induction cs as [| c cs IH]; intros l l' Hinv Hx; cbn [exec] in Hx.
  - by injection Hx as <-.
  - destruct (step c l) as [l1 | |] eqn:E; [| done | done].
    cbn [mbind Outcome_bind] in Hx.
    eapply IH; [| done]. by eapply attr_step_inv.
Qed.

Lemma NewAttrDataLoader_inv inits props : attr_inv (NewAttrDataLoader inits props).
Proof.
  split; cbn.
  - intros a [? H]. by rewrite lookup_empty in H.
  - apply NoDup_nil_2.
  - intros a H. by apply not_elem_of_nil in H.
Qed.

End AttrCalls.

Section ObjLoader.
Import ObjAttrDataLoader.

Lemma obj_loader_known o al (l : ObjAttrDataLoader.t) :
  loaders l !! o = Some al → loader o l = Ret (al, l).
Proof. intros H. unfold loader. by rewrite H. Qed.

Lemma obj_update_inv o al (l : ObjAttrDataLoader.t) :
  obj_inv l → is_Some (loaders l !! o) → obj_inv (update o al l).
Proof.
  intros [H1 H2 H3] Ho. split; cbn.
  - intros o' Ho'. apply H1. destruct (decide (o = o')) as [<- |]; [done |].
    by rewrite lookup_insert_ne in Ho'.
  - done.
  - intros o' Ho'. destruct (decide (o = o')) as [<- |].
    + rewrite lookup_insert_eq. by eexists.
    + rewrite lookup_insert_ne by done. auto.
Qed.

Lemma obj_loader_inv o (l : ObjAttrDataLoader.t) r l' :
  obj_inv l → loader o l = Ret (r, l') →
  obj_inv l' ∧ (is_Some r → loaders l' !! o = Some r).
Proof.
  intros [H1 H2 H3] Hl. unfold loader in Hl.
  destruct (loaders l !! o) as [r0 |] eqn:Ho.
  { injection Hl as <- <-. done. }
  destruct (initLoaders l !! o) as [[f |] |] eqn:Hi; [| done |].
  - injection Hl as <- <-. split; [| cbn; rewrite lookup_insert_eq; by auto].
    split; cbn.
    + intros o' Ho'. destruct (decide (o = o')) as [<- |].
      * by rewrite lookup_insert_eq.
      * rewrite lookup_insert_ne in Ho' by done.
        rewrite lookup_insert_ne by done. auto.
    + apply NoDup_app. split; [done |]. split; [| apply NoDup_singleton].
      intros o' Ho' Hs. apply list_elem_of_singleton in Hs as ->.
      apply H3 in Ho'. rewrite Ho in Ho'. by destruct Ho'.
    + intros o' Ho'. destruct (decide (o = o')) as [<- |].
      * rewrite lookup_insert_eq. by eexists.
      * rewrite lookup_insert_ne by done. apply H3.
        apply elem_of_app in Ho' as [? | Hs]; [done |].
        by apply list_elem_of_singleton in Hs.
  - injection Hl as <- <-. split; [done |]. by intros [? ?].
Qed.

(** Every method of the object dispatcher looks the loader up and then
    works on the loader it got. *)
Lemma obj_step_inv c (l l' : ObjAttrDataLoader.t) :
  obj_inv l → step c l = Ret l' → obj_inv l'.
Proof.
  intros Hinv Hs.
  destruct c as [env o a key | env o a keys | o a key value | o a key value
                | o a key]; cbn [step] in Hs;
    unfold Load, LoadAll, Prime, ForcePrime, prime, Clear in Hs;
    (destruct (loader o l) as [[r l1] | |] eqn:Hl; [| done | done]);
    cbn [mbind Outcome_bind] in Hs;
    destruct (obj_loader_inv o l r l1 Hinv Hl) as (Hi1 & Hsome);
    (destruct r as [al |]; [| cbn in Hs; by injection Hs as <-]);
    assert (∀ al', obj_inv (update o al' l1)) as Hup
      by (intros al'; apply obj_update_inv; [done | rewrite Hsome; by eexists]).
  - destruct (AttrDataLoader.Load env a key al) as [[[v e] al1] | |];
      [| done | done].
    cbn in Hs. by injection Hs as <-.
  - destruct (AttrDataLoader.LoadAll env a keys al) as [[[v e] al1] | |];
      [| done | done].
    cbn in Hs. by injection Hs as <-.
  - destruct (AttrDataLoader.prime a key value false al) as [[r al1] | |];
      [| done | done].
    cbn in Hs. by injection Hs as <-.
  - destruct (AttrDataLoader.prime a key value true al) as [[r al1] | |];
      [| done | done].
    cbn in Hs. by injection Hs as <-.
  - destruct (AttrDataLoader.Clear a key al) as [al1 | |]; [| done | done].
    cbn in Hs. by injection Hs as <-.
Qed.

Lemma obj_exec_inv cs :
  ∀ (l l' : ObjAttrDataLoader.t), obj_inv l → exec cs l = Ret l' → obj_inv l'.
Proof.
  induction cs as [| c cs IH]; intros l l' Hinv Hx; cbn [exec] in Hx.
  - by injection Hx as <-.
  - destruct (step c l) as [l1 | |] eqn:E; [| done | done].
    cbn [mbind Outcome_bind] in Hx.
    eapply IH; [| done]. by eapply obj_step_inv.
Qed.

Lemma NewObjAttrDataLoader_inv inits : obj_inv (NewObjAttrDataLoader inits).
Proof.
  split; cbn.
  - intros o [? H]. by rewrite lookup_empty in H.
  - apply NoDup_nil_2.
  - intros o H. by apply not_elem_of_nil in H.
Qed.

End ObjLoader.

(** C6. Over the lifetime of an attribute dispatcher, whatever its
    clients call, no attribute's initializer runs twice; every attribute
    with an entry in [loaders] has a nil entry in [initLoaders]; and
    looking up an attribute that has a loader returns that loader and
    changes nothing, so no initializer runs. The same holds of the object
    dispatcher and its object types. *)
Theorem initializers_run_at_most_once :
  (∀ inits props cs (l : AttrDataLoader.t),
     AttrDataLoader.exec cs (AttrDataLoader.NewAttrDataLoader inits props) = Ret l →
     NoDup (AttrDataLoader.inited l)
     ∧ (∀ a, is_Some (AttrDataLoader.loaders l !! a) →
             AttrDataLoader.initLoaders l !! a = Some None)
     ∧ (∀ a dl, AttrDataLoader.loaders l !! a = Some dl →
                AttrDataLoader.loader a l = Ret (dl, l)))
  ∧ (∀ inits cs (l : ObjAttrDataLoader.t),
       ObjAttrDataLoader.exec cs (ObjAttrDataLoader.NewObjAttrDataLoader inits)
       = Ret l →
       NoDup (ObjAttrDataLoader.inited l)
       ∧ (∀ o, is_Some (ObjAttrDataLoader.loaders l !! o) →
               ObjAttrDataLoader.initLoaders l !! o = Some None)
       ∧ (∀ o al, ObjAttrDataLoader.loaders l !! o = Some al →
                  ObjAttrDataLoader.loader o l = Ret (al, l))).
Proof.
  split.
  - intros inits props cs l Hx.
    destruct (attr_exec_inv cs _ l (NewAttrDataLoader_inv inits props) Hx)
      as [H1 H2 H3].
    split; [done |]. split; [done |]. intros a dl. apply attr_loader_known.
  - intros inits cs l Hx.
    destruct (obj_exec_inv cs _ l (NewObjAttrDataLoader_inv inits) Hx)
      as [H1 H2 H3].
    split; [done |]. split; [done |]. intros o al. apply obj_loader_known.
Qed.

Lemma initializers_run_at_most_once_witness :
  match AttrDataLoader.exec
          [AttrDataLoader.DoPrime (AStr "id") (AInt 1) (AStr "ann@x");
           AttrDataLoader.DoPrime (AStr "id") (AInt 2) (AStr "bob@x");
           AttrDataLoader.DoClear (AStr "id") (AInt 1)]
          account_loader with
  | Ret l => NoDup (AttrDataLoader.inited l)
  | _ => False
  end.
Proof.
  destruct initializers_run_at_most_once as [HA _].
  destruct (AttrDataLoader.exec _ account_loader) as [l | why |] eqn:Hx.
  - unfold account_loader in Hx. destruct (HA _ _ _ l Hx) as (H1 & _). exact H1.
  - vm_compute in Hx. discriminate Hx.
  - vm_compute in Hx. discriminate Hx.
Defined.

(** ** Propagation after [LoadAll] *)

(** Whatever the keys and whatever the errors, [LoadAll] of the attribute
    dispatcher calls the propagator of the attribute once for every index
    of the values it loaded, and hands it that index. *)
Lemma LoadAll_propagator_calls env a keys (l : AttrDataLoader.t) p values errs l' :
  attr_inv l → AttrDataLoader.propagators l !! a = Some p →
  AttrDataLoader.LoadAll env a keys l = Ret (Some values, errs, l') →
  AttrDataLoader.propagated l'
  = AttrDataLoader.propagated l
    ++ map (λ i, (a, AInt (Z.of_nat i))) (seq 0 (length values)).
Proof.
  intros Hinv Hp HL. unfold AttrDataLoader.LoadAll in HL.
  destruct (AttrDataLoader.loader a l) as [[o l1] | |] eqn:Hl; [| done | done].
  cbn [mbind Outcome_bind] in HL.
  destruct (attr_loader_inv a l o l1 Hinv Hl) as (Hi1 & Hp1 & Hq1 & _ & Hs).
  destruct o as [dl |]; [| done].
  destruct (DataLoader.LoadAll env keys dl) as [[[v1 e1] dl1] | |]; [| done | done].
  cbn [mbind Outcome_bind] in HL.
  assert (attr_inv (AttrDataLoader.update a dl1 l1)) as Hi2.
  { apply attr_update_inv; [done |]. rewrite Hs; by eexists. }
  destruct (AttrDataLoader.LoadAll_range (seq 0 (length v1)) a
              (AttrDataLoader.update a dl1 l1)) as [l2 | |] eqn:E; [| done | done].
  cbn [mbind Outcome_bind] in HL. injection HL as <- <- <-.
  destruct (attr_LoadAll_range_inv _ _ _ _ Hi2 E) as (_ & _ & Hq2).
  rewrite Hq2. cbn [AttrDataLoader.propagated AttrDataLoader.propagators
                    AttrDataLoader.update AttrDataLoader.set_loaders].
  by rewrite Hq1, Hp1, Hp.
Qed.

(** C2 (the code departs from the claim). [LoadAll] of the account
    dispatcher on the ids 1 and 2 loads the account of id 1 and gets an
    error for id 2. The propagator of ["id"] is then called twice, with
    the indices 0 and 1 as its first argument: not with the loaded
    account, and also for the value whose error is not nil. [Load] of id 1
    on the same dispatcher calls it once, with the account. *)
Theorem LoadAll_hands_indices_to_the_propagator :
  match AttrDataLoader.LoadAll (λ _, []) (AStr "id") [AInt 1; AInt 2]
          account_loader with
  | Ret (values, errs, l') =>
      values = Some [AStr "ann@x"; ANil]
      ∧ errs = [None; Some (OtherError "no such account")]
      ∧ AttrDataLoader.propagated l' = [(AStr "id", AInt 0); (AStr "id", AInt 1)]
  | _ => False
  end
  ∧ match AttrDataLoader.Load [] (AStr "id") (AInt 1) account_loader with
    | Ret (value, err, l') =>
        value = AStr "ann@x" ∧ err = None
        ∧ AttrDataLoader.propagated l' = [(AStr "id", AStr "ann@x")]
    | _ => False
    end.
Proof. vm_compute. repeat split. Qed.

(** ** The scenarios of the specification, run on the model *)

(** Batching under the timer: three loads before the timer fires make
    one fetch. *)
Example scenario_timer_batch :
  match LoadAll (λ _, []) [AInt 1; AInt 2; AInt 3] (NewDataLoader 100 10 double) with
  | Ret (values, errors, l) =>
      values = [AInt 2; AInt 4; AInt 6]
      ∧ errors = [None; None; None]
      ∧ fetched_keys l = [[AInt 1; AInt 2; AInt 3]]
  | _ => False
  end.
Proof. vm_compute. repeat split. Qed.

(** Batch size cap: with [maxBatch = 2] the second key closes the batch
    and the third opens a new one, which its timer closes. *)
Example scenario_size_cap :
  match exec [DoLoadThunk (AInt 1); DoLoadThunk (AInt 2); DoLoadThunk (AInt 3);
              DoSched (GoEnd 0); DoSched (GoStartTimer 0);
              DoSched (GoStartTimer 1); DoSched (GoEnd 1)]
          (NewDataLoader 2 1000 double) with
  | Ret l => fetched_keys l = [[AInt 1; AInt 2]; [AInt 3]] ∧ spawned l = []
  | _ => False
  end.
Proof. vm_compute. repeat split. Qed.

(** Dedup inside a batch: three loads of one key make one fetch of one
    key. *)
Example scenario_dedup :
  match LoadAll (λ _, []) [AInt 1; AInt 1; AInt 1] (NewDataLoader 100 10 double) with
  | Ret (values, errors, l) =>
      values = [AInt 2; AInt 2; AInt 2] ∧ fetched_keys l = [[AInt 1]]
  | _ => False
  end.
Proof. vm_compute. repeat split. Qed.

(** Shared error: both keys get the one error, neither is cached, and
    the next load of a key fetches again. *)
Example scenario_shared_error :
  match LoadAll (λ _, []) [AInt 1; AInt 2] (NewDataLoader 100 10 one_error_for_all) with
  | Ret (values, errors, l) =>
      errors = [Some (OtherError "E"); Some (OtherError "E")]
      ∧ cached l = []
      ∧ match Load [] (AInt 1) l with
        | Ret (_, _, l') => fetched_keys l' = [[AInt 1; AInt 2]; [AInt 1]]
        | _ => False
        end
  | _ => False
  end.
Proof. vm_compute. repeat split. Qed.

(** A forced [Prime] followed by [Load] returns the primed value and
    makes no fetch. *)
Example scenario_prime_then_load :
  match Load [] (AInt 1)
          (DataLoader.Prime (AInt 1) (AStr "V") true (NewDataLoader 100 10 double)).2 with
  | Ret (value, err, l) => value = AStr "V" ∧ err = None ∧ fetched l = []
  | _ => False
  end.
Proof. vm_compute. repeat split. Qed.

(** ** What the steps of a loader do to its batches *)

Lemma still_refl l : still l l.
Proof. intros b bt Hb. exists bt. done. Qed.

Lemma still_trans l1 l2 l3 : still l1 l2 → still l2 l3 → still l1 l3.
Proof.
  intros H12 H23 b bt3 Hb3.
  destruct (H23 b bt3 Hb3) as (bt2 & Hb2 & Hk2 & Hc2 & Hcur2).
  destruct (H12 b bt2 Hb2) as (bt1 & Hb1 & Hk1 & Hc1 & Hcur1).
  exists bt1. split; [done |]. split; [congruence |]. split; [congruence | auto].
Qed.

Lemma still_frame (l l' : DataLoader.t) :
  heap l' = heap l → batch l' = batch l → still l l'.
Proof.
  intros Hh Hb b bt Hbt. exists bt. rewrite Hh in Hbt. by rewrite Hb.
Qed.

(** The scheduler, a wait, a thunk, [Prime] and [Clear] leave the keys
    and the [closing] flags alone and make no batch current. *)
Lemma sched_still g (l l' : DataLoader.t) :
  inv l → sched g l = Ret l' → still l l'.
Proof.
  intros Hinv Hs.
  destruct (sched_cases g l Hinv)
    as [[_ E] | [(b1 & gs & -> & Ht & E)
                | (b1 & gs & bt & vs & es & -> & Ht & Hbt & Hd & Hf & E)]];
    rewrite E in Hs; injection Hs as <-.
  - apply still_refl.
  - unfold startTimer. destruct (closing (deref b1 (set_spawned gs l))).
    + by apply still_frame.
    + intros b bt' Hb. exists bt'. done.
  - intros b bt' Hb. cbn [store heap set_heap set_fetched set_spawned batch] in *.
    apply list_lookup_insert_Some in Hb as [(<- & <- & _) | (Hne & Hb)].
    + exists bt. done.
    + exists bt'. done.
Qed.

Lemma await_still b (l l' : DataLoader.t) :
  inv l → await b l = Ret l' → still l l'.
Proof.
  intros Hinv. unfold await. destruct (done (deref b l)).
  { intros [= <-]. apply still_refl. }
  destruct (sched_inv (GoStartTimer b) l Hinv) as (l1 & E1 & Hi1 & _).
  rewrite E1. cbn [mbind Outcome_bind].
  destruct (sched_inv (GoEnd b) l1 Hi1) as (l2 & E2 & Hi2 & _).
  rewrite E2. cbn [mbind Outcome_bind].
  destruct (done (deref b l2)); [| done]. intros [= <-].
  eapply still_trans; by eapply sched_still.
Qed.

Lemma call_still thunk (l : DataLoader.t) v e l' :
  inv l → issued thunk l = true → call thunk l = Ret (v, e, l') → still l l'.
Proof.
  intros Hinv Hi Hcall. destruct thunk as [it | b pos key].
  { cbn in Hcall. injection Hcall as <- <- <-. apply still_refl. }
  rewrite call_Waiting in Hcall.
  destruct (await b l) as [l1 | |] eqn:Ha; [| done | done].
  cbn [mbind Outcome_bind] in Hcall.
  destruct (error_at (deref b l1) pos) as [err | |]; [| done | done].
  cbn [mbind Outcome_bind] in Hcall. injection Hcall as <- <- <-.
  pose proof (await_still b l l1 Hinv Ha) as Hs.
  case_decide; [| done].
  eapply still_trans; [done |]. by apply still_frame.
Qed.

Lemma enqueued_still (l l' : DataLoader.t) b bt' :
  still l l' → heap l' !! b = Some bt' → enqueued l l' b bt'.
Proof.
  intros Hs Hb. destruct (Hs b bt' Hb) as (bt & ? & ? & ? & ?).
  by eapply Kept.
Qed.

(** [LoadThunk] changes at most one batch: the current one gains the key,
    or a new batch is made for it. *)
Lemma LoadThunk_enqueued key (l : DataLoader.t) b bt' :
  inv l → heap (LoadThunk key l).2 !! b = Some bt' →
  enqueued l (LoadThunk key l).2 b bt'.
Proof.
  intros Hinv. destruct (cache_get key l) as [it |] eqn:Hc.
  { unfold LoadThunk. rewrite Hc. cbn [snd]. apply enqueued_still, still_refl. }
  destruct (batch l) as [b0 |] eqn:Hcur.
  - assert (∃ bt0, heap l !! b0 = Some bt0) as [bt0 Hbt0].
    { apply lookup_lt_is_Some_2. by apply (inv_cur l Hinv). }
    unfold LoadThunk. rewrite Hc, Hcur.
    rewrite (keyIndex_current b0 bt0 key l Hinv Hbt0 Hcur).
    destruct (scan key (keys bt0) 0).
    { cbn [snd]. intros Hb. apply enqueued_still; [apply still_refl | done]. }
    cbn [snd]. destruct (capped l (length (keys bt0))) eqn:Hcap;
      cbn [go set_batch store heap set_heap set_spawned batch]; intros Hb;
      (apply list_lookup_insert_Some in Hb as [(<- & <- & _) | (Hne & Hb)];
       [ eapply (Joined _ _ _ _ bt0 key); cbn; rewrite ?Hcap; try done;
         rewrite ?Hcur; done
       | eapply (Kept _ _ _ _ bt'); cbn; rewrite ?Hcur; try done; congruence ]).
  - rewrite (LoadThunk_fresh key l Hc Hcur). cbn [snd heap batch].
    intros Hb. apply snoc_lookup_Some in Hb as [Hb | [-> ->]].
    + eapply (Kept _ _ _ _ bt'); try done. cbn [batch].
      apply lookup_lt_Some in Hb. destruct (capped l 0); [done |].
      intros [= <-]. lia.
    + eapply (Fresh _ _ _ _ key); cbn [keys closing batch]; try done.
      * apply lookup_ge_None. lia.
      * destruct (capped l 0); done.
Qed.

(** What a step does to a batch. *)
Lemma step_enqueued e (l l' : DataLoader.t) b bt' :
  inv l → step e l = Ret l' → heap l' !! b = Some bt' → enqueued l l' b bt'.
Proof.
  intros Hinv Hs Hb. destruct e as [key | thunk | key value forcePrime | key | g];
    cbn [step] in Hs.
  - injection Hs as <-. by apply LoadThunk_enqueued.
  - destruct (issued thunk l) eqn:Hi.
    + destruct (call thunk l) as [[[v err] l1] | |] eqn:Hc; [| done | done].
      cbn in Hs. injection Hs as <-.
      apply enqueued_still; [by eapply call_still | done].
    + injection Hs as <-. apply enqueued_still; [apply still_refl | done].
  - injection Hs as <-. apply enqueued_still; [| done].
    unfold DataLoader.Prime. cbn [snd].
    destruct (if negb forcePrime then _ else _);
      [by apply still_frame | apply still_refl].
  - injection Hs as <-. apply enqueued_still; [by apply still_frame | done].
  - apply enqueued_still; [by eapply sched_still | done].
Qed.

(** A property that every step keeps holds in every state a loader
    reaches. *)
Lemma reachable_invariant (P : DataLoader.t → Prop) :
  (∀ maxBatch wait fetch, P (NewDataLoader maxBatch wait fetch)) →
  (∀ e l l', inv l → P l → step e l = Ret l' → P l') →
  ∀ l, reachable l → P l.
Proof.
  intros Hnew Hstep l (maxBatch & wait & fetch & es & Hx).
  pose proof (NewDataLoader_inv maxBatch wait fetch) as Hinv.
  specialize (Hnew maxBatch wait fetch).
  revert Hx Hinv Hnew. generalize (NewDataLoader maxBatch wait fetch).
  induction es as [| e es IH]; intros l0 Hx Hinv HP; cbn [exec] in Hx.
  - by injection Hx as <-.
  - destruct (step e l0) as [l1 | |] eqn:Hs; [| done | done].
    cbn [mbind Outcome_bind] in Hx.
    destruct (step_inv e l0 l1 Hinv Hs) as [Hi1 _].
    apply (IH l1 Hx Hi1). by apply (Hstep e l0 l1).
Qed.

(** ** The current batch and the size of batches *)

(** X1. In every state a loader reaches, the current batch is open: it is
    not closing, not done, no fetch was made for it and its timer is
    still to come. So a batch that is closing or done is detached, and
    [LoadThunk] never adds a key to it. *)
Theorem current_batch_is_open (l : DataLoader.t) b bt :
  reachable l → heap l !! b = Some bt →
  (batch l = Some b →
   closing bt = false ∧ done bt = false ∧ calls b l = 0%nat ∧ timers b l = 1%nat)
  ∧ (closing bt = true ∨ done bt = true →
     batch l ≠ Some b
     ∧ ∀ key, heap (LoadThunk key l).2 !! b = Some bt).
Proof.
  intros Hr Hbt. pose proof (reachable_inv l Hr) as Hinv.
  pose proof (inv_batch l Hinv b bt Hbt) as [B1 B2 B3 B4 B5 B6 B7 B8].
  assert (batch l = Some b →
          closing bt = false ∧ done bt = false ∧ calls b l = 0%nat
          ∧ timers b l = 1%nat) as Hopen.
  { intros Hcur. destruct (proj1 B6 Hcur) as [Hcl Htm]. rewrite Hcl in B3.
    assert (calls b l = 0%nat) as Hc by lia.
    split; [done |]. split; [| done].
    destruct (done bt); [| done]. pose proof (proj1 B5 eq_refl). lia. }
  split; [done |]. intros Hor.
  assert (batch l ≠ Some b) as Hne.
  { intros Hcur. destruct (Hopen Hcur) as (? & ? & _). destruct Hor; congruence. }
  split; [done |]. intros key. by apply LoadThunk_detached.
Qed.

Lemma current_batch_is_open_witness :
  let l := (LoadThunk (AInt 1) (NewDataLoader 2 10 (λ _ ks, (ks, None)))).2 in
  batch l = Some 0%nat ∧ calls 0 l = 0%nat.
Proof.
  intros l.
  assert (reachable l) as Hreach.
  { exists 2, 10, (λ _ ks, (ks, None)), [DoLoadThunk (AInt 1)]. reflexivity. }
  assert (heap l !! 0%nat = Some (mkBatch [AInt 1] [] None false false)) as Hbt
    by reflexivity.
  assert (batch l = Some 0%nat) as Hcur by reflexivity.
  split; [exact Hcur |].
  destruct (current_batch_is_open l 0%nat _ Hreach Hbt) as [H _].
  destruct (H Hcur) as (_ & _ & Hc & _). exact Hc.
Defined.

Lemma wrap_small z : - 2 ^ 63 ≤ z < 2 ^ 63 → wrap z = z.
Proof. intros H. unfold wrap. rewrite Z.mod_small; lia. Qed.

Lemma capped_positive (l : DataLoader.t) pos :
  0 < maxBatch l < 2 ^ 63 →
  capped l pos = bool_decide (maxBatch l - 1 ≤ Z.of_nat pos).
Proof.
  intros H. unfold capped, int_sub. rewrite wrap_small by lia.
  by rewrite bool_decide_eq_true_2 by lia.
Qed.

Lemma step_maxBatch e (l l' : DataLoader.t) :
  inv l → step e l = Ret l' → maxBatch l' = maxBatch l.
Proof. intros Hinv Hs. by destruct (step_inv e l l' Hinv Hs) as [_ []]. Qed.

(** X2. With a positive [maxBatch], no batch ever holds more than
    [maxBatch] keys and the current batch holds fewer, so fetch is never
    called with more than [maxBatch] keys. *)
Theorem batch_size_is_bounded (l : DataLoader.t) :
  reachable l → 0 < maxBatch l < 2 ^ 63 →
  (∀ b bt, heap l !! b = Some bt →
     Z.of_nat (length (keys bt)) ≤ maxBatch l
     ∧ (batch l = Some b → Z.of_nat (length (keys bt)) < maxBatch l))
  ∧ (∀ c, c ∈ fetched l → Z.of_nat (length (fc_keys c)) ≤ maxBatch l).
Proof.
  intros Hr Hmax.
  assert (∀ b bt, heap l !! b = Some bt →
            Z.of_nat (length (keys bt)) ≤ maxBatch l
            ∧ (batch l = Some b → Z.of_nat (length (keys bt)) < maxBatch l)) as H.
  { revert Hmax. pattern l. revert l Hr. apply reachable_invariant.
    - intros maxBatch wait fetch _ b bt Hb. cbn in Hb. by rewrite lookup_nil in Hb.
    - intros e l l' Hinv IH Hs Hmax b bt' Hb.
      rewrite (step_maxBatch e l l' Hinv Hs) in *. specialize (IH Hmax).
      destruct (step_enqueued e l l' b bt' Hinv Hs Hb)
        as [bt Hbt Hk Hc Hcur | bt key Hbt Hcur Hk Hc Hiff | key Hbt Hcur Hk Hc Hiff].
      + destruct (IH b bt Hbt) as [H1 H2]. rewrite Hk. split; [done | auto].
      + destruct (IH b bt Hbt) as [H1 H2]. specialize (H2 Hcur).
        rewrite Hk, length_app. cbn [length]. split; [lia |].
        intros Hcur'. apply Hiff in Hcur'.
        rewrite capped_positive in Hcur' by done.
        apply bool_decide_eq_false in Hcur'. lia.
      + rewrite Hk. cbn [length]. split; [lia |].
        intros Hcur'. apply Hiff in Hcur'.
        rewrite capped_positive in Hcur' by done.
        apply bool_decide_eq_false in Hcur'. lia. }
  split; [done |]. intros c Hc. pose proof (reachable_inv l Hr) as Hinv.
  assert (∃ btc, heap l !! fc_batch c = Some btc) as [btc Hbtc].
  { apply lookup_lt_is_Some_2. by apply (inv_fetched l Hinv). }
  destruct (bi_fetched l _ btc (inv_batch l Hinv _ btc Hbtc) c Hc eq_refl)
    as (-> & _).
  by destruct (H _ _ Hbtc).
Qed.

Lemma batch_size_is_bounded_witness :
  let l := (LoadThunk (AInt 2)
              (LoadThunk (AInt 1) (NewDataLoader 2 10 (λ _ ks, (ks, None)))).2).2 in
  Forall (λ bt, Z.of_nat (length (keys bt)) ≤ 2) (heap l).
Proof.
  intros l.
  assert (reachable l) as Hreach.
  { exists 2, 10, (λ _ ks, (ks, None)), [DoLoadThunk (AInt 1); DoLoadThunk (AInt 2)].
    reflexivity. }
  assert (0 < maxBatch l < 2 ^ 63) as Hmax by (change (maxBatch l) with 2; lia).
  destruct (batch_size_is_bounded l Hreach Hmax) as [H _].
  apply Forall_lookup. intros b bt Hb. destruct (H b bt Hb) as [H1 _]. exact H1.
Defined.

(** X3. With [maxBatch = 0] the size test never closes a batch: no batch
    is ever closing, so every finalization is made by a timer, and a key
    that is not cached always goes to the current batch, which stays the
    current one. *)
Theorem no_cap_never_closes (l : DataLoader.t) :
  reachable l → maxBatch l = 0 →
  (∀ b bt, heap l !! b = Some bt → closing bt = false)
  ∧ (∀ key, cache_get key l = None →
       ∃ b pos, (LoadThunk key l).1 = Waiting b pos key
                ∧ batch (LoadThunk key l).2 = Some b
                ∧ (∀ b0, batch l = Some b0 → b = b0)).
Proof.
  intros Hr Hmax. split.
  - revert Hmax. pattern l. revert l Hr. apply reachable_invariant.
    + intros maxBatch wait fetch _ b bt Hb. cbn in Hb. by rewrite lookup_nil in Hb.
    + intros e l l' Hinv IH Hs Hmax b bt' Hb.
      rewrite (step_maxBatch e l l' Hinv Hs) in *. specialize (IH Hmax).
      assert (∀ pos, capped l pos = false) as Hcap.
      { intros pos. unfold capped. by rewrite Hmax. }
      destruct (step_enqueued e l l' b bt' Hinv Hs Hb)
        as [bt Hbt Hk Hc Hcur | bt key Hbt Hcur Hk Hc Hiff | key Hbt Hcur Hk Hc Hiff].
      * rewrite Hc. eauto.
      * by rewrite Hc, Hcap.
      * by rewrite Hc, Hcap.
  - intros key Hc. pose proof (reachable_inv l Hr) as Hinv.
    assert (∀ pos, capped l pos = false) as Hcap.
    { intros pos. unfold capped. by rewrite Hmax. }
    destruct (batch l) as [b0 |] eqn:Hcur.
    + assert (∃ bt0, heap l !! b0 = Some bt0) as [bt0 Hbt0].
      { apply lookup_lt_is_Some_2. by apply (inv_cur l Hinv). }
      unfold LoadThunk. rewrite Hc, Hcur.
      rewrite (keyIndex_current b0 bt0 key l Hinv Hbt0 Hcur).
      destruct (scan key (keys bt0) 0) as [i |]; cbn [fst snd].
      * exists b0, i. split; [done |]. split; [done |]. by intros ? [= <-].
      * rewrite Hcap. exists b0, (length (keys bt0)).
        split; [done |]. split; [done |]. by intros ? [= <-].
    + rewrite (LoadThunk_fresh key l Hc Hcur). cbn [fst snd batch].
      rewrite Hcap. exists (length (heap l)), 0%nat. done.
Qed.

Lemma no_cap_never_closes_witness :
  let l := (LoadThunk (AInt 1) (NewDataLoader 0 10 (λ _ ks, (ks, None)))).2 in
  Forall (λ bt, closing bt = false) (heap l).
Proof.
  intros l.
  assert (reachable l) as Hreach.
  { exists 0, 10, (λ _ ks, (ks, None)), [DoLoadThunk (AInt 1)]. reflexivity. }
  destruct (no_cap_never_closes l Hreach eq_refl) as [H _].
  apply Forall_lookup. exact H.
Defined.

(** X4. With [maxBatch = 1], and also with a negative [maxBatch], the
    size test closes every batch at its first key: the loader never has
    a current batch and every batch holds exactly one key, so every key
    that is not cached gets a fetch of its own. *)
Theorem cap_of_one_or_less_gives_singletons (l : DataLoader.t) :
  reachable l → maxBatch l = 1 ∨ - 2 ^ 63 < maxBatch l < 0 →
  batch l = None
  ∧ (∀ b bt, heap l !! b = Some bt → length (keys bt) = 1%nat ∧ closing bt = true)
  ∧ (∀ c, c ∈ fetched l → length (fc_keys c) = 1%nat).
Proof.
  intros Hr Hmax.
  assert (batch l = None
          ∧ ∀ b bt, heap l !! b = Some bt →
                    length (keys bt) = 1%nat ∧ closing bt = true) as [H0 H].
  { revert Hmax. pattern l. revert l Hr. apply reachable_invariant.
    - intros maxBatch wait fetch _. split; [done |].
      intros b bt Hb. cbn in Hb. by rewrite lookup_nil in Hb.
    - intros e l l' Hinv IH Hs Hmax.
      rewrite (step_maxBatch e l l' Hinv Hs) in *.
      destruct (IH Hmax) as [IH0 IH1].
      assert (capped l 0 = true) as Hcap.
      { unfold capped, int_sub. apply andb_true_iff.
        split; apply bool_decide_eq_true; [lia |].
        rewrite wrap_small; lia. }
      assert (∀ b bt', heap l' !! b = Some bt' →
                (length (keys bt') = 1%nat ∧ closing bt' = true)
                ∧ batch l' ≠ Some b) as Hall.
      { intros b bt' Hb.
        destruct (step_enqueued e l l' b bt' Hinv Hs Hb)
          as [bt Hbt Hk Hc Hcur | bt key Hbt Hcur Hk Hc Hiff | key Hbt Hcur Hk Hc Hiff].
        - rewrite Hk, Hc. split; [by apply (IH1 b bt Hbt) |].
          intros Hx. apply Hcur in Hx. congruence.
        - congruence.
        - rewrite Hk, Hc. split; [done |]. intros Hx. apply Hiff in Hx. congruence. }
      split; [| intros b bt' Hb; by destruct (Hall b bt' Hb)].
      destruct (batch l') as [b |] eqn:Hcur'; [| done].
      destruct (step_inv e l l' Hinv Hs) as [Hi' _].
      destruct (lookup_lt_is_Some_2 _ _ (inv_cur l' Hi' b Hcur')) as [bt' Hb].
      by destruct (Hall b bt' Hb). }
  split; [done |]. split; [done |].
  intros c Hc. pose proof (reachable_inv l Hr) as Hinv.
  assert (∃ btc, heap l !! fc_batch c = Some btc) as [btc Hbtc].
  { apply lookup_lt_is_Some_2. by apply (inv_fetched l Hinv). }
  destruct (bi_fetched l _ btc (inv_batch l Hinv _ btc Hbtc) c Hc eq_refl)
    as (-> & _).
  by destruct (H _ _ Hbtc).
Qed.

Lemma cap_of_one_or_less_gives_singletons_witness :
  let l := (LoadThunk (AInt 2)
              (LoadThunk (AInt 1) (NewDataLoader (-5) 10 (λ _ ks, (ks, None)))).2).2 in
  batch l = None.
Proof.
  intros l.
  assert (reachable l) as Hreach.
  { exists (-5), 10, (λ _ ks, (ks, None)),
      [DoLoadThunk (AInt 1); DoLoadThunk (AInt 2)].
    reflexivity. }
  assert (maxBatch l = 1 ∨ - 2 ^ 63 < maxBatch l < 0) as Hmax.
  { right. change (maxBatch l) with (-5). lia. }
  destruct (cap_of_one_or_less_gives_singletons l Hreach Hmax) as [H _]. exact H.
Defined.

(** ** Blocking, panics and [Load] *)

Lemma error_at_outcome bt pos :
  (∃ e, error_at bt pos = Ret e) ∨ error_at bt pos = Panics "index out of range".
Proof.
  unfold error_at, index.
  repeat case_decide; try (destruct (error bt ≫= _); by eauto); by eauto.
Qed.

(** Calling a thunk that was handed out returns or panics on the errors
    slice; it does not block. *)
Lemma call_outcome thunk (l : DataLoader.t) :
  inv l → issued thunk l = true →
  (∃ v e l', call thunk l = Ret (v, e, l'))
  ∨ call thunk l = Panics "index out of range".
Proof.
  intros Hinv Hi. destruct thunk as [it | b pos key].
  { left. cbn. by eexists _, _, _. }
  destruct (issued_valid _ _ _ _ Hi) as (bt & Hbt & Hk).
  destruct (await_inv b l Hinv) as (l1 & Ha & _);
    [by apply lookup_lt_Some in Hbt |].
  rewrite call_Waiting, Ha. cbn [mbind Outcome_bind].
  destruct (error_at_outcome (deref b l1) pos) as [[e ->] | ->];
    cbn [mbind Outcome_bind]; [left; by eexists _, _, _ | by right].
Qed.

Lemma step_outcome e (l : DataLoader.t) :
  inv l →
  (∃ l', step e l = Ret l') ∨ step e l = Panics "index out of range".
Proof.
  intros Hinv. destruct e as [key | thunk | key value forcePrime | key | g];
    cbn [step]; try (left; by eexists).
  - destruct (issued thunk l) eqn:Hi; [| left; by eexists].
    destruct (call_outcome thunk l Hinv Hi) as [(v & e & l' & ->) | ->];
      cbn; [left; by eexists | by right].
  - destruct (sched_inv g l Hinv) as (l' & -> & _). left. by eexists.
Qed.

Lemma exec_outcome es (l : DataLoader.t) :
  inv l →
  (∃ l', exec es l = Ret l') ∨ exec es l = Panics "index out of range".
Proof.
  revert l. induction es as [| e es IH]; intros l Hinv; cbn [exec].
  - left. by eexists.
  - destruct (step_outcome e l Hinv) as [[l1 Hs] | ->]; [| by right].
    rewrite Hs. cbn [mbind Outcome_bind].
    apply IH. by destruct (step_inv e l l1 Hinv Hs).
Qed.

(** X5. Whatever the goroutines that share a loader do, in any order, the
    run goes on or panics with an index out of range (a thunk reading an
    errors slice that is too short): no goroutine is left waiting for a
    batch that is never finalized, and [done] is never closed twice.
    With a fetcher that keeps to its contract the run never panics. *)
Theorem loader_never_blocks (l : DataLoader.t) :
  reachable l →
  (∀ es, (∃ l', exec es l = Ret l') ∨ exec es l = Panics "index out of range")
  ∧ (∀ thunk, issued thunk l = true →
       (∃ v e l', call thunk l = Ret (v, e, l'))
       ∨ call thunk l = Panics "index out of range")
  ∧ (well_behaved (fetch l) → ∀ es, ∃ l', exec es l = Ret l').
Proof.
  intros Hr. pose proof (reachable_inv l Hr) as Hinv.
  split; [intros es; by apply exec_outcome |].
  split; [intros thunk; by apply call_outcome |].
  intros Hwb es. by apply exec_total.
Qed.

Lemma loader_never_blocks_witness :
  let l := (LoadThunk (AInt 1) (NewDataLoader 2 10 (λ _ ks, (ks, None)))).2 in
  (∃ v e l', call (Waiting 0 0 (AInt 1)) l = Ret (v, e, l'))
  ∨ call (Waiting 0 0 (AInt 1)) l = Panics "index out of range".
Proof.
  intros l.
  assert (reachable l) as Hreach.
  { exists 2, 10, (λ _ ks, (ks, None)), [DoLoadThunk (AInt 1)]. reflexivity. }
  destruct (loader_never_blocks l Hreach) as (_ & H & _).
  apply (H (Waiting 0 0 (AInt 1))). reflexivity.
Defined.

(** [Load] of a key that is not cached: the key goes to a batch, and once
    the other goroutines have had their turn the caller waits for the
    batch and reads the result of its fetch at the position of the key. *)
Lemma Load_miss env key (l l2 : DataLoader.t) :
  reachable l → cache_get key l = None →
  exec env (LoadThunk key l).2 = Ret l2 →
  ∃ b pos l3 bt n,
    await b l2 = Ret l3
    ∧ reachable l3 ∧ cache l3 = cache l2
    ∧ heap l3 !! b = Some bt ∧ done bt = true
    ∧ keys bt !! pos = Some key
    ∧ fetch l n (keys bt) = (data bt, error bt)
    ∧ Load env key l
      = (e ← error_at bt pos;
         Ret (value_at bt pos, e,
              if decide (e = None) then unsafeSet key (value_at bt pos) l3
              else l3)).
Proof.
  intros Hr Hc Hx. pose proof (reachable_inv l Hr) as Hinv.
  destruct (LoadThunk_inv key l Hinv) as (Hinv1 & Hev1 & _ & Hiss1).
  pose proof (LoadThunk_thunk key l) as Hth.
  unfold Load. destruct (LoadThunk key l) as [thunk l1] eqn:HLT.
  cbn [fst snd] in *. rewrite Hx. cbn [mbind Outcome_bind].
  destruct thunk as [it | b pos k]; [congruence |]. subst k.
  destruct (exec_inv env l1 l2 Hinv1 Hx) as [Hinv2 Hev2].
  pose proof (issued_evolves _ _ _ Hev2 Hiss1) as Hiss2.
  destruct (issued_valid _ _ _ _ Hiss2) as (bt2 & Hbt2 & Hk2).
  destruct (await_inv b l2 Hinv2) as (l3 & Ha & Hinv3 & Hev3 & Hc3 & Hd3);
    [by apply lookup_lt_Some in Hbt2 |].
  pose proof (issued_evolves _ _ _ Hev3 Hiss2) as Hiss3.
  destruct (issued_valid _ _ _ _ Hiss3) as (bt & Hbt & Hk).
  rewrite (deref_lookup b bt) in Hd3 by done.
  destruct (bi_result l3 b bt (inv_batch l3 Hinv3 b bt Hbt) Hd3) as [n Hn].
  exists b, pos, l3, bt, n. split; [done |].
  split.
  { destruct (await_exec b l2 l3 Ha) as (es & Hes & _).
    eapply reachable_exec; [| exact Hes].
    eapply reachable_exec; [| exact Hx].
    replace l1 with (LoadThunk key l).2 by (by rewrite HLT).
    by apply reachable_LoadThunk. }
  split; [done |]. split; [done |]. split; [done |]. split; [done |].
  split.
  { rewrite <- Hn.
    by rewrite (ev_fetch _ _ Hev3), (ev_fetch _ _ Hev2), (ev_fetch _ _ Hev1). }
  rewrite call_Waiting, Ha. cbn [mbind Outcome_bind].
  by rewrite (deref_lookup b bt).
Qed.



(** X7. A fetcher that returns an empty errors slice that is not nil
    makes every [Load] of a key that is not cached panic: the thunk reads
    the errors slice at the position of the key. *)
Theorem empty_errors_slice_panics env key (l : DataLoader.t) :
  reachable l → (∀ n ks, (fetch l n ks).2 = Some []) →
  cache_get key l = None →
  Load env key l = Panics "index out of range".
Proof.
  intros Hr Hf Hc. pose proof (reachable_inv l Hr) as Hinv.
  destruct (LoadThunk_inv key l Hinv) as (Hinv1 & _).
  destruct (exec_outcome env (LoadThunk key l).2 Hinv1) as [[l2 Hx] | Hx].
  - destruct (Load_miss env key l l2 Hr Hc Hx)
      as (b & pos & l3 & bt & n & _ & _ & _ & _ & _ & _ & Hn & ->).
    specialize (Hf n (keys bt)). rewrite Hn in Hf. cbn [snd] in Hf.
    unfold error_at. rewrite Hf. done.
  - unfold Load. destruct (LoadThunk key l) as [thunk l1]. cbn [snd] in Hx.
    by rewrite Hx.
Qed.

Lemma empty_errors_slice_panics_witness :
  Load [] (AInt 1) (NewDataLoader 0 0 (λ _ ks, (ks, Some [])))
  = Panics "index out of range".
Proof.
  apply empty_errors_slice_panics; [| done | done].
  exists 0, 0, (λ _ ks, (ks, Some [])), []. reflexivity.
Defined.

(** X8. A fetcher that returns no values and no errors makes [Load] of a
    key that is not cached return the nil value with a nil error, and
    nil is then cached for the key. *)
Theorem missing_value_is_cached_as_nil env key (l : DataLoader.t) :
  reachable l → (∀ n ks, fetch l n ks = ([], None)) →
  cache_get key l = None →
  ∃ l', Load env key l = Ret (ANil, None, l')
        ∧ cache_get key l' = Some ANil.
Proof.
  intros Hr Hf Hc. pose proof (reachable_inv l Hr) as Hinv.
  destruct (LoadThunk_inv key l Hinv) as (Hinv1 & Hev1 & _).
  destruct (exec_total env (LoadThunk key l).2 Hinv1) as [l2 Hx].
  { rewrite (ev_fetch _ _ Hev1). intros n ks. rewrite Hf. by left. }
  destruct (Load_miss env key l l2 Hr Hc Hx)
    as (b & pos & l3 & bt & n & _ & _ & _ & _ & _ & _ & Hn & ->).
  rewrite Hf in Hn. injection Hn as Hd He.
  unfold error_at, value_at. rewrite <- Hd, <- He. cbn -[unsafeSet cache_get].
  case_decide; [lia |]. exists (unsafeSet key ANil l3).
  split; [done |]. rewrite cache_get_unsafeSet. by rewrite decide_True.
Qed.

Lemma missing_value_is_cached_as_nil_witness :
  ∃ l', Load [] (AInt 1) (NewDataLoader 0 0 (λ _ _, ([], None)))
        = Ret (ANil, None, l')
        ∧ cache_get (AInt 1) l' = Some ANil.
Proof.
  apply missing_value_is_cached_as_nil; [| done | done].
  exists 0, 0, (λ _ _, ([], None)), []. reflexivity.
Defined.

(** X9. A fetcher that returns one error for all its keys makes [Load]
    of a key that is not cached return that error, whatever the position
    of the key in its batch, and the thunk writes nothing to the
    cache. *)
Theorem single_error_is_shared env key err (l : DataLoader.t) :
  reachable l → (∀ n ks, (fetch l n ks).2 = Some [Some err]) →
  cache_get key l = None →
  ∃ v l2 l',
    exec env (LoadThunk key l).2 = Ret l2
    ∧ Load env key l = Ret (v, Some err, l')
    ∧ cache l' = cache l2.
Proof.
  intros Hr Hf Hc. pose proof (reachable_inv l Hr) as Hinv.
  destruct (LoadThunk_inv key l Hinv) as (Hinv1 & Hev1 & _).
  destruct (exec_total env (LoadThunk key l).2 Hinv1) as [l2 Hx].
  { rewrite (ev_fetch _ _ Hev1). intros n ks. rewrite Hf. right. by left. }
  destruct (Load_miss env key l l2 Hr Hc Hx)
    as (b & pos & l3 & bt & n & _ & _ & Hc3 & _ & _ & _ & Hn & ->).
  specialize (Hf n (keys bt)). rewrite Hn in Hf. cbn [snd] in Hf.
  unfold error_at. rewrite Hf. cbn.
  eexists _, l2, _. split; [done |]. split; [done |]. done.
Qed.

Lemma single_error_is_shared_witness :
  ∃ v l2 l',
    exec [] (LoadThunk (AInt 1) (NewDataLoader 0 0 one_error_for_all)).2 = Ret l2
    ∧ Load [] (AInt 1) (NewDataLoader 0 0 one_error_for_all)
      = Ret (v, Some (OtherError "E"), l')
    ∧ cache l' = cache l2.
Proof.
  apply single_error_is_shared; [| done | done].
  exists 0, 0, one_error_for_all, []. reflexivity.
Defined.

(** ** [Clear], [Prime] and [Load] together *)

Lemma cache_get_Clear key k (l : DataLoader.t) :
  cache_get k (Clear key l)
  = if decide (key = k) then None else cache_get k l.
Proof.
  unfold cache_get, Clear. cbn. destruct (cache l) as [c |]; cbn.
  - case_decide as E; [subst; apply lookup_delete_eq |].
    by apply lookup_delete_ne.
  - by case_decide.
Qed.

(** A key that is cached is answered from the cache: [Load] returns the
    value that was cached when the thunk was made, with no error,
    whatever happens before the thunk is called, and does nothing of its
    own to the loader. *)
Lemma Load_hit env key it (l : DataLoader.t) :
  cache_get key l = Some it →
  Load env key l = (l2 ← exec env l; Ret (it, None, l2)).
Proof. intros H. unfold Load, LoadThunk. by rewrite H. Qed.

(** X10. [Clear] forgets the key and nothing else: the other keys keep
    their values, the batches, the goroutines and the record of fetch
    calls stay as they are, a thunk that was handed out resolves as
    before, and on a loader whose cache was never written the call
    changes nothing. After [Clear] the next [LoadThunk] of the key puts
    it in a batch, and the next [Prime] of the key stores its value. *)
Theorem Clear_forgets_the_key_only key (l : DataLoader.t) :
  cache_get key (Clear key l) = None
  ∧ (∀ k, k ≠ key → cache_get k (Clear key l) = cache_get k l)
  ∧ (cache l = None → Clear key l = l)
  ∧ heap (Clear key l) = heap l ∧ batch (Clear key l) = batch l
  ∧ spawned (Clear key l) = spawned l ∧ fetched (Clear key l) = fetched l
  ∧ (∀ thunk v e, resolves thunk l v e ↔ resolves thunk (Clear key l) v e)
  ∧ (∃ b pos, (LoadThunk key (Clear key l)).1 = Waiting b pos key)
  ∧ (∀ value forcePrime,
       (DataLoader.Prime key value forcePrime (Clear key l)).1 = true
       ∧ cache_get key (DataLoader.Prime key value forcePrime (Clear key l)).2
         = Some value).
Proof.
  assert (cache_get key (Clear key l) = None) as Hc.
  { rewrite cache_get_Clear. by rewrite decide_True. }
  split; [done |].
  split. { intros k Hk. rewrite cache_get_Clear. by rewrite decide_False. }
  split. { intros H. destruct l. cbn in *. by subst. }
  split; [done |]. split; [done |]. split; [done |]. split; [done |].
  split. { by intros [it | b pos k] v e. }
  split.
  { unfold LoadThunk. rewrite Hc.
    destruct (batch (Clear key l)) as [b |].
    - destruct (keyIndex b key (Clear key l)) as [pos l1]. by exists b, pos.
    - destruct (keyIndex _ key _) as [pos l1]. by eexists _, pos. }
  intros value forcePrime. rewrite Prime_result, Hc.
  rewrite bool_decide_true by done. rewrite orb_true_r. cbn [fst snd].
  split; [done |]. rewrite cache_get_unsafeSet. by rewrite decide_True.
Qed.

(** X11. After a forced [Prime], [Load] of the key returns the primed
    value with no error, and after an unforced [Prime] it returns the
    value that was cached before or, when there was none, the primed
    value. The answer is the value in the cache at the time the thunk is
    made: what other goroutines do before the thunk is called does not
    change it, and [Load] itself leaves the loader as it is. *)
Theorem Prime_then_Load env key value (l : DataLoader.t) :
  Load env key (DataLoader.Prime key value true l).2
  = (l2 ← exec env (DataLoader.Prime key value true l).2; Ret (value, None, l2))
  ∧ Load env key (DataLoader.Prime key value false l).2
    = (l2 ← exec env (DataLoader.Prime key value false l).2;
       Ret (default value (cache_get key l), None, l2)).
Proof.
  split.
  - apply Load_hit. rewrite Prime_result. cbn [orb snd].
    rewrite cache_get_unsafeSet. by rewrite decide_True.
  - apply Load_hit. rewrite Prime_result. cbn [orb].
    destruct (cache_get key l) as [it |] eqn:Hc.
    + by rewrite bool_decide_false.
    + rewrite bool_decide_true by done. cbn [snd default].
      rewrite cache_get_unsafeSet. by rewrite decide_True.
Qed.

(** X12. A [Load] that returns a value with no error, for a key that was
    not cached or with no other goroutine at work in between, leaves the
    value in the cache, so that every later [Load] of the key from that
    state returns the same value with no error and makes no batch. *)
Theorem successful_Load_is_repeatable env key v (l l' : DataLoader.t) :
  env = [] ∨ cache_get key l = None →
  Load env key l = Ret (v, None, l') →
  cache_get key l' = Some v
  ∧ Load [] key l' = Ret (v, None, l')
  ∧ (∀ env', Load env' key l' = (l2 ← exec env' l'; Ret (v, None, l2))).
Proof.
  intros Hcase HL.
  assert (cache_get key l' = Some v) as Hc.
  { destruct (cache_get key l) as [it |] eqn:Hget.
    - destruct Hcase as [-> | ?]; [| done].
      rewrite (Load_hit [] key it l Hget) in HL. cbn in HL.
      by injection HL as -> ->.
    - unfold Load in HL. pose proof (LoadThunk_thunk key l) as Hth.
      destruct (LoadThunk key l) as [thunk l1]. cbn [fst] in Hth.
      destruct (exec env l1) as [l2 | |]; [| done | done].
      cbn [mbind Outcome_bind] in HL.
      destruct thunk as [it | b pos k]; [congruence |]. subst k.
      rewrite call_Waiting in HL.
      destruct (await b l2) as [l3 | |]; [| done | done].
      cbn [mbind Outcome_bind] in HL.
      destruct (error_at (deref b l3) pos) as [e | |]; [| done | done].
      cbn [mbind Outcome_bind] in HL. injection HL as <- -> <-.
      rewrite decide_True by done. rewrite cache_get_unsafeSet.
      by rewrite decide_True. }
  split; [done |].
  split; [by rewrite (Load_hit [] key v l' Hc) |].
  intros env'. by apply Load_hit.
Qed.

Lemma successful_Load_is_repeatable_witness :
  match Load [] (AInt 4) (NewDataLoader 2 10 double) with
  | Ret (v, e, l') => e = None ∧ Load [] (AInt 4) l' = Ret (v, None, l')
  | _ => False
  end.
Proof.
  assert (match Load [] (AInt 4) (NewDataLoader 2 10 double) with
          | Ret (_, e, _) => e = None
          | _ => False
          end) as He by (vm_compute; reflexivity).
  destruct (Load [] (AInt 4) (NewDataLoader 2 10 double))
    as [[[v e] l'] | |] eqn:HL; [| destruct He | destruct He].
  subst e. split; [reflexivity |].
  destruct (successful_Load_is_repeatable [] (AInt 4) v
              (NewDataLoader 2 10 double) l' (or_introl eq_refl) HL)
    as (_ & H & _).
  exact H.
Defined.

(** ** The dispatchers and their loaders *)

Section AttrLookup.
Import AttrDataLoader.

Lemma attr_loader_nil_init a (l : AttrDataLoader.t) :
  loaders l !! a = None → initLoaders l !! a = Some None →
  loader a l = Panics "nil function call".
Proof. intros H1 H2. unfold loader. by rewrite H1, H2. Qed.

Lemma attr_update_id a dl (l : AttrDataLoader.t) :
  loaders l !! a = Some (Some dl) → update a dl l = l.
Proof.
  intros H. destruct l. unfold update, set_loaders. cbn in *.
  f_equal. by apply insert_id.
Qed.

(** [loader] leaves the entries of the other attributes as they are. *)
Lemma attr_loader_frame a (l : AttrDataLoader.t) o l' :
  loader a l = Ret (o, l') →
  propagators l' = propagators l ∧ propagated l' = propagated l
  ∧ (∀ a', a' ≠ a → loaders l' !! a' = loaders l !! a'
                    ∧ initLoaders l' !! a' = initLoaders l !! a').
Proof.
  unfold loader. intros Hl.
  destruct (loaders l !! a) as [o0 |]; [by injection Hl as <- <- |].
  destruct (initLoaders l !! a) as [[f |] |]; [| done | by injection Hl as <- <-].
  injection Hl as <- <-. split; [done |]. split; [done |].
  intros a' Ha'. cbn. by rewrite !lookup_insert_ne.
Qed.

(** Every method that finds no loader function behind a registered
    attribute panics in [loader]. *)
Lemma attr_methods_nil_init a (l : AttrDataLoader.t) :
  loaders l !! a = None → initLoaders l !! a = Some None →
  (∀ env key, Load env a key l = Panics "nil function call")
  ∧ (∀ env keys, LoadAll env a keys l = Panics "nil function call")
  ∧ (∀ key value, Prime a key value l = Panics "nil function call")
  ∧ (∀ key value, ForcePrime a key value l = Panics "nil function call")
  ∧ (∀ key, Clear a key l = Panics "nil function call").
Proof.
  intros H1 H2. pose proof (attr_loader_nil_init a l H1 H2) as Hl.
  unfold Load, LoadAll, Prime, ForcePrime, prime, Clear. rewrite Hl.
  by repeat split.
Qed.

End AttrLookup.

Section ObjLookup.
Import ObjAttrDataLoader.

Lemma obj_update_id o al (l : ObjAttrDataLoader.t) :
  loaders l !! o = Some (Some al) → update o al l = l.
Proof.
  intros H. destruct l. unfold update. cbn in *. f_equal. by apply insert_id.
Qed.

Lemma obj_methods_nil_init o (l : ObjAttrDataLoader.t) :
  loaders l !! o = None → initLoaders l !! o = Some None →
  (∀ env a key, Load env o a key l = Panics "nil function call")
  ∧ (∀ env a keys, LoadAll env o a keys l = Panics "nil function call")
  ∧ (∀ a key value, Prime o a key value l = Panics "nil function call")
  ∧ (∀ a key value, ForcePrime o a key value l = Panics "nil function call")
  ∧ (∀ a key, Clear o a key l = Panics "nil function call").
Proof.
  intros H1 H2.
  assert (loader o l = Panics "nil function call") as Hl.
  { unfold loader. by rewrite H1, H2. }
  unfold Load, LoadAll, Prime, ForcePrime, prime, Clear. rewrite Hl.
  by repeat split.
Qed.

End ObjLookup.

(** X13. [Load] of the attribute dispatcher runs the propagator of the
    attribute exactly when the load returned no error and the attribute
    has a propagator: once, with the value that [Load] returns, whether
    it came from a fetch or from the cache. A load that returns an
    error, the error for an unregistered attribute among them, runs no
    propagator, and no call changes the registered propagators. *)
Theorem Load_runs_the_propagator_on_success env a key v e
    (l l' : AttrDataLoader.t) :
  attr_inv l → AttrDataLoader.Load env a key l = Ret (v, e, l') →
  AttrDataLoader.propagators l' = AttrDataLoader.propagators l
  ∧ AttrDataLoader.propagated l'
    = AttrDataLoader.propagated l
      ++ (if decide (e = None) then
            match AttrDataLoader.propagators l !! a with
            | Some _ => [(a, v)]
            | None => []
            end
          else []).
Proof.
  intros Hinv HL. unfold AttrDataLoader.Load in HL.
  destruct (AttrDataLoader.loader a l) as [[o l1] | |] eqn:Hl; [| done | done].
  cbn [mbind Outcome_bind] in HL.
  destruct (attr_loader_inv a l o l1 Hinv Hl) as (Hi1 & Hp1 & Hq1 & _ & Hs).
  destruct o as [dl |].
  - destruct (DataLoader.Load env key dl) as [[[v1 e1] dl1] | |]; [| done | done].
    cbn [mbind Outcome_bind] in HL.
    assert (attr_inv (AttrDataLoader.update a dl1 l1)) as Hi2.
    { apply attr_update_inv; [done |]. rewrite Hs; by eexists. }
    case_decide as He.
    + destruct (AttrDataLoader.RunPropagator v1 a (AttrDataLoader.update a dl1 l1))
        as [l2 | |] eqn:E; [| done | done].
      cbn [mbind Outcome_bind] in HL. injection HL as <- <- <-.
      destruct (attr_RunPropagator_inv _ _ _ _ Hi2 E) as (_ & Hp2 & Hq2).
      rewrite decide_True by done. cbn in Hp2, Hq2.
      split; [congruence |]. rewrite Hq2. by rewrite Hp1, Hq1.
    + cbn [mbind Outcome_bind] in HL. injection HL as <- <- <-.
      rewrite decide_False by done. rewrite app_nil_r. done.
  - injection HL as <- <- <-. rewrite decide_False by done.
    rewrite app_nil_r. done.
Qed.

Lemma Load_runs_the_propagator_on_success_witness :
  match AttrDataLoader.Load [] (AStr "id") (AInt 1) account_loader with
  | Ret (v, e, l') =>
      AttrDataLoader.propagated l' = [(AStr "id", AStr "ann@x")]
  | _ => False
  end.
Proof.
  assert (match AttrDataLoader.Load [] (AStr "id") (AInt 1) account_loader with
          | Ret (v, e, _) => v = AStr "ann@x" ∧ e = None
          | _ => False
          end) as Hve by (vm_compute; split; reflexivity).
  destruct (AttrDataLoader.Load [] (AStr "id") (AInt 1) account_loader)
    as [[[v e] l'] | |] eqn:HL; [| destruct Hve | destruct Hve].
  destruct Hve as [-> ->].
  destruct (Load_runs_the_propagator_on_success [] (AStr "id") (AInt 1) _ _
              account_loader l' (NewAttrDataLoader_inv _ _) HL) as [_ H].
  rewrite H. vm_compute. reflexivity.
Defined.

(** X14. An initializer that returns nil is run once, and from then on
    the attribute behaves as an unregistered one: [Load] and [LoadAll]
    return an [AttrNotRegError], [Prime] returns false, and no call
    changes the dispatcher or runs the initializer again. *)
Theorem initializer_returning_nil_unregisters env a key f
    (l : AttrDataLoader.t) :
  AttrDataLoader.loaders l !! a = None →
  AttrDataLoader.initLoaders l !! a = Some (Some f) →
  f tt = None →
  ∃ e l1,
    AttrDataLoader.Load env a key l = Ret (ANil, e, l1)
    ∧ isAttrNotRegError e = true
    ∧ AttrDataLoader.inited l1 = AttrDataLoader.inited l ++ [a]
    ∧ (∀ env' key', AttrDataLoader.Load env' a key' l1 = Ret (ANil, e, l1))
    ∧ (∀ env' keys, AttrDataLoader.LoadAll env' a keys l1 = Ret (None, [e], l1))
    ∧ (∀ key' value, AttrDataLoader.Prime a key' value l1 = Ret (false, l1))
    ∧ (∀ key' value, AttrDataLoader.ForcePrime a key' value l1 = Ret l1)
    ∧ (∀ key', AttrDataLoader.Clear a key' l1 = Ret l1).
Proof.
  intros H1 H2 Hf.
  assert (∃ l1, AttrDataLoader.loader a l = Ret (None, l1)
                ∧ AttrDataLoader.inited l1 = AttrDataLoader.inited l ++ [a]
                ∧ AttrDataLoader.loaders l1 !! a = Some None)
    as (l1 & Hl & Hi & Hk).
  { unfold AttrDataLoader.loader. rewrite H1, H2, Hf. eexists.
    split; [done |]. split; [done |]. cbn. apply lookup_insert_eq. }
  pose proof (attr_loader_known a None l1 Hk) as Hl1.
  eexists _, l1.
  unfold AttrDataLoader.Load, AttrDataLoader.LoadAll, AttrDataLoader.Prime,
    AttrDataLoader.ForcePrime, AttrDataLoader.prime, AttrDataLoader.Clear.
  rewrite Hl, Hl1. cbn [mbind Outcome_bind].
  by repeat split.
Qed.

Lemma initializer_returning_nil_unregisters_witness :
  let l := AttrDataLoader.NewAttrDataLoader
             (Some {[ AStr "id" := Some (λ _, None) ]}) None in
  ∃ e l1,
    AttrDataLoader.Load [] (AStr "id") (AInt 1) l = Ret (ANil, e, l1)
    ∧ isAttrNotRegError e = true
    ∧ AttrDataLoader.inited l1 = [AStr "id"]
    ∧ AttrDataLoader.Prime (AStr "id") (AInt 1) (AStr "v") l1 = Ret (false, l1).
Proof.
  intros l.
  destruct (initializer_returning_nil_unregisters [] (AStr "id") (AInt 1)
              (λ _, None) l)
    as (e & l1 & HL & He & Hi & _ & _ & HP & _);
    [reflexivity | reflexivity | reflexivity |].
  exists e, l1. split; [exact HL |]. split; [exact He |].
  split; [exact Hi | apply HP].
Defined.

(** X15. The constructors keep the map of initializers they are given,
    and [loader] overwrites the entry of an initializer it ran with nil.
    A second dispatcher made from the map of a dispatcher that has
    constructed the loader of an attribute therefore panics on every
    call for that attribute: it finds the entry and calls the nil
    function. The same for object types. *)
Theorem consumed_initializers_cannot_be_reused :
  (∀ a props (l : AttrDataLoader.t),
     attr_inv l → is_Some (AttrDataLoader.loaders l !! a) →
     let l2 := AttrDataLoader.NewAttrDataLoader
                 (Some (AttrDataLoader.initLoaders l)) props in
     (∀ env key, AttrDataLoader.Load env a key l2 = Panics "nil function call")
     ∧ (∀ env keys,
          AttrDataLoader.LoadAll env a keys l2 = Panics "nil function call")
     ∧ (∀ key value,
          AttrDataLoader.Prime a key value l2 = Panics "nil function call")
     ∧ (∀ key value,
          AttrDataLoader.ForcePrime a key value l2 = Panics "nil function call")
     ∧ (∀ key, AttrDataLoader.Clear a key l2 = Panics "nil function call"))
  ∧ (∀ o (l : ObjAttrDataLoader.t),
       obj_inv l → is_Some (ObjAttrDataLoader.loaders l !! o) →
       let l2 := ObjAttrDataLoader.NewObjAttrDataLoader
                   (Some (ObjAttrDataLoader.initLoaders l)) in
       (∀ env a key,
          ObjAttrDataLoader.Load env o a key l2 = Panics "nil function call")
       ∧ (∀ env a keys,
            ObjAttrDataLoader.LoadAll env o a keys l2
            = Panics "nil function call")
       ∧ (∀ a key value,
            ObjAttrDataLoader.Prime o a key value l2 = Panics "nil function call")
       ∧ (∀ a key value,
            ObjAttrDataLoader.ForcePrime o a key value l2
            = Panics "nil function call")
       ∧ (∀ a key,
            ObjAttrDataLoader.Clear o a key l2 = Panics "nil function call")).
Proof.
  split.
  - intros a props l Hinv Hs l2. apply attr_methods_nil_init.
    + apply lookup_empty.
    + by apply (ai_consumed l Hinv).
  - intros o l Hinv Hs l2. apply obj_methods_nil_init.
    + apply lookup_empty.
    + by apply (oi_consumed l Hinv).
Qed.

Lemma consumed_initializers_cannot_be_reused_witness :
  match AttrDataLoader.Prime (AStr "id") (AInt 1) (AStr "ann@x") account_loader with
  | Ret (_, l) =>
      AttrDataLoader.Load [] (AStr "id") (AInt 1)
        (AttrDataLoader.NewAttrDataLoader
           (Some (AttrDataLoader.initLoaders l)) None)
      = Panics "nil function call"
  | _ => False
  end.
Proof.
  assert (match AttrDataLoader.Prime (AStr "id") (AInt 1) (AStr "ann@x")
                  account_loader with
          | Ret (_, l) => is_Some (AttrDataLoader.loaders l !! AStr "id")
          | _ => False
          end) as Hs by (vm_compute; by eexists).
  destruct (AttrDataLoader.Prime (AStr "id") (AInt 1) (AStr "ann@x") account_loader)
    as [[r l] | |] eqn:HP; [| destruct Hs | destruct Hs].
  destruct consumed_initializers_cannot_be_reused as [HA _].
  assert (attr_inv l) as Hinv.
  { by destruct (attr_prime_inv (AStr "id") (AInt 1) (AStr "ann@x") false
                    account_loader r l (NewAttrDataLoader_inv _ _) HP). }
  destruct (HA (AStr "id") None l Hinv Hs) as (H & _). apply H.
Defined.

(** X16. [Prime], [ForcePrime] and [Clear] of the attribute dispatcher
    work on the loader of their attribute only: the loaders and the
    initializers of the other attributes, the propagators and the record
    of propagator calls are as before, so no other attribute is
    initialized and no propagator runs. *)
Theorem prime_and_Clear_touch_one_attribute a key (l l' : AttrDataLoader.t) :
  (∃ value forcePrime r,
      AttrDataLoader.prime a key value forcePrime l = Ret (r, l'))
  ∨ AttrDataLoader.Clear a key l = Ret l' →
  AttrDataLoader.propagators l' = AttrDataLoader.propagators l
  ∧ AttrDataLoader.propagated l' = AttrDataLoader.propagated l
  ∧ (∀ a', a' ≠ a →
       AttrDataLoader.loaders l' !! a' = AttrDataLoader.loaders l !! a'
       ∧ AttrDataLoader.initLoaders l' !! a' = AttrDataLoader.initLoaders l !! a').
Proof.
  intros [(value & forcePrime & r & H) | H].
  - unfold AttrDataLoader.prime in H.
    destruct (AttrDataLoader.loader a l) as [[o l1] | |] eqn:Hl; [| done | done].
    cbn [mbind Outcome_bind] in H.
    destruct (attr_loader_frame a l o l1 Hl) as (Hp & Hq & Hf).
    destruct o as [dl |]; [| by injection H as <- <-].
    destruct (DataLoader.prime key value forcePrime dl) as [r' dl'].
    injection H as <- <-. split; [done |]. split; [done |].
    intros a' Ha'. cbn. rewrite lookup_insert_ne by done. by apply Hf.
  - unfold AttrDataLoader.Clear in H.
    destruct (AttrDataLoader.loader a l) as [[o l1] | |] eqn:Hl; [| done | done].
    cbn [mbind Outcome_bind] in H.
    destruct (attr_loader_frame a l o l1 Hl) as (Hp & Hq & Hf).
    destruct o as [dl |]; [| by injection H as <-].
    injection H as <-. split; [done |]. split; [done |].
    intros a' Ha'. cbn. rewrite lookup_insert_ne by done. by apply Hf.
Qed.

Lemma prime_and_Clear_touch_one_attribute_witness :
  match AttrDataLoader.Clear (AStr "id") (AInt 1) account_loader with
  | Ret l' =>
      AttrDataLoader.loaders l' !! AStr "email" = None
      ∧ AttrDataLoader.propagated l' = []
  | _ => False
  end.
Proof.
  assert (match AttrDataLoader.Clear (AStr "id") (AInt 1) account_loader with
          | Ret _ => True
          | _ => False
          end) as Hr by (vm_compute; exact I).
  destruct (AttrDataLoader.Clear (AStr "id") (AInt 1) account_loader)
    as [l' | |] eqn:HC; [| destruct Hr | destruct Hr].
  destruct (prime_and_Clear_touch_one_attribute (AStr "id") (AInt 1)
              account_loader l' (or_intror HC)) as (_ & Hq & Hf).
  destruct (Hf (AStr "email")) as [H _]; [discriminate |].
  split; [rewrite H | rewrite Hq]; vm_compute; reflexivity.
Defined.

(** X17. After [ForcePrime] on an attribute that has a loader, [Load] of
    the key is answered from the cache of that loader: it returns the
    primed value with no error, makes no batch, and runs the propagator
    of the attribute, if it has one, on the primed value. An unforced
    [Prime] of the key then returns false and changes nothing. *)
Theorem ForcePrime_then_Load a key value dl1 (l l1 : AttrDataLoader.t) :
  AttrDataLoader.ForcePrime a key value l = Ret l1 →
  AttrDataLoader.loaders l1 !! a = Some (Some dl1) →
  cache_get key dl1 = Some value
  ∧ AttrDataLoader.Load [] a key l1
    = (l2 ← AttrDataLoader.RunPropagator value a l1; Ret (value, None, l2))
  ∧ (∀ value', AttrDataLoader.Prime a key value' l1 = Ret (false, l1)).
Proof.
  intros HF Hk.
  assert (cache_get key dl1 = Some value) as Hc.
  { unfold AttrDataLoader.ForcePrime, AttrDataLoader.prime in HF.
    destruct (AttrDataLoader.loader a l) as [[o l0] | |] eqn:Hl; [| done | done].
    cbn [mbind Outcome_bind] in HF. destruct o as [dl |].
    - unfold DataLoader.prime in HF. rewrite Prime_result in HF.
      cbn in HF. injection HF as <-. cbn in Hk.
      rewrite lookup_insert_eq in Hk. injection Hk as <-.
      rewrite cache_get_unsafeSet. by rewrite decide_True.
    - cbn in HF. injection HF as ->. unfold AttrDataLoader.loader in Hl.
      destruct (AttrDataLoader.loaders l !! a) as [o0 |] eqn:E.
      { injection Hl as -> <-. congruence. }
      destruct (AttrDataLoader.initLoaders l !! a) as [[f |] |];
        [| done | injection Hl as <-; congruence].
      injection Hl as Hf <-. cbn in Hk. rewrite lookup_insert_eq in Hk.
      congruence. }
  pose proof (attr_loader_known a (Some dl1) l1 Hk) as Hl1.
  split; [done |]. split.
  - unfold AttrDataLoader.Load. rewrite Hl1. cbn [mbind Outcome_bind].
    rewrite (Load_hit [] key value dl1 Hc). cbn [exec mbind Outcome_bind].
    rewrite (attr_update_id a dl1 l1 Hk). by rewrite decide_True.
  - intros value'. unfold AttrDataLoader.Prime, AttrDataLoader.prime.
    rewrite Hl1. cbn [mbind Outcome_bind].
    unfold DataLoader.prime. rewrite Prime_result, Hc.
    rewrite bool_decide_false by done. cbn.
    by rewrite (attr_update_id a dl1 l1 Hk).
Qed.

Lemma ForcePrime_then_Load_witness :
  match AttrDataLoader.ForcePrime (AStr "email") (AStr "ann@x") (AInt 1)
          account_loader with
  | Ret l1 =>
      ∃ l2, AttrDataLoader.Load [] (AStr "email") (AStr "ann@x") l1
            = Ret (AInt 1, None, l2)
  | _ => False
  end.
Proof.
  assert (match AttrDataLoader.ForcePrime (AStr "email") (AStr "ann@x") (AInt 1)
                  account_loader with
          | Ret l1 =>
              AttrDataLoader.propagators l1 !! AStr "email" = None
              ∧ match AttrDataLoader.loaders l1 !! AStr "email" with
                | Some (Some _) => True
                | _ => False
                end
          | _ => False
          end) as Hs by (vm_compute; split; [reflexivity | exact I]).
  destruct (AttrDataLoader.ForcePrime (AStr "email") (AStr "ann@x") (AInt 1)
              account_loader) as [l1 | |] eqn:HF; [| destruct Hs | destruct Hs].
  destruct Hs as [Hp Hs].
  destruct (AttrDataLoader.loaders l1 !! AStr "email") as [[dl1 |] |] eqn:Hk;
    [| destruct Hs | destruct Hs].
  destruct (ForcePrime_then_Load (AStr "email") (AStr "ann@x") (AInt 1) dl1
              account_loader l1 HF Hk) as (_ & HL & _).
  exists l1. rewrite HL. unfold AttrDataLoader.RunPropagator. rewrite Hp.
  reflexivity.
Defined.

(** X18. On an object type that is not registered, [Prime] and
    [ForcePrime] of the object dispatcher return false and [Clear]
    returns the dispatcher, and none of them changes it. *)
Theorem unregistered_object_type_is_left_alone o (l : ObjAttrDataLoader.t) :
  obj_unregistered o l →
  (∀ a key value, ObjAttrDataLoader.Prime o a key value l = Ret (false, l))
  ∧ (∀ a key value, ObjAttrDataLoader.ForcePrime o a key value l = Ret (false, l))
  ∧ (∀ a key, ObjAttrDataLoader.Clear o a key l = Ret l).
Proof.
  intros H. pose proof (obj_loader_unregistered _ _ H) as Hl.
  unfold ObjAttrDataLoader.Prime, ObjAttrDataLoader.ForcePrime,
    ObjAttrDataLoader.prime, ObjAttrDataLoader.Clear.
  rewrite Hl. by repeat split.
Qed.

Lemma unregistered_object_type_is_left_alone_witness :
  let l := ObjAttrDataLoader.NewObjAttrDataLoader None in
  ObjAttrDataLoader.ForcePrime (AStr "account") (AStr "id") (AInt 1) (AStr "v") l
  = Ret (false, l).
Proof.
  intros l.
  destruct (unregistered_object_type_is_left_alone (AStr "account") l)
    as (_ & H & _); [split; reflexivity |].
  apply H.
Defined.

(** X19. The object dispatcher hands the answer of the attribute
    dispatcher on as it is. For an attribute that is not registered
    with the loader of a registered object type, [Load] and [LoadAll]
    return the [AttrNotRegError] of the attribute layer, which is no
    [ObjTypeNotRegError] and no loading error, [Prime] and [ForcePrime]
    return false, and no call changes the dispatcher. *)
Theorem unregistered_attribute_of_a_registered_type o a al
    (l : ObjAttrDataLoader.t) :
  ObjAttrDataLoader.loaders l !! o = Some (Some al) →
  attr_unregistered a al →
  ∃ e,
    isAttrNotRegError e = true ∧ isObjTypeNotRegError e = false
    ∧ IsLoadingError e = false
    ∧ (∀ env key, ObjAttrDataLoader.Load env o a key l = Ret (ANil, e, l))
    ∧ (∀ env keys, ObjAttrDataLoader.LoadAll env o a keys l = Ret (None, [e], l))
    ∧ (∀ key value, ObjAttrDataLoader.Prime o a key value l = Ret (false, l))
    ∧ (∀ key value, ObjAttrDataLoader.ForcePrime o a key value l = Ret (false, l))
    ∧ (∀ key, ObjAttrDataLoader.Clear o a key l = Ret l).
Proof.
  intros Hk Hu. pose proof (obj_loader_known o (Some al) l Hk) as Hl.
  pose proof (attr_loader_unregistered _ _ Hu) as Hal.
  pose proof (obj_update_id o al l Hk) as Hid.
  eexists.
  unfold ObjAttrDataLoader.Load, ObjAttrDataLoader.LoadAll,
    ObjAttrDataLoader.Prime, ObjAttrDataLoader.ForcePrime,
    ObjAttrDataLoader.prime, ObjAttrDataLoader.Clear,
    AttrDataLoader.Load, AttrDataLoader.LoadAll, AttrDataLoader.prime,
    AttrDataLoader.Clear.
  rewrite Hl. cbn [mbind Outcome_bind]. rewrite Hal. cbn [mbind Outcome_bind].
  rewrite Hid. by repeat split.
Qed.

Lemma unregistered_attribute_of_a_registered_type_witness :
  let al := AttrDataLoader.NewAttrDataLoader None None in
  let l := ObjAttrDataLoader.update (AStr "account") al
             (ObjAttrDataLoader.NewObjAttrDataLoader None) in
  ∃ e, IsLoadingError e = false
       ∧ ObjAttrDataLoader.Load [] (AStr "account") (AStr "id") (AInt 1) l
         = Ret (ANil, e, l).
Proof.
  intros al l.
  destruct (unregistered_attribute_of_a_registered_type (AStr "account")
              (AStr "id") al l) as (e & _ & _ & He & HL & _);
    [reflexivity | split; reflexivity |].
  exists e. split; [exact He | apply HL].
Defined.

(** X20. Through the three layers: after [ForcePrime] of the object
    dispatcher on an object type and an attribute that have their
    loaders, with no propagator for the attribute, [ForcePrime] returns
    true, [Load] of the key returns the primed value with no error and
    changes nothing, an unforced [Prime] returns false, and after
    [Clear] an unforced [Prime] returns true again. *)
Theorem object_ForcePrime_then_Load o a key value al dl
    (l : ObjAttrDataLoader.t) :
  ObjAttrDataLoader.loaders l !! o = Some (Some al) →
  AttrDataLoader.loaders al !! a = Some (Some dl) →
  AttrDataLoader.propagators al !! a = None →
  ∃ l1,
    ObjAttrDataLoader.ForcePrime o a key value l = Ret (true, l1)
    ∧ ObjAttrDataLoader.Load [] o a key l1 = Ret (value, None, l1)
    ∧ (∀ value', ObjAttrDataLoader.Prime o a key value' l1 = Ret (false, l1))
    ∧ ∃ l2, ObjAttrDataLoader.Clear o a key l1 = Ret l2
            ∧ ∀ value', ∃ l3,
                ObjAttrDataLoader.Prime o a key value' l2 = Ret (true, l3)
                ∧ ObjAttrDataLoader.Load [] o a key l3 = Ret (value', None, l3).
Proof.
  intros Hk Hka Hp.
  (* what every call sees: the loaders of the two layers *)
  assert (∀ (l0 : ObjAttrDataLoader.t) al0 dl0 c,
            ObjAttrDataLoader.loaders l0 !! o = Some (Some al0) →
            AttrDataLoader.loaders al0 !! a = Some (Some dl0) →
            AttrDataLoader.propagators al0 !! a = None →
            cache_get key dl0 = c →
            (∀ v f,
               ObjAttrDataLoader.prime o a key v f l0
               = Ret ((DataLoader.Prime key v f dl0).1,
                      ObjAttrDataLoader.update o
                        (AttrDataLoader.update a (DataLoader.Prime key v f dl0).2 al0)
                        l0))
            ∧ ObjAttrDataLoader.Clear o a key l0
              = Ret (ObjAttrDataLoader.update o
                       (AttrDataLoader.update a (DataLoader.Clear key dl0) al0) l0)
            ∧ (∀ it, c = Some it →
                 ObjAttrDataLoader.Load [] o a key l0 = Ret (it, None, l0)))
    as Hcalls.
  { intros l0 al0 dl0 c H1 H2 H3 H4.
    pose proof (obj_loader_known o (Some al0) l0 H1) as Hl.
    pose proof (attr_loader_known a (Some dl0) al0 H2) as Hal.
    split; [| split].
    - intros v f. unfold ObjAttrDataLoader.prime, AttrDataLoader.prime.
      rewrite Hl. cbn [mbind Outcome_bind]. rewrite Hal.
      cbn [mbind Outcome_bind]. unfold DataLoader.prime.
      by destruct (DataLoader.Prime key v f dl0).
    - unfold ObjAttrDataLoader.Clear, AttrDataLoader.Clear.
      rewrite Hl. cbn [mbind Outcome_bind]. by rewrite Hal.
    - intros it ->. unfold ObjAttrDataLoader.Load, AttrDataLoader.Load.
      rewrite Hl. cbn [mbind Outcome_bind]. rewrite Hal.
      cbn [mbind Outcome_bind]. rewrite (Load_hit [] key it dl0 H4).
      cbn [exec mbind Outcome_bind]. rewrite (attr_update_id a dl0 al0 H2).
      rewrite decide_True by done. unfold AttrDataLoader.RunPropagator.
      rewrite H3. cbn [mbind Outcome_bind].
      by rewrite (obj_update_id o al0 l0 H1). }
  assert (∀ (l0 : ObjAttrDataLoader.t) al0,
            ObjAttrDataLoader.loaders (ObjAttrDataLoader.update o al0 l0) !! o
            = Some (Some al0)) as Hou.
  { intros. cbn. apply lookup_insert_eq. }
  assert (∀ (al0 : AttrDataLoader.t) dl0,
            AttrDataLoader.loaders (AttrDataLoader.update a dl0 al0) !! a
            = Some (Some dl0)) as Hau.
  { intros. cbn. apply lookup_insert_eq. }
  destruct (Hcalls l al dl _ Hk Hka Hp eq_refl) as (HP & _ & _).
  set (dl1 := unsafeSet key value dl).
  set (l1 := ObjAttrDataLoader.update o (AttrDataLoader.update a dl1 al) l).
  assert (cache_get key dl1 = Some value) as Hc1.
  { unfold dl1. rewrite cache_get_unsafeSet. by rewrite decide_True. }
  destruct (Hcalls l1 (AttrDataLoader.update a dl1 al) dl1 _
              (Hou _ _) (Hau _ _) Hp eq_refl) as (HP1 & HC1 & HL1).
  exists l1. split.
  { unfold ObjAttrDataLoader.ForcePrime. rewrite HP. by rewrite Prime_result. }
  split; [by apply HL1 |].
  split.
  { intros value'. unfold ObjAttrDataLoader.Prime. rewrite HP1.
    rewrite Prime_result, Hc1. rewrite bool_decide_false by done. cbn.
    rewrite (attr_update_id a dl1 _ (Hau _ _)).
    by rewrite (obj_update_id o _ l1 (Hou _ _)). }
  eexists. split; [exact HC1 |]. intros value'.
  set (dl2 := DataLoader.Clear key dl1).
  set (al2 := AttrDataLoader.update a dl2 (AttrDataLoader.update a dl1 al)).
  assert (cache_get key dl2 = None) as Hc2.
  { unfold dl2. rewrite cache_get_Clear. by rewrite decide_True. }
  destruct (Hcalls (ObjAttrDataLoader.update o al2 l1) al2 dl2 _
              (Hou _ _) (Hau _ _) Hp eq_refl) as (HP2 & _ & _).
  eexists. split.
  { unfold ObjAttrDataLoader.Prime. rewrite HP2.
    rewrite Prime_result, Hc2. rewrite bool_decide_true by done. cbn. done. }
  set (dl3 := unsafeSet key value' dl2).
  assert (cache_get key dl3 = Some value') as Hc3.
  { unfold dl3. rewrite cache_get_unsafeSet. by rewrite decide_True. }
  destruct (Hcalls (ObjAttrDataLoader.update o (AttrDataLoader.update a dl3 al2)
                      (ObjAttrDataLoader.update o al2 l1))
              (AttrDataLoader.update a dl3 al2) dl3 _
              (Hou _ _) (Hau _ _) Hp eq_refl) as (_ & _ & HL3).
  by apply HL3.
Qed.

Lemma object_ForcePrime_then_Load_witness :
  let dl := NewDataLoader 0 0 double in
  let al := AttrDataLoader.update (AStr "id") dl
              (AttrDataLoader.NewAttrDataLoader None None) in
  let l := ObjAttrDataLoader.update (AStr "account") al
             (ObjAttrDataLoader.NewObjAttrDataLoader None) in
  ∃ l1,
    ObjAttrDataLoader.ForcePrime (AStr "account") (AStr "id") (AInt 1) (AStr "v") l
    = Ret (true, l1)
    ∧ ObjAttrDataLoader.Load [] (AStr "account") (AStr "id") (AInt 1) l1
      = Ret (AStr "v", None, l1).
Proof.
  intros dl al l.
  destruct (object_ForcePrime_then_Load (AStr "account") (AStr "id") (AInt 1)
              (AStr "v") al dl l) as (l1 & HF & HL & _);
    [reflexivity | reflexivity | reflexivity |].
  exists l1. split; [exact HF | exact HL].
Defined.

(** ** [LoadAll] with no other goroutine at work *)

Lemma roomy_capped (l : DataLoader.t) n pos :
  roomy l n → (pos < n)%nat → capped l pos = false.
Proof.
  intros [H | H] Hpos.
  - unfold capped. rewrite H. reflexivity.
  - rewrite capped_positive by lia. apply bool_decide_eq_false. lia.
Qed.

Lemma add_key_length ks key :
  (length ks ≤ length (add_key ks key))%nat
  ∧ (key ∉ ks → length (add_key ks key) = S (length ks)).
Proof.
  unfold add_key. case_decide; [split; [lia | done] |].
  rewrite length_app. cbn. split; [lia |]. intros _. lia.
Qed.

Lemma foldl_add_key_length keys :
  ∀ ks, (length ks ≤ length (foldl add_key ks keys))%nat.
Proof.
  induction keys as [| key keys IH]; intros ks; cbn [foldl]; [lia |].
  specialize (IH (add_key ks key)).
  destruct (add_key_length ks key). lia.
Qed.

Lemma foldl_add_key_elem keys :
  ∀ ks key, key ∈ foldl add_key ks keys ↔ key ∈ ks ∨ key ∈ keys.
Proof.
  induction keys as [| k keys IH]; intros ks key; cbn [foldl].
  - rewrite elem_of_nil. naive_solver.
  - rewrite IH, elem_of_cons. unfold add_key. case_decide.
    + naive_solver.
    + rewrite elem_of_app, list_elem_of_singleton. naive_solver.
Qed.

Lemma foldl_add_key_NoDup keys :
  ∀ ks, NoDup ks → NoDup (foldl add_key ks keys).
Proof.
  induction keys as [| k keys IH]; intros ks Hnd; cbn [foldl]; [done |].
  apply IH. unfold add_key. case_decide; [done |].
  apply NoDup_app. split; [done |]. split; [| apply NoDup_singleton].
  intros x Hx Hs. apply list_elem_of_singleton in Hs. by subst.
Qed.

(** [LoadThunk] of a key that is not cached, with room in the batch: the
    key goes to the current batch, or to a new one that is then the
    current batch. *)
Lemma LoadThunk_pending key (l : DataLoader.t) :
  inv l → cache_get key l = None →
  (key ∉ pending l → capped l (length (pending l)) = false) →
  ∃ b pos,
    (LoadThunk key l).1 = Waiting b pos key
    ∧ batch (LoadThunk key l).2 = Some b
    ∧ (∀ b0, batch l = Some b0 → b0 = b)
    ∧ pending (LoadThunk key l).2 = add_key (pending l) key
    ∧ fetched (LoadThunk key l).2 = fetched l.
Proof.
  intros Hinv Hc Hcap. unfold pending in *.
  destruct (batch l) as [b |] eqn:Hcur.
  - destruct (lookup_lt_is_Some_2 (heap l) b (inv_cur l Hinv b Hcur)) as [bt Hbt].
    rewrite (deref_lookup b bt l Hbt) in *.
    unfold LoadThunk. rewrite Hc, Hcur.
    rewrite (keyIndex_current b bt key l Hinv Hbt Hcur).
    pose proof (scan_spec key (keys bt) 0) as Hscan.
    destruct (scan key (keys bt) 0) as [i |].
    + destruct Hscan as [_ Hi]. apply list_elem_of_lookup_2 in Hi.
      exists b, i. cbn [fst snd]. rewrite Hcur, (deref_lookup b bt l Hbt).
      unfold add_key. rewrite decide_True by done.
      split; [done |]. split; [done |]. split; [by intros ? [= ->] |]. done.
    + rewrite (Hcap Hscan). exists b, (length (keys bt)). cbn [fst snd].
      split; [done |]. split; [done |]. split; [by intros ? [= ->] |].
      split; [| done]. cbn [batch store set_heap]. rewrite Hcur.
      rewrite deref_store by (by apply lookup_lt_Some in Hbt). cbn [keys].
      unfold add_key. by rewrite decide_False.
  - rewrite (LoadThunk_fresh key l Hc Hcur). cbn [fst snd].
    pose proof (Hcap (not_elem_of_nil key)) as Hcap0. cbn [length] in Hcap0.
    rewrite Hcap0.
    exists (length (heap l)), 0%nat. cbn [batch fetched].
    split; [done |]. split; [done |]. split; [done |]. split; [| done].
    unfold deref. cbn [heap].
    rewrite (list_lookup_total_correct _ _ (mkBatch [key] [] None false false));
      [| by rewrite lookup_app_r, Nat.sub_diag].
    done.
Qed.

Lemma misses_cache keys (l l' : DataLoader.t) :
  cache l' = cache l → misses l' keys = misses l keys.
Proof. intros H. unfold misses, cache_get. by rewrite H. Qed.

(** The first loop of a quiet [LoadAll] with room in the batch: the keys
    that are cached get the cached value, the other keys go to one
    batch, which stays the current batch, and nothing is fetched. *)
Lemma LoadAll_enqueue_idle keys :
  ∀ i results (l : DataLoader.t) results' l',
    inv l →
    roomy l (length (foldl add_key (pending l) (misses l keys))) →
    (i + length keys ≤ length results)%nat →
    LoadAll_enqueue idle i keys results l = Ret (results', l') →
    pending l' = foldl add_key (pending l) (misses l keys)
    ∧ fetched l' = fetched l
    ∧ cache l' = cache l
    ∧ (∀ j, (j < i)%nat → results' !! j = results !! j)
    ∧ (∀ b0, batch l = Some b0 → batch l' = Some b0)
    ∧ (∀ j key, keys !! j = Some key →
         match cache_get key l with
         | Some it => results' !! (i + j)%nat = Some (Some (Cached it))
         | None =>
             ∃ b pos, batch l' = Some b
                      ∧ results' !! (i + j)%nat = Some (Some (Waiting b pos key))
         end).
Proof.
  induction keys as [| key keys IH]; intros i results l results' l' Hinv Hroom
    Hlen HE; cbn [LoadAll_enqueue] in HE.
  - injection HE as <- <-. repeat split; try done.
  - change (exec (idle i) l) with (Ret l) in HE. cbn [mbind Outcome_bind] in HE.
    cbn [length] in Hlen. unfold misses in Hroom |- *.
    rewrite filter_cons in Hroom |- *. fold (misses l keys) in Hroom |- *.
    destruct (cache_get key l) as [it |] eqn:Hc.
    + (* a cached key *)
      rewrite decide_False in Hroom |- * by done.
      assert (LoadThunk key l = (Cached it, l)) as HLT.
      { unfold LoadThunk. by rewrite Hc. }
      rewrite HLT in HE.
      destruct (IH (S i) (<[i:=Some (Cached it)]> results) l results' l')
        as (Hp' & Hf' & Hc' & Hlow & Hkeep & Hall);
        [done | done | rewrite length_insert; lia | done |].
      split; [done |]. split; [done |]. split; [done |].
      split.
      { intros j Hj. rewrite Hlow by lia. apply list_lookup_insert_ne. lia. }
      split; [done |].
      intros j k Hj. destruct j as [| j]; cbn in Hj.
      * injection Hj as <-. rewrite Hc, Nat.add_0_r, Hlow by lia.
        apply list_lookup_insert_eq. lia.
      * replace (i + S j)%nat with (S i + j)%nat by lia. by apply Hall.
    + (* a key that is not cached *)
      rewrite decide_True in Hroom |- * by done. cbn [foldl] in Hroom |- *.
      destruct (LoadThunk_pending key l Hinv Hc)
        as (b & pos & Hth & Hb & Hsame & Hp & Hf).
      { intros Hnot. apply (roomy_capped l _ _ Hroom).
        pose proof (foldl_add_key_length (misses l keys) (add_key (pending l) key)).
        destruct (add_key_length (pending l) key) as [_ Hadd].
        rewrite Hadd in H by done. lia. }
      destruct (LoadThunk_inv key l Hinv) as (Hinv1 & Hev1 & Hc1 & _).
      destruct (LoadThunk key l) as [thunk l1]. cbn [fst snd] in *. subst thunk.
      destruct (IH (S i) (<[i:=Some (Waiting b pos key)]> results) l1 results' l')
        as (Hp' & Hf' & Hc' & Hlow & Hkeep & Hall).
      { done. }
      { rewrite Hp, (misses_cache keys l l1 Hc1).
        destruct Hroom as [Hz | Hz]; [left | right];
          by rewrite (ev_maxBatch _ _ Hev1). }
      { rewrite length_insert. lia. }
      { done. }
      rewrite (misses_cache keys l l1 Hc1) in Hp'.
      split; [by rewrite Hp', Hp |]. split; [congruence |].
      split; [congruence |].
      split.
      { intros j Hj. rewrite Hlow by lia. apply list_lookup_insert_ne. lia. }
      split.
      { intros b0 Hb0. apply Hkeep. by rewrite (Hsame b0 Hb0) in *. }
      intros j k Hj. destruct j as [| j]; cbn in Hj.
      * injection Hj as <-. rewrite Hc. exists b, pos.
        split; [by apply Hkeep |]. rewrite Nat.add_0_r, Hlow by lia.
        apply list_lookup_insert_eq. lia.
      * replace (i + S j)%nat with (S i + j)%nat by lia.
        specialize (Hall j k Hj). unfold cache_get in Hall |- *.
        by rewrite Hc1 in Hall.
Qed.

(** Waiting for the current batch runs its timer and its [end], which
    makes the one fetch of the batch. *)
Lemma await_current b bt (l : DataLoader.t) :
  inv l → batch l = Some b → heap l !! b = Some bt →
  ∃ l' bt',
    await b l = Ret l' ∧ batch l' = None
    ∧ heap l' !! b = Some bt' ∧ done bt' = true
    ∧ fetched l'
      = fetched l ++ [mkFetchCall b (keys bt)
                        (fetch l (length (fetched l)) (keys bt)).1
                        (fetch l (length (fetched l)) (keys bt)).2].
Proof.
  intros Hinv Hcur Hbt.
  pose proof (inv_batch l Hinv b bt Hbt) as Hb.
  destruct (proj1 (bi_open l b bt Hb) Hcur) as [Hcl Ht].
  pose proof (bi_once l b bt Hb) as Honce. rewrite Hcl, Ht in Honce.
  assert (done bt = false) as Hd by (apply (not_done_yet l b bt Hb); lia).
  unfold await. rewrite (deref_lookup b bt l Hbt), Hd.
  destruct (sched_cases (GoStartTimer b) l Hinv)
    as [[Hno _] | [(b1 & gs & Hg & Htake & Hs) | (b1 & gs & ? & ? & ? & Hg & _)]];
    [| | done].
  { apply count_occ_zero in Hno. unfold timers in Ht. lia. }
  injection Hg as <-. rewrite Hs. cbn [mbind Outcome_bind].
  pose proof (startTimer_inv b gs l Hinv Htake) as Hinv1.
  assert (startTimer b (set_spawned gs l)
          = go (GoEnd b) (set_batch None (set_spawned gs l))) as Hst.
  { unfold startTimer.
    replace (deref b (set_spawned gs l)) with bt
      by (symmetry; by apply deref_lookup).
    by rewrite Hcl. }
  rewrite Hst in *.
  set (l1 := go (GoEnd b) (set_batch None (set_spawned gs l))) in *.
  destruct (sched_cases (GoEnd b) l1 Hinv1)
    as [[Hno _] | [(b2 & gs2 & Hg & _) | (b2 & gs2 & bt2 & vs & es & Hg & Htake2
                                            & Hbt2 & Hd2 & Hfetch & Hs2)]];
    [| done |].
  { exfalso. apply Hno. unfold l1, go. cbn. apply elem_of_app. right. by left. }
  injection Hg as <-. rewrite Hs2. cbn [mbind Outcome_bind].
  assert (bt2 = bt) as -> by (cbn in Hbt2; congruence).
  cbn [fetch fetched l1 go set_batch set_spawned] in Hfetch.
  rewrite deref_store by (cbn; by apply lookup_lt_Some in Hbt). cbn [done].
  eexists _, _. split; [done |]. split; [done |].
  split.
  { cbn. apply list_lookup_insert_eq. by apply lookup_lt_Some in Hbt. }
  split; [done |]. cbn. by rewrite Hfetch.
Qed.

(** Calls of thunks that hold a cached value, or belong to a batch that
    is done, fetch nothing. *)
Lemma LoadAll_resolve_done n b results :
  ∀ i values errors (l : DataLoader.t) bt values' errors' l',
    heap l !! b = Some bt → done bt = true →
    (∀ f, f ∈ results →
          (∃ it, f = Some (Cached it)) ∨ (∃ pos key, f = Some (Waiting b pos key))) →
    LoadAll_resolve idle n i results values errors l = Ret (values', errors', l') →
    fetched l' = fetched l ∧ batch l' = batch l.
Proof.
  induction results as [| f results IH];
    intros i values errors l bt values' errors' l' Hbt Hd Hres HR;
    cbn [LoadAll_resolve] in HR.
  - by injection HR as <- <- <-.
  - change (exec (idle (n + i)%nat) l) with (Ret l) in HR.
    cbn [mbind Outcome_bind] in HR.
    assert (∀ f, f ∈ results →
              (∃ it, f = Some (Cached it))
              ∨ (∃ pos key, f = Some (Waiting b pos key))) as Hrest.
    { intros f' Hf'. apply Hres. by right. }
    destruct (Hres f) as [[it ->] | (pos & key & ->)]; [by left | |].
    { cbn [call_func call mbind Outcome_bind] in HR. by eapply IH. }
    cbn [call_func] in HR. rewrite call_Waiting in HR.
    assert (await b l = Ret l) as Ha.
    { unfold await. by rewrite (deref_lookup b bt l Hbt), Hd. }
    rewrite Ha in HR. cbn [mbind Outcome_bind] in HR.
    destruct (error_at (deref b l) pos) as [e | |]; [| done | done].
    cbn [mbind Outcome_bind] in HR.
    apply IH with (bt := bt) in HR.
    + destruct HR as [-> ->]. by case_decide.
    + by case_decide.
    + done.
    + done.
Qed.

(** The first thunk of the current batch that is called makes the fetch
    of the batch. *)
Lemma LoadAll_resolve_current n b bt results :
  ∀ i values errors (l : DataLoader.t) values' errors' l',
    inv l → batch l = Some b → heap l !! b = Some bt →
    (∀ f, f ∈ results →
          (∃ it, f = Some (Cached it)) ∨ (∃ pos key, f = Some (Waiting b pos key))) →
    (∃ pos key, Some (Waiting b pos key) ∈ results) →
    LoadAll_resolve idle n i results values errors l = Ret (values', errors', l') →
    batch l' = None
    ∧ fetched l'
      = fetched l ++ [mkFetchCall b (keys bt)
                        (fetch l (length (fetched l)) (keys bt)).1
                        (fetch l (length (fetched l)) (keys bt)).2].
Proof.
  induction results as [| f results IH];
    intros i values errors l values' errors' l' Hinv Hcur Hbt Hres Hex HR.
  { destruct Hex as (pos & key & Hin). by apply elem_of_nil in Hin. }
  cbn [LoadAll_resolve] in HR.
  change (exec (idle (n + i)%nat) l) with (Ret l) in HR.
  cbn [mbind Outcome_bind] in HR.
  assert (∀ f, f ∈ results →
            (∃ it, f = Some (Cached it))
            ∨ (∃ pos key, f = Some (Waiting b pos key))) as Hrest.
  { intros f' Hf'. apply Hres. by right. }
  destruct (Hres f) as [[it ->] | (pos & key & ->)]; [by left | |].
  { cbn [call_func call mbind Outcome_bind] in HR.
    eapply (IH _ _ _ l); [done | done | done | done | | exact HR].
    destruct Hex as (pos & key & Hin). exists pos, key.
    by apply elem_of_cons in Hin as [? | ?]. }
  cbn [call_func] in HR. rewrite call_Waiting in HR.
  destruct (await_current b bt l Hinv Hcur Hbt)
    as (l1 & bt1 & Ha & Hb1 & Hbt1 & Hd1 & Hf1).
  rewrite Ha in HR. cbn [mbind Outcome_bind] in HR.
  destruct (error_at (deref b l1) pos) as [e | |]; [| done | done].
  cbn [mbind Outcome_bind] in HR.
  apply LoadAll_resolve_done with (b := b) (bt := bt1) in HR.
  - destruct HR as [-> ->]. by case_decide.
  - by case_decide.
  - done.
  - done.
Qed.

(** X21. A quiet [LoadAll]: on a loader in a state it can reach, with a
    fetcher that keeps to its contract, no other goroutine at work, at
    least one key that is not cached and a batch that stays below the
    cap (no cap, or a cap above the number of keys waiting), [LoadAll]
    makes exactly one call of fetch. The call receives the keys the
    current batch was waiting with followed by the keys of the call that
    are not cached, each once, in the order of their first occurrence.
    An index of a cached key holds the cached value and no error; every
    other index holds the value and the error that the call returned at
    the position of its key. Afterwards the loader has no current
    batch. *)
Theorem LoadAll_fetches_once keys (l : DataLoader.t) :
  reachable l → well_behaved (fetch l) → misses l keys ≠ [] →
  roomy l (length (foldl add_key (pending l) (misses l keys))) →
  ∃ values errors l' b bt,
    LoadAll idle keys l = Ret (values, errors, l')
    ∧ batch l' = None
    ∧ heap l' !! b = Some bt
    ∧ DataLoader.keys bt = foldl add_key (pending l) (misses l keys)
    ∧ NoDup (DataLoader.keys bt)
    ∧ (data bt, error bt) = fetch l (length (fetched l)) (DataLoader.keys bt)
    ∧ fetched l'
      = fetched l ++ [mkFetchCall b (DataLoader.keys bt) (data bt) (error bt)]
    ∧ ∀ i key, keys !! i = Some key →
        match cache_get key l with
        | Some it => values !! i = Some it ∧ errors !! i = Some None
        | None =>
            ∃ pos e,
              DataLoader.keys bt !! pos = Some key
              ∧ values !! i = Some (value_at bt pos)
              ∧ errors !! i = Some e
              ∧ error_at bt pos = Ret e
        end.
Proof.
  intros Hr Hwb Hne Hroom. unfold LoadAll.
  pose proof (reachable_inv l Hr) as Hinv.
  destruct (LoadAll_enqueue_spec idle keys 0 (replicate (length keys) None) l
              Hr Hwb) as (results & l1 & HE & Hr1 & Hev1 & Hlen1 & _ & Hkeys).
  { rewrite length_replicate. lia. }
  rewrite HE. cbn [mbind Outcome_bind]. rewrite length_replicate in Hlen1.
  destruct (LoadAll_enqueue_idle keys 0 (replicate (length keys) None) l
              results l1 Hinv Hroom)
    as (Hp1 & Hf1 & Hc1 & _ & _ & Hshape); [rewrite length_replicate; lia | done |].
  (* some key is not cached: the loader has a current batch *)
  assert (∃ j key, keys !! j = Some key ∧ cache_get key l = None)
    as (j0 & key0 & Hj0 & Hmiss0).
  { destruct (misses l keys) as [| k ks] eqn:Hm; [done |].
    assert (k ∈ misses l keys) as Hk by (rewrite Hm; by left).
    apply list_elem_of_filter in Hk as [Hk1 Hk2].
    apply list_elem_of_lookup in Hk2 as [j Hj]. by exists j, k. }
  pose proof (Hshape j0 key0 Hj0) as H0. rewrite Hmiss0 in H0.
  destruct H0 as (b & pos0 & Hb1 & Hpos0). cbn in Hpos0.
  pose proof (reachable_inv l1 Hr1) as Hinv1.
  destruct (lookup_lt_is_Some_2 (heap l1) b (inv_cur l1 Hinv1 b Hb1)) as [bt1 Hbt1].
  assert (DataLoader.keys bt1 = foldl add_key (pending l) (misses l keys)) as Hk1.
  { rewrite <- Hp1. unfold pending. by rewrite Hb1, (deref_lookup b bt1 l1 Hbt1). }
  assert (∀ f, f ∈ results →
            (∃ it, f = Some (Cached it))
            ∨ (∃ pos key, f = Some (Waiting b pos key))) as Hres.
  { intros f Hf. apply list_elem_of_lookup in Hf as [j Hj].
    assert (j < length keys)%nat as Hlt.
    { apply lookup_lt_Some in Hj. lia. }
    destruct (lookup_lt_is_Some_2 keys j Hlt) as [key Hkey].
    pose proof (Hshape j key Hkey) as Hs. cbn in Hs.
    destruct (cache_get key l) as [it |].
    - left. exists it. congruence.
    - right. destruct Hs as (b' & pos & Hb' & Hpos).
      exists pos, key. congruence. }
  destruct (LoadAll_resolve_spec idle (length keys) results 0
              (replicate (length keys) ANil) (replicate (length keys) None) l1)
    as (values & errors & l' & HR & Hr' & Hev' & Hlv & Hle & _ & Hall).
  { done. }
  { by rewrite (ev_fetch _ _ Hev1). }
  { intros f Hf. apply list_elem_of_lookup in Hf as [j Hj].
    assert (j < length keys)%nat as Hlt.
    { apply lookup_lt_Some in Hj. lia. }
    destruct (lookup_lt_is_Some_2 keys j Hlt) as [key Hkey].
    destruct (Hkeys j key Hkey) as (thunk & l0 & H1 & _ & _ & _ & _ & H6).
    cbn in H1. exists thunk. split; [congruence | done]. }
  { rewrite length_replicate. lia. }
  { rewrite length_replicate. lia. }
  rewrite HR.
  destruct (LoadAll_resolve_current (length keys) b bt1 results 0
              (replicate (length keys) ANil) (replicate (length keys) None) l1
              values errors l' Hinv1 Hb1 Hbt1 Hres) as [Hb' Hf']; [| done |].
  { exists pos0, key0. by apply list_elem_of_lookup_2 in Hpos0. }
  pose proof (reachable_inv l' Hr') as Hinv'.
  destruct (ev_heap _ _ Hev' b bt1 Hbt1) as (bt & Hbt & _ & _).
  destruct (bi_fetched l' b bt (inv_batch l' Hinv' b bt Hbt)
              (mkFetchCall b (DataLoader.keys bt1)
                 (fetch l1 (length (fetched l1)) (DataLoader.keys bt1)).1
                 (fetch l1 (length (fetched l1)) (DataLoader.keys bt1)).2))
    as (Hkk & Hdd & Hee); [| done |].
  { rewrite Hf'. apply elem_of_app. right. by left. }
  cbn in Hkk, Hdd, Hee.
  rewrite (ev_fetch _ _ Hev1), Hf1 in Hdd, Hee, Hf'.
  exists values, errors, l', b, bt.
  split; [done |]. split; [done |]. split; [done |].
  split; [congruence |].
  split; [apply (bi_nodup l' b bt (inv_batch l' Hinv' b bt Hbt)) |].
  split.
  { rewrite <- Hdd, <- Hee, <- Hkk. by destruct (fetch l _ _). }
  split.
  { rewrite Hf', <- Hdd, <- Hee, <- Hkk. done. }
  intros i key Hkey.
  pose proof (Hshape i key Hkey) as Hs. cbn in Hs.
  destruct (cache_get key l) as [it |].
  - destruct (Hall i _ Hs) as (v & e & Hv & He & [-> ->]). done.
  - destruct Hs as (b' & pos & Hcur' & Hpos).
    assert (b' = b) as -> by congruence.
    destruct (Hall i _ Hpos) as (v & e & Hv & He & Hresolves). cbn in Hv, He.
    destruct Hresolves as (bt' & Hbt' & _ & -> & Herr).
    assert (bt' = bt) as -> by congruence.
    destruct (Hkeys i key Hkey) as (thunk & l0 & H1 & _ & _ & _ & _ & Hiss).
    cbn in H1. assert (thunk = Waiting b pos key) as -> by congruence.
    pose proof (issued_evolves _ _ _ Hev' Hiss) as Hiss'.
    destruct (issued_valid _ _ _ _ Hiss') as (bt'' & Hbt'' & Hpk).
    assert (bt'' = bt) as -> by congruence.
    by exists pos, e.
Qed.

Lemma LoadAll_fetches_once_witness :
  ∃ values errors l' b bt,
    LoadAll idle [AInt 1; AInt 2; AInt 1; AInt 3] (NewDataLoader 0 10 double)
    = Ret (values, errors, l')
    ∧ DataLoader.keys bt = [AInt 1; AInt 2; AInt 3]
    ∧ fetched l' = [mkFetchCall b (DataLoader.keys bt) (data bt) (error bt)].
Proof.
  destruct (LoadAll_fetches_once [AInt 1; AInt 2; AInt 1; AInt 3]
              (NewDataLoader 0 10 double))
    as (values & errors & l' & b & bt & HL & _ & _ & Hk & _ & _ & Hf & _).
  - exists 0, 10, double, []. reflexivity.
  - intros n ks. by left.
  - discriminate.
  - by left.
  - exists values, errors, l', b, bt. split; [exact HL |].
    split; [exact Hk | exact Hf].
Defined.

(** The two loops of [LoadAll] on keys that are all cached. *)
Lemma LoadAll_enqueue_cached keys :
  ∀ i results (l : DataLoader.t),
    (∀ key, key ∈ keys → is_Some (cache_get key l)) →
    (i + length keys ≤ length results)%nat →
    ∃ results',
      LoadAll_enqueue idle i keys results l = Ret (results', l)
      ∧ length results' = length results
      ∧ (∀ j, (j < i)%nat → results' !! j = results !! j)
      ∧ (∀ j key, keys !! j = Some key →
           ∃ it, cache_get key l = Some it
                 ∧ results' !! (i + j)%nat = Some (Some (Cached it))).
Proof.
  induction keys as [| key keys IH]; intros i results l Hc Hlen;
    cbn [LoadAll_enqueue].
  - exists results. repeat split; try done.
  - change (exec (idle i) l) with (Ret l). cbn [mbind Outcome_bind].
    cbn [length] in Hlen.
    destruct (Hc key) as [it Hit]; [by left |].
    assert (LoadThunk key l = (Cached it, l)) as ->.
    { unfold LoadThunk. by rewrite Hit. }
    destruct (IH (S i) (<[i:=Some (Cached it)]> results) l)
      as (results' & HE & Hlen' & Hlow & Hall).
    { intros k Hk. apply Hc. by right. }
    { rewrite length_insert. lia. }
    exists results'. split; [done |].
    split; [by rewrite Hlen', length_insert |].
    split.
    { intros j Hj. rewrite Hlow by lia. apply list_lookup_insert_ne. lia. }
    intros j k Hj. destruct j as [| j]; cbn in Hj.
    + injection Hj as <-. exists it. split; [done |].
      rewrite Nat.add_0_r, Hlow by lia. apply list_lookup_insert_eq. lia.
    + replace (i + S j)%nat with (S i + j)%nat by lia. by apply Hall.
Qed.

Lemma LoadAll_resolve_cached n results :
  ∀ i values errors (l : DataLoader.t),
    (∀ f, f ∈ results → ∃ it, f = Some (Cached it)) →
    (i + length results ≤ length values)%nat →
    (i + length results ≤ length errors)%nat →
    ∃ values' errors',
      LoadAll_resolve idle n i results values errors l = Ret (values', errors', l)
      ∧ length values' = length values ∧ length errors' = length errors
      ∧ (∀ j, (j < i)%nat →
           values' !! j = values !! j ∧ errors' !! j = errors !! j)
      ∧ (∀ j it, results !! j = Some (Some (Cached it)) →
           values' !! (i + j)%nat = Some it
           ∧ errors' !! (i + j)%nat = Some None).
Proof.
  unfold Go.error.
  induction results as [| f results IH]; intros i values errors l Hres Hlv Hle;
    cbn [LoadAll_resolve].
  - exists values, errors. repeat split; try done.
  - change (exec (idle (n + i)%nat) l) with (Ret l). cbn [mbind Outcome_bind].
    cbn [length] in Hlv, Hle.
    destruct (Hres f) as [it ->]; [by left |].
    cbn [call_func call mbind Outcome_bind].
    match goal with
    | |- context [LoadAll_resolve _ _ _ _ ?vs ?es _] =>
        destruct (IH (S i) vs es l)
          as (values' & errors' & HR & Hlv' & Hle' & Hlow & Hall)
    end.
    { intros f Hf. apply Hres. by right. }
    { rewrite length_insert. lia. }
    { rewrite length_insert. lia. }
    exists values', errors'. split; [done |].
    split; [by rewrite Hlv', length_insert |].
    split; [by rewrite Hle', length_insert |].
    split.
    { intros j Hj. destruct (Hlow j) as [-> ->]; [lia |].
      split; apply list_lookup_insert_ne; lia. }
    intros j it' Hj. destruct j as [| j]; cbn in Hj.
    + injection Hj as <-. rewrite Nat.add_0_r.
      destruct (Hlow i) as [-> ->]; [lia |].
      split; apply list_lookup_insert_eq; lia.
    + replace (i + S j)%nat with (S i + j)%nat by lia. by apply Hall.
Qed.

(** X22. [LoadAll] of keys that are all cached, with no other goroutine
    at work, returns the cached values in the order of the keys and a
    nil error at every index, and leaves the loader as it is: no batch
    is made, no goroutine is started and nothing is fetched. This holds
    of every loader, whatever its batches. *)
Theorem LoadAll_of_cached_keys keys (l : DataLoader.t) :
  (∀ key, key ∈ keys → is_Some (cache_get key l)) →
  LoadAll idle keys l
  = Ret (map (λ key, default ANil (cache_get key l)) keys,
         replicate (length keys) None, l).
Proof.
  intros Hc. unfold LoadAll.
  destruct (LoadAll_enqueue_cached keys 0 (replicate (length keys) None) l Hc)
    as (results & -> & Hlen & _ & Hthunks).
  { rewrite length_replicate. lia. }
  cbn [mbind Outcome_bind]. rewrite length_replicate in Hlen.
  destruct (LoadAll_resolve_cached (length keys) results 0
              (replicate (length keys) ANil) (replicate (length keys) None) l)
    as (values & errors & -> & Hlv & Hle & _ & Hall).
  { intros f Hf. apply list_elem_of_lookup in Hf as [j Hj].
    assert (j < length keys)%nat as Hlt.
    { apply lookup_lt_Some in Hj. lia. }
    destruct (lookup_lt_is_Some_2 keys j Hlt) as [key Hkey].
    destruct (Hthunks j key Hkey) as (it & _ & Hit). cbn in Hit.
    exists it. congruence. }
  { rewrite length_replicate. lia. }
  { rewrite length_replicate. lia. }
  rewrite length_replicate in Hlv. rewrite length_replicate in Hle.
  assert (values = map (λ key, default ANil (cache_get key l)) keys) as ->.
  { apply list_eq. intros j. rewrite list_lookup_fmap.
    destruct (keys !! j) as [key |] eqn:Hkey; cbn.
    - destruct (Hthunks j key Hkey) as (it & Hit & Hj). cbn in Hj.
      destruct (Hall j it Hj) as [Hv _]. cbn in Hv. by rewrite Hv, Hit.
    - apply lookup_ge_None. apply lookup_ge_None in Hkey. lia. }
  assert (errors = replicate (length keys) None) as ->; [| done].
  apply list_eq. intros j.
  destruct (keys !! j) as [key |] eqn:Hkey.
  - destruct (Hthunks j key Hkey) as (it & Hit & Hj). cbn in Hj.
    destruct (Hall j it Hj) as [_ He]. cbn in He.
    etrans; [exact He |]. symmetry.
    apply lookup_replicate_2. by apply lookup_lt_Some in Hkey.
  - apply lookup_ge_None in Hkey.
    etrans; [apply lookup_ge_None; lia |].
    symmetry. apply lookup_ge_None. rewrite length_replicate. lia.
Qed.

Lemma LoadAll_of_cached_keys_witness :
  let l := (DataLoader.Prime (AInt 1) (AStr "a") false
              (NewDataLoader 0 10 double)).2 in
  LoadAll idle [AInt 1; AInt 1] l = Ret ([AStr "a"; AStr "a"], [None; None], l).
Proof.
  intros l.
  rewrite (LoadAll_of_cached_keys [AInt 1; AInt 1] l); [reflexivity |].
  intros key Hk. apply elem_of_cons in Hk as [-> | Hk].
  - by eexists.
  - apply list_elem_of_singleton in Hk as ->. by eexists.
Defined.

(** ** The order of the fetches *)

Lemma undone_ext bs :
  ∀ dn dn', (∀ b, b ∈ bs → dn b = dn' b) → undone dn bs = undone dn' bs.
Proof.
  induction bs as [| b bs IH]; intros dn dn' H; cbn [undone]; [done |].
  rewrite (H b) by (by left). destruct (dn' b).
  - apply IH. intros b' Hb'. apply H. by right.
  - f_equal. apply IH. intros b' Hb'. cbn. rewrite (H b') by (by right). done.
Qed.

Lemma undone_twice b bs :
  undone (λ _, false) (b :: b :: bs) = undone (λ _, false) (b :: bs).
Proof. cbn [undone]. by rewrite bool_decide_true. Qed.

Lemma undone_fresh b bs :
  b ∉ bs →
  undone (λ _, false) (b :: bs) = b :: undone (λ _, false) bs.
Proof.
  intros Hb. cbn [undone]. f_equal. apply undone_ext. intros b' Hb'.
  rewrite bool_decide_false; [done |]. intros ->. done.
Qed.

Lemma deref_eq b (l l' : DataLoader.t) :
  heap l' !! b = heap l !! b → deref b l' = deref b l.
Proof. intros H. unfold deref. rewrite !list_lookup_total_alt. by rewrite H. Qed.

(** Waiting for a batch that is not done runs its timer and its [end]:
    one fetch with the keys of the batch, whose result is stored in the
    batch; no other batch changes. *)
Lemma await_pending b bt (l : DataLoader.t) :
  inv l → heap l !! b = Some bt → done bt = false →
  ∃ l' vs es,
    await b l = Ret l'
    ∧ fetch l (length (fetched l)) (keys bt) = (vs, es)
    ∧ fetched l' = fetched l ++ [mkFetchCall b (keys bt) vs es]
    ∧ heap l' = <[b := mkBatch (keys bt) vs es (closing bt) true]> (heap l).
Proof.
  intros Hinv Hbt Hd.
  destruct (await_inv b l Hinv) as (l' & Ha & _);
    [by apply lookup_lt_Some in Hbt |].
  exists l'. rewrite Ha. unfold await in Ha.
  rewrite (deref_lookup b bt l Hbt), Hd in Ha.
  destruct (sched_inv (GoStartTimer b) l Hinv) as (l1 & E1 & Hinv1 & _).
  assert (heap l1 = heap l ∧ fetched l1 = fetched l ∧ fetch l1 = fetch l)
    as (Hh1 & Hf1 & Hfe1).
  { destruct (sched_cases (GoStartTimer b) l Hinv)
      as [[_ E] | [(b1 & gs & _ & _ & E) | (b1 & gs & ? & ? & ? & Hg & _)]];
      [| | done]; rewrite E in E1; injection E1 as <-; [done |].
    unfold startTimer. by destruct (closing _). }
  rewrite E1 in Ha. cbn [mbind Outcome_bind] in Ha.
  assert (heap l1 !! b = Some bt) as Hbt1 by (by rewrite Hh1).
  destruct (sched_cases (GoEnd b) l1 Hinv1)
    as [[_ E] | [(b2 & gs2 & Hg & _)
                | (b2 & gs2 & bt2 & vs & es & Hg & _ & Hbt2 & _ & Hfetch & E)]];
    [| done |]; rewrite E in Ha; cbn [mbind Outcome_bind] in Ha.
  { by rewrite (deref_lookup b bt l1 Hbt1), Hd in Ha. }
  injection Hg as <-. assert (bt2 = bt) as -> by congruence.
  rewrite deref_store in Ha by (cbn; by apply lookup_lt_Some in Hbt1).
  cbn [done] in Ha. injection Ha as <-.
  rewrite Hf1, Hfe1 in Hfetch. exists vs, es.
  split; [done |]. split; [done |]. cbn. by rewrite Hf1, Hh1.
Qed.

(** The second loop of a quiet [LoadAll]: fetch is called once for every
    batch among the thunks that is not done, in the order in which the
    thunks reach the batches, with the keys of the batch. *)
Lemma LoadAll_resolve_fetches n results :
  ∀ i values errors (l : DataLoader.t) values' errors' l',
    inv l →
    (∀ f, f ∈ results → ∃ thunk, f = Some thunk ∧ issued thunk l = true) →
    LoadAll_resolve idle n i results values errors l = Ret (values', errors', l') →
    ∃ cs,
      fetched l' = fetched l ++ cs
      ∧ fc_batch <$> cs = undone (λ b, done (deref b l)) (batches_of results)
      ∧ Forall (λ c, fc_keys c = keys (deref (fc_batch c) l)) cs.
Proof.
  induction results as [| f results IH];
    intros i values errors l values' errors' l' Hinv Hiss HR;
    cbn [LoadAll_resolve] in HR.
  { injection HR as <- <- <-. exists []. by rewrite app_nil_r. }
  change (exec (idle (n + i)%nat) l) with (Ret l) in HR.
  cbn [mbind Outcome_bind] in HR.
  destruct (Hiss f) as (thunk & -> & Hi); [by left |].
  cbn [call_func] in HR.
  destruct (call thunk l) as [[[v e] l2] | |] eqn:Hc; [| done | done].
  cbn [mbind Outcome_bind] in HR.
  destruct (call_inv thunk l v e l2 Hinv Hi Hc) as [Hinv2 Hev2].
  assert (∀ f, f ∈ results → ∃ th, f = Some th ∧ issued th l2 = true) as Hiss2.
  { intros f Hf. destruct (Hiss f) as (th & -> & Hth); [by right |].
    exists th. split; [done |]. by eapply issued_evolves. }
  destruct (IH (S i) (<[i:=v]> values) (<[i:=e]> errors) l2 values' errors' l'
              Hinv2 Hiss2 HR) as (cs2 & Hf2 & Hb2 & Hk2).
  destruct thunk as [it | b pos key].
  { cbn in Hc. injection Hc as <- <- <-. exists cs2. done. }
  change (batches_of (Some (Waiting b pos key) :: results))
    with (b :: batches_of results).
  destruct (issued_valid b pos key l Hi) as (bt & Hbt & _).
  rewrite call_Waiting in Hc. cbn [undone].
  rewrite (deref_lookup b bt l Hbt).
  destruct (done bt) eqn:Hd.
  - (* the batch is done: nothing is fetched *)
    assert (await b l = Ret l) as Ha.
    { unfold await. by rewrite (deref_lookup b bt l Hbt), Hd. }
    rewrite Ha in Hc. cbn [mbind Outcome_bind] in Hc.
    destruct (error_at (deref b l) pos) as [e0 | |]; [| done | done].
    cbn [mbind Outcome_bind] in Hc. injection Hc as <- <- <-.
    match type of Hf2 with context [fetched ?x ++ _] => set (l2 := x) in * end.
    assert (heap l2 = heap l) as Hh by (unfold l2; by case_decide).
    assert (fetched l2 = fetched l) as Hf by (unfold l2; by case_decide).
    exists cs2. rewrite Hf in Hf2. split; [done |].
    unfold deref in *. rewrite Hh in Hb2, Hk2. done.
  - (* the batch is fetched now *)
    destruct (await_pending b bt l Hinv Hbt Hd)
      as (l1 & vs & es & Ha & Hfetch & Hf1 & Hh1).
    rewrite Ha in Hc. cbn [mbind Outcome_bind] in Hc.
    destruct (error_at (deref b l1) pos) as [e0 | |]; [| done | done].
    cbn [mbind Outcome_bind] in Hc. injection Hc as <- <- <-.
    match type of Hf2 with context [fetched ?x ++ _] => set (l2 := x) in * end.
    assert (heap l2 = heap l1) as Hh by (unfold l2; by case_decide).
    assert (fetched l2 = fetched l1) as Hf by (unfold l2; by case_decide).
    rewrite Hf, Hf1 in Hf2. unfold deref in Hb2, Hk2. rewrite Hh, Hh1 in Hb2, Hk2.
    assert (b < length (heap l))%nat as Hlt by (by apply lookup_lt_Some in Hbt).
    exists (mkFetchCall b (keys bt) vs es :: cs2).
    split; [by rewrite Hf2, <- app_assoc |].
    split.
    + cbn [fmap list_fmap fc_batch]. f_equal. rewrite Hb2.
      apply undone_ext. intros b' _. unfold deref.
      destruct (decide (b' = b)) as [-> | Hne].
      * rewrite list_lookup_total_insert_eq by done.
        by rewrite bool_decide_true.
      * rewrite list_lookup_total_insert_ne by done.
        by rewrite bool_decide_false.
    + apply Forall_cons. split.
      * cbn [fc_keys fc_batch]. by rewrite (deref_lookup b bt l Hbt).
      * eapply Forall_impl; [exact Hk2 |]. intros c Hc. cbn in Hc. rewrite Hc.
        unfold deref. destruct (decide (fc_batch c = b)) as [-> | Hne].
        -- rewrite list_lookup_total_insert_eq by done. cbn.
           by rewrite (list_lookup_total_correct _ _ _ Hbt).
        -- by rewrite list_lookup_total_insert_ne.
Qed.

(** ** The batches a quiet [LoadAll] fills *)

(** [LoadThunk] of a key that is neither cached nor waiting in the
    current batch: the key is appended to the current batch, or to a new
    one, and the size test then closes the batch or leaves it current. *)
Lemma LoadThunk_miss key (l : DataLoader.t) :
  inv l → cache_get key l = None → key ∉ pending l →
  ∃ b pos,
    (LoadThunk key l).1 = Waiting b pos key
    ∧ (batch l = Some b ∨ (batch l = None ∧ b = length (heap l)))
    ∧ (b < length (heap (LoadThunk key l).2))%nat
    ∧ keys (deref b (LoadThunk key l).2) = pending l ++ [key]
    ∧ closing (deref b (LoadThunk key l).2) = capped l (length (pending l))
    ∧ done (deref b (LoadThunk key l).2) = false
    ∧ batch (LoadThunk key l).2
      = (if capped l (length (pending l)) then None else Some b)
    ∧ fetched (LoadThunk key l).2 = fetched l
    ∧ (length (heap l) ≤ length (heap (LoadThunk key l).2))%nat
    ∧ (∀ b', b' ≠ b → heap (LoadThunk key l).2 !! b' = heap l !! b').
Proof.
  intros Hinv Hc Hnot. unfold pending in *.
  destruct (batch l) as [b |] eqn:Hcur.
  - destruct (lookup_lt_is_Some_2 (heap l) b (inv_cur l Hinv b Hcur)) as [bt Hbt].
    assert (b < length (heap l))%nat as Hlt by (by apply lookup_lt_Some in Hbt).
    rewrite (deref_lookup b bt l Hbt) in *.
    pose proof (inv_batch l Hinv b bt Hbt) as Hb.
    assert (done bt = false) as Hd.
    { destruct (proj1 (bi_open l b bt Hb) Hcur) as [Hcl Ht].
      pose proof (bi_once l b bt Hb) as Honce. rewrite Hcl, Ht in Honce.
      apply (not_done_yet l b bt Hb). lia. }
    unfold LoadThunk. rewrite Hc, Hcur.
    rewrite (keyIndex_current b bt key l Hinv Hbt Hcur).
    rewrite (scan_None key (keys bt) 0 Hnot).
    exists b, (length (keys bt)). cbn [fst snd].
    split; [done |]. split; [by left |].
    destruct (capped l (length (keys bt))); cbn [batch fetched heap go set_batch
      set_spawned store set_heap].
    + rewrite length_insert. split; [done |].
      unfold deref. cbn [heap go set_batch set_spawned store set_heap].
      rewrite list_lookup_total_insert_eq by done.
      cbn [keys closing done]. repeat split; try done.
      intros b' Hb'. by apply list_lookup_insert_ne.
    + rewrite length_insert. split; [done |].
      unfold deref. cbn [heap go set_batch set_spawned store set_heap].
      rewrite list_lookup_total_insert_eq by done.
      cbn [keys closing done]. repeat split; try done.
      intros b' Hb'. by apply list_lookup_insert_ne.
  - rewrite (LoadThunk_fresh key l Hc Hcur). cbn [fst snd length].
    exists (length (heap l)), 0%nat. cbn [batch fetched heap].
    split; [done |]. split; [by right |].
    rewrite length_app. cbn [length]. split; [lia |].
    unfold deref. cbn [heap].
    rewrite (list_lookup_total_correct _ _
               (mkBatch [key] [] None (capped l 0) false));
      [| by rewrite lookup_app_r, Nat.sub_diag].
    cbn [keys closing done]. split; [done |]. split; [done |].
    split; [done |]. split; [by destruct (capped l 0) |].
    split; [done |]. split; [lia |].
    intros b' Hb'. destruct (decide (b' < length (heap l))%nat).
    + by apply lookup_app_l.
    + rewrite !(proj2 (lookup_ge_None _ _)); [done | lia |].
      rewrite length_app. cbn. lia.
Qed.

(** With a positive cap, a batch holds at most [maxBatch] keys, the
    current batch fewer, and a batch that is closing exactly
    [maxBatch]. *)
Lemma batch_sizes (l : DataLoader.t) :
  reachable l → 0 < maxBatch l < 2 ^ 63 →
  ∀ b bt, heap l !! b = Some bt →
    Z.of_nat (length (keys bt)) ≤ maxBatch l
    ∧ (batch l = Some b → Z.of_nat (length (keys bt)) < maxBatch l)
    ∧ (closing bt = true → Z.of_nat (length (keys bt)) = maxBatch l).
Proof.
  intros Hr Hmax. revert Hmax. pattern l. revert l Hr.
  apply reachable_invariant.
  - intros maxBatch wait fetch _ b bt Hb. cbn in Hb. by rewrite lookup_nil in Hb.
  - intros e l l' Hinv IH Hs Hmax b bt' Hb.
    rewrite (step_maxBatch e l l' Hinv Hs) in *. specialize (IH Hmax).
    destruct (step_enqueued e l l' b bt' Hinv Hs Hb)
      as [bt Hbt Hk Hc Hcur | bt key Hbt Hcur Hk Hc Hiff | key Hbt Hcur Hk Hc Hiff].
    + destruct (IH b bt Hbt) as (H1 & H2 & H3). rewrite Hk, Hc.
      split; [done |]. split; [| done]. intros Hx. apply H2. by apply Hcur.
    + destruct (IH b bt Hbt) as (H1 & H2 & H3). specialize (H2 Hcur).
      rewrite Hk, Hc, length_app. cbn [length].
      rewrite capped_positive in * by done.
      split; [lia |]. split.
      * intros Hx. apply Hiff in Hx. apply bool_decide_eq_false in Hx. lia.
      * intros Hx. apply bool_decide_eq_true in Hx. lia.
    + rewrite Hk, Hc. cbn [length]. rewrite capped_positive in * by done.
      split; [lia |]. split.
      * intros Hx. apply Hiff in Hx. apply bool_decide_eq_false in Hx. lia.
      * intros Hx. apply bool_decide_eq_true in Hx. lia.
Qed.

(** The first loop of a quiet [LoadAll] on keys that are not cached and
    not waiting: every key is appended to the batch that is current when
    its turn comes. The batches of the thunks, in the order of the
    thunks, hold the waiting keys followed by the keys of the call; all
    of them but the last one are closing, none is done, and nothing is
    fetched. *)
Lemma LoadAll_enqueue_batches keys :
  ∀ i results (l : DataLoader.t) results' l',
    inv l → (∀ key, key ∈ keys → cache_get key l = None) →
    NoDup (pending l ++ keys) →
    (i + length keys = length results)%nat →
    LoadAll_enqueue idle i keys results l = Ret (results', l') →
    fetched l' = fetched l
    ∧ (length (heap l) ≤ length (heap l'))%nat
    ∧ length results' = length results
    ∧ (∀ j, (j < i)%nat → results' !! j = results !! j)
    ∧ (keys = [] → l' = l)
    ∧ (∀ b, batch l ≠ Some b → (b < length (heap l))%nat →
            heap l' !! b = heap l !! b)
    ∧ (∀ b, b ∈ batches_of (drop i results') →
            (batch l = Some b ∨ (length (heap l) ≤ b)%nat)
            ∧ done (deref b l') = false)
    ∧ (∀ b0, batch l = Some b0 → keys ≠ [] →
             head (batches_of (drop i results')) = Some b0)
    ∧ (keys ≠ [] →
       concat ((λ b, DataLoader.keys (deref b l'))
                 <$> undone (λ _, false) (batches_of (drop i results')))
       = pending l ++ keys)
    ∧ (∀ j b,
         undone (λ _, false) (batches_of (drop i results')) !! j = Some b →
         (S j < length (undone (λ _, false) (batches_of (drop i results'))))%nat →
         closing (deref b l') = true).
Proof.
  induction keys as [| key keys IH]; intros i results l results' l' Hinv Hc Hnd
    Hlen HE; cbn [LoadAll_enqueue] in HE.
  { injection HE as <- <-. cbn [length] in Hlen.
    rewrite drop_ge by lia. cbn.
    repeat split; try done; by match goal with H : _ ∈ [] |- _ =>
                                  apply elem_of_nil in H end. }
  change (exec (idle i) l) with (Ret l) in HE. cbn [mbind Outcome_bind] in HE.
  cbn [length] in Hlen.
  assert (key ∉ pending l) as Hnot.
  { apply NoDup_app in Hnd as (_ & Hdis & _). intros Hin.
    apply (Hdis key Hin). by left. }
  destruct (LoadThunk_miss key l Hinv) as
    (b & pos & Hth & Hwhere & Hlt & Hk & Hcl & Hd & Hcur2 & Hf & Hgrow & Hother);
    [apply Hc; by left | done |].
  destruct (LoadThunk_inv key l Hinv) as (Hinv2 & Hev2 & Hc2 & _).
  destruct (LoadThunk key l) as [thunk l2]. cbn [fst snd] in *. subst thunk.
  assert (b < S (length (heap l)))%nat as Hb_bound.
  { destruct Hwhere as [Hw | [_ ->]]; [| lia].
    pose proof (inv_cur l Hinv b Hw). lia. }
  assert (∀ b0, batch l = Some b0 → b0 = b) as Hsame.
  { intros b0 Hb0. destruct Hwhere as [Hw | [Hw _]]; congruence. }
  assert (pending l2 = if capped l (length (pending l)) then []
                       else pending l ++ [key]) as Hp2.
  { unfold pending at 1. rewrite Hcur2. by destruct (capped l _). }
  destruct (IH (S i) (<[i:=Some (Waiting b pos key)]> results) l2 results' l')
    as (Hf' & Hgrow' & Hlen' & Hlow & Hnil & Hkeep & Hin & Hhead & Hcat & Hclosed).
  { done. }
  { intros k Hk'. unfold cache_get. rewrite Hc2. apply Hc. by right. }
  { rewrite Hp2. destruct (capped l _).
    - apply NoDup_app in Hnd as (_ & _ & Hnd). by apply NoDup_cons in Hnd as [_ ?].
    - by rewrite <- app_assoc. }
  { rewrite length_insert. lia. }
  { done. }
  rewrite length_insert in Hlen'.
  assert (results' !! i = Some (Some (Waiting b pos key))) as Hi.
  { rewrite Hlow by lia. apply list_lookup_insert_eq. lia. }
  assert (batches_of (drop i results')
          = b :: batches_of (drop (S i) results')) as Hbs.
  { by rewrite (drop_S _ _ _ Hi). }
  rewrite Hbs. set (bs' := batches_of (drop (S i) results')) in *.
  assert (keys = [] → bs' = []) as Hlast.
  { intros ->. unfold bs'. cbn [length] in Hlen. by rewrite drop_ge by lia. }
  (* the batch of [key] in the final state *)
  assert ((capped l (length (pending l)) = true →
           deref b l' = deref b l2 ∧ b ∉ bs')
          ∧ done (deref b l') = false) as (Hdet & Hd').
  { assert (capped l (length (pending l)) = true →
            deref b l' = deref b l2 ∧ b ∉ bs') as Hdet.
    { intros Hcap. rewrite Hcap in Hcur2. split.
      - apply deref_eq. apply Hkeep; [by rewrite Hcur2 | done].
      - intros Hb. destruct (Hin b Hb) as [[Hx | Hx] _]; [congruence | lia]. }
    split; [done |].
    destruct (capped l (length (pending l))) eqn:Hcap.
    - destruct (Hdet eq_refl) as [-> _]. done.
    - destruct keys as [| k keys].
      + by rewrite (Hnil eq_refl).
      + specialize (Hhead b Hcur2 ltac:(done)).
        apply head_Some_elem_of in Hhead. by destruct (Hin b Hhead). }
  split; [congruence |]. split; [lia |]. split; [done |].
  split.
  { intros j Hj. rewrite Hlow by lia. apply list_lookup_insert_ne. lia. }
  split; [done |].
  split.
  { intros b1 Hb1 Hlt1.
    assert (b1 ≠ b) as Hne.
    { intros ->. destruct Hwhere as [Hw | [_ Hw]]; [done | lia]. }
    rewrite <- (Hother b1 Hne). apply Hkeep; [| lia].
    rewrite Hcur2. destruct (capped l _); [done | congruence]. }
  split.
  { intros b1 Hb1. apply elem_of_cons in Hb1 as [-> | Hb1].
    - split; [| done]. destruct Hwhere as [Hw | [_ ->]]; [by left | right; lia].
    - destruct (Hin b1 Hb1) as [[Hx | Hx] Hdone]; (split; [| done]).
      + rewrite Hcur2 in Hx. destruct (capped l _); [done |].
        injection Hx as ->. destruct Hwhere as [Hw | [_ ->]]; [by left | right; lia].
      + right. lia. }
  split.
  { intros b0 Hb0 _. cbn. by rewrite (Hsame b0 Hb0). }
  destruct (capped l (length (pending l))) eqn:Hcap.
  - (* the batch is closed: the next keys go to new batches *)
    destruct (Hdet eq_refl) as [Hsameb Hfresh].
    rewrite (undone_fresh b bs' Hfresh).
    split.
    + intros _. cbn [fmap list_fmap concat]. rewrite Hsameb, Hk.
      destruct keys as [| k keys].
      * rewrite (Hlast eq_refl). cbn. by rewrite app_nil_r.
      * rewrite Hcat by done. rewrite Hp2. cbn [app]. by rewrite <- app_assoc.
    + intros j b1 Hj Hlen1. destruct j as [| j]; cbn in Hj.
      * injection Hj as <-. by rewrite Hsameb, Hcl.
      * apply (Hclosed j b1 Hj). cbn [length] in Hlen1. lia.
  - (* the batch stays current: the next key goes to it *)
    destruct keys as [| k keys].
    + rewrite (Hlast eq_refl). cbn [undone fmap list_fmap concat].
      rewrite (Hnil eq_refl), Hk. split; [by rewrite app_nil_r |].
      intros j b1 Hj Hlen1. cbn [length] in Hlen1. lia.
    + specialize (Hhead b Hcur2 ltac:(done)).
      destruct bs' as [| b1 bs'']; [done |]. cbn in Hhead. injection Hhead as ->.
      rewrite undone_twice.
      split; [| done].
      intros _. rewrite Hcat by done. rewrite Hp2. by rewrite <- app_assoc.
Qed.

Lemma undone_subset bs :
  ∀ dn b, b ∈ undone dn bs → b ∈ bs.
Proof.
  induction bs as [| b0 bs IH]; intros dn b Hb; cbn [undone] in Hb; [done |].
  destruct (dn b0).
  - right. by eapply IH.
  - apply elem_of_cons in Hb as [-> | Hb]; [by left |]. right. by eapply IH.
Qed.

(** X23. A quiet [LoadAll] with a cap: on a loader in a state it can
    reach, with a fetcher that keeps to its contract, no other goroutine
    at work and [0 < maxBatch], [LoadAll] of keys that are distinct, not
    cached and not waiting in the current batch breaks them into batches
    in their order. The calls of fetch it makes receive, one after the
    other, the keys the current batch was waiting with followed by the
    keys of the call; every call but the last receives exactly
    [maxBatch] keys, and the last one at least one and at most
    [maxBatch]. *)
Theorem LoadAll_splits_into_batches keys (l : DataLoader.t) :
  reachable l → well_behaved (fetch l) → 0 < maxBatch l < 2 ^ 63 →
  keys ≠ [] → (∀ key, key ∈ keys → cache_get key l = None) →
  NoDup (pending l ++ keys) →
  ∃ values errors l' cs,
    LoadAll idle keys l = Ret (values, errors, l')
    ∧ fetched l' = fetched l ++ cs
    ∧ concat (fc_keys <$> cs) = pending l ++ keys
    ∧ ∀ j c, cs !! j = Some c →
        (0 < length (fc_keys c))%nat
        ∧ Z.of_nat (length (fc_keys c)) ≤ maxBatch l
        ∧ ((S j < length cs)%nat → Z.of_nat (length (fc_keys c)) = maxBatch l).
Proof.
  intros Hr Hwb Hmax Hne Hc Hnd. unfold LoadAll.
  pose proof (reachable_inv l Hr) as Hinv.
  destruct (LoadAll_enqueue_spec idle keys 0 (replicate (length keys) None) l
              Hr Hwb) as (results & l1 & HE & Hr1 & Hev1 & Hlen1 & _ & Hkeys).
  { rewrite length_replicate. lia. }
  rewrite HE. cbn [mbind Outcome_bind]. rewrite length_replicate in Hlen1.
  pose proof (reachable_inv l1 Hr1) as Hinv1.
  destruct (LoadAll_enqueue_batches keys 0 (replicate (length keys) None) l
              results l1 Hinv Hc Hnd)
    as (Hf1 & _ & _ & _ & _ & _ & Hin & _ & Hcat & Hclosed);
    [by rewrite length_replicate | done |].
  rewrite drop_0 in Hin, Hcat, Hclosed. specialize (Hcat Hne).
  assert (∀ f, f ∈ results → ∃ thunk, f = Some thunk ∧ issued thunk l1 = true)
    as Hiss.
  { intros f Hf. apply list_elem_of_lookup in Hf as [j Hj].
    assert (j < length keys)%nat as Hlt.
    { apply lookup_lt_Some in Hj. lia. }
    destruct (lookup_lt_is_Some_2 keys j Hlt) as [key Hkey].
    destruct (Hkeys j key Hkey) as (thunk & l0 & H1 & _ & _ & _ & _ & H6).
    cbn in H1. exists thunk. split; [congruence | done]. }
  destruct (LoadAll_resolve_spec idle (length keys) results 0
              (replicate (length keys) ANil) (replicate (length keys) None) l1)
    as (values & errors & l' & HR & Hr' & Hev' & _);
    [done | by rewrite (ev_fetch _ _ Hev1) | done
     | rewrite length_replicate; lia | rewrite length_replicate; lia |].
  rewrite HR.
  destruct (LoadAll_resolve_fetches (length keys) results 0
              (replicate (length keys) ANil) (replicate (length keys) None) l1
              values errors l' Hinv1 Hiss HR) as (cs & Hf' & Hbs & Hks).
  rewrite (undone_ext _ _ (λ _, false)) in Hbs
    by (intros b Hb; by destruct (Hin b Hb)).
  assert (fc_keys <$> cs
          = (λ b, DataLoader.keys (deref b l1)) <$> (fc_batch <$> cs)) as Hkeys'.
  { rewrite <- list_fmap_compose. by apply Forall_fmap_ext_1. }
  exists values, errors, l', cs.
  split; [done |]. split; [congruence |].
  split; [by rewrite Hkeys', Hbs |].
  intros j c Hj.
  assert ((fc_batch <$> cs) !! j = Some (fc_batch c)) as Hjb.
  { by rewrite list_lookup_fmap, Hj. }
  rewrite Hbs in Hjb.
  assert (fc_batch c ∈ batches_of results) as Hb.
  { eapply undone_subset. by eapply list_elem_of_lookup_2. }
  assert (∃ bt, heap l1 !! fc_batch c = Some bt) as [bt Hbt].
  { unfold batches_of in Hb. apply list_elem_of_omap in Hb as (f & Hf & Hfb).
    destruct (Hiss f Hf) as (thunk & -> & Hi).
    destruct thunk as [it | b pos key]; [done |]. injection Hfb as <-.
    destruct (issued_valid b pos key l1 Hi) as (bt & Hbt & _). by exists bt. }
  assert (fc_keys c = DataLoader.keys bt) as ->.
  { rewrite Forall_forall in Hks. rewrite (Hks c) by (by eapply list_elem_of_lookup_2).
    by rewrite (deref_lookup _ bt l1 Hbt). }
  destruct (batch_sizes l1 Hr1) with (b := fc_batch c) (bt := bt)
    as (Hle & _ & Hfull); [by rewrite (ev_maxBatch _ _ Hev1) | done |].
  rewrite (ev_maxBatch _ _ Hev1) in Hle, Hfull.
  split.
  { pose proof (bi_keys l1 _ bt (inv_batch l1 Hinv1 _ bt Hbt)).
    destruct (DataLoader.keys bt); [done | cbn; lia]. }
  split; [done |].
  intros Hlast. apply Hfull.
  rewrite <- (deref_lookup _ bt l1 Hbt). apply (Hclosed j); [done |].
  by rewrite <- Hbs, length_fmap.
Qed.

Lemma LoadAll_splits_into_batches_witness :
  ∃ values errors l' cs,
    LoadAll idle [AInt 1; AInt 2; AInt 3] (NewDataLoader 2 10 double)
    = Ret (values, errors, l')
    ∧ fetched l' = cs
    ∧ concat (fc_keys <$> cs) = [AInt 1; AInt 2; AInt 3].
Proof.
  destruct (LoadAll_splits_into_batches [AInt 1; AInt 2; AInt 3]
              (NewDataLoader 2 10 double))
    as (values & errors & l' & cs & HL & Hf & Hcat & _).
  - exists 2, 10, double, []. reflexivity.
  - intros n ks. by left.
  - cbn. lia.
  - discriminate.
  - intros key _. reflexivity.
  - cbn. repeat constructor; set_solver.
  - exists values, errors, l', cs. split; [exact HL |].
    split; [exact Hf | exact Hcat].
Defined.

(** ** What a call can change *)

Lemma startTimer_wait b (l : DataLoader.t) : wait (startTimer b l) = wait l.
Proof. unfold startTimer. by destruct (closing (deref b l)). Qed.

Lemma sched_wait g (l l' : DataLoader.t) : sched g l = Ret l' → wait l' = wait l.
Proof.
  unfold sched. destruct (take g (spawned l)) as [gs |]; [| by intros [= <-]].
  destruct g as [b | b]; cbn [run].
  - intros [= <-]. by rewrite startTimer_wait.
  - unfold batch_end. destruct (fetch _ _ _) as [vs es].
    destruct (done _); [done |]. by intros [= <-].
Qed.

Lemma await_wait b (l l' : DataLoader.t) : await b l = Ret l' → wait l' = wait l.
Proof.
  unfold await. destruct (done (deref b l)); [by intros [= <-] |].
  destruct (sched (GoStartTimer b) l) as [l1 | |] eqn:E1; [| done | done].
  cbn [mbind Outcome_bind].
  destruct (sched (GoEnd b) l1) as [l2 | |] eqn:E2; [| done | done].
  cbn [mbind Outcome_bind]. destruct (done _); [| done]. intros [= <-].
  rewrite (sched_wait _ _ _ E2). by apply (sched_wait _ _ _ E1).
Qed.

(** X24. Every action on the batching loader changes only its part of
    the state. The cached value of a key changes only by [Clear] or
    [Prime] of that key or by the call of a thunk of that key; the
    record of fetch calls grows only when an [end] goroutine runs or a
    thunk is called, and then by one call of fetch at most; [fetch],
    [wait] and [maxBatch] never change. *)
Theorem actions_change_only_their_part e (l l' : DataLoader.t) :
  inv l → step e l = Ret l' →
  (∀ key, cache_get key l' ≠ cache_get key l →
     e = DoClear key
     ∨ (∃ value forcePrime, e = DoPrime key value forcePrime)
     ∨ (∃ b pos, e = DoCall (Waiting b pos key)))
  ∧ (fetched l' = fetched l
     ∨ (∃ c, fetched l' = fetched l ++ [c]
             ∧ ((e = DoSched (GoEnd (fc_batch c)))
                ∨ (∃ pos key, e = DoCall (Waiting (fc_batch c) pos key)))))
  ∧ fetch l' = fetch l ∧ wait l' = wait l ∧ maxBatch l' = maxBatch l.
Proof.
  intros Hinv Hs.
  destruct e as [key | thunk | key value forcePrime | key | g]; cbn [step] in Hs.
  - (* LoadThunk *)
    injection Hs as <-.
    destruct (LoadThunk_inv key l Hinv) as (_ & Hev & Hc & _).
    split; [intros k Hk; unfold cache_get in Hk; by rewrite Hc in Hk |].
    split.
    { left. destruct (cache_get key l) as [it |] eqn:Hget.
      - unfold LoadThunk. by rewrite Hget.
      - destruct (decide (key ∈ pending l)) as [Hin | Hnot].
        + unfold pending in Hin. destruct (batch l) as [b |] eqn:Hcur;
            [| by apply elem_of_nil in Hin].
          destruct (lookup_lt_is_Some_2 (heap l) b (inv_cur l Hinv b Hcur))
            as [bt Hbt].
          rewrite (deref_lookup b bt l Hbt) in Hin.
          destruct (keyIndex_present b bt key l Hbt Hin) as (i & Hki & _).
          unfold LoadThunk. by rewrite Hget, Hcur, Hki.
        + by destruct (LoadThunk_miss key l Hinv Hget Hnot)
            as (? & ? & _ & _ & _ & _ & _ & _ & _ & ? & _). }
    split; [apply (ev_fetch _ _ Hev) |].
    split; [| apply (ev_maxBatch _ _ Hev)].
    unfold LoadThunk. destruct (cache_get key l); [done |].
    destruct (batch l) as [b |].
    + unfold keyIndex. destruct (scan _ _ _); [done |]. cbn [snd].
      repeat (match goal with |- context [if ?c then _ else _] => destruct c end);
        done.
    + unfold keyIndex. destruct (scan _ _ _); [done |]. cbn [snd].
      repeat (match goal with |- context [if ?c then _ else _] => destruct c end);
        done.
  - (* the call of a thunk *)
    destruct (issued thunk l) eqn:Hi.
    2: { injection Hs as <-. split; [done |]. split; [by left | done]. }
    destruct (call thunk l) as [[[v err] l1] | |] eqn:Hc; [| done | done].
    cbn in Hs. injection Hs as <-.
    destruct thunk as [it | b pos key].
    { cbn in Hc. injection Hc as <- <- <-.
      split; [done |]. split; [by left | done]. }
    destruct (issued_valid b pos key l Hi) as (bt & Hbt & _).
    rewrite call_Waiting in Hc.
    assert (∃ l0, await b l = Ret l0 ∧ cache l0 = cache l
                  ∧ fetch l0 = fetch l ∧ wait l0 = wait l
                  ∧ maxBatch l0 = maxBatch l
                  ∧ (fetched l0 = fetched l
                     ∨ ∃ c, fetched l0 = fetched l ++ [c] ∧ fc_batch c = b))
      as (l0 & Ha & Hc0 & Hfe0 & Hw0 & Hm0 & Hf0).
    { destruct (await_inv b l Hinv) as (l0 & Ha & _ & Hev0 & Hc0 & _);
        [by apply lookup_lt_Some in Hbt |].
      exists l0. split; [done |]. split; [done |].
      split; [apply (ev_fetch _ _ Hev0) |].
      split; [| split; [apply (ev_maxBatch _ _ Hev0) |]].
      - by apply (await_wait b).
      - destruct (done bt) eqn:Hd.
        + left. unfold await in Ha.
          rewrite (deref_lookup b bt l Hbt), Hd in Ha. by injection Ha as <-.
        + right. destruct (await_pending b bt l Hinv Hbt Hd)
            as (l3 & vs & es & Ha1 & _ & Hf1 & _).
          rewrite Ha in Ha1. injection Ha1 as <-. by eexists. }
    rewrite Ha in Hc. cbn [mbind Outcome_bind] in Hc.
    destruct (error_at (deref b l0) pos) as [e0 | |]; [| done | done].
    cbn [mbind Outcome_bind] in Hc. injection Hc as <- <- <-.
    split.
    { intros k Hk. right. right. exists b, pos.
      destruct (decide (k = key)) as [-> | Hne]; [done |]. exfalso. apply Hk.
      case_decide.
      - rewrite cache_get_unsafeSet. rewrite decide_False by done.
        unfold cache_get. by rewrite Hc0.
      - unfold cache_get. by rewrite Hc0. }
    split.
    { destruct Hf0 as [Hf0 | (c & Hf0 & Hcb)].
      - left. by case_decide.
      - right. exists c. split; [by case_decide |]. right. subst b.
        by exists pos, key. }
    by case_decide.
  - (* Prime *)
    assert (l' = (DataLoader.Prime key value forcePrime l).2) as ->
      by congruence.
    rewrite Prime_result.
    split.
    { intros k Hk. right. left. exists value, forcePrime.
      destruct (decide (k = key)) as [-> | Hne]; [done |]. exfalso. apply Hk.
      destruct (_ || _); [| done]. cbn [snd]. rewrite cache_get_unsafeSet.
      by rewrite decide_False. }
    split; [left |]; by destruct (_ || _).
  - (* Clear *)
    assert (l' = DataLoader.Clear key l) as -> by congruence.
    split; [| split; [by left | done]].
    intros k Hk. left. destruct (decide (k = key)) as [-> | Hne]; [done |].
    exfalso. apply Hk. rewrite cache_get_Clear. by rewrite decide_False.
  - (* a goroutine *)
    destruct (sched_inv g l Hinv) as (l1 & E & _ & Hev & Hc).
    rewrite E in Hs. injection Hs as <-.
    split; [intros k Hk; unfold cache_get in Hk; by rewrite Hc in Hk |].
    split.
    2: { split; [apply (ev_fetch _ _ Hev) |]. split; [| apply (ev_maxBatch _ _ Hev)].
         by apply (sched_wait g). }
    destruct (sched_cases g l Hinv)
      as [[_ E'] | [(b1 & gs & -> & _ & E')
                   | (b1 & gs & bt & vs & es & -> & _ & _ & _ & _ & E')]];
      rewrite E' in E; injection E as <-.
    + by left.
    + left. unfold startTimer. by destruct (closing _).
    + right. eexists. split; [done |]. by left.
Qed.

Lemma actions_change_only_their_part_witness :
  let l := NewDataLoader 2 10 double in
  fetched (LoadThunk (AInt 1) l).2 = fetched l
  ∨ ∃ c, fetched (LoadThunk (AInt 1) l).2 = fetched l ++ [c]
         ∧ (DoLoadThunk (AInt 1) = DoSched (GoEnd (fc_batch c))
            ∨ ∃ pos key, DoLoadThunk (AInt 1) = DoCall (Waiting (fc_batch c) pos key)).
Proof.
  intros l.
  destruct (actions_change_only_their_part (DoLoadThunk (AInt 1)) l
              (LoadThunk (AInt 1) l).2 (NewDataLoader_inv 2 10 double) eq_refl)
    as (_ & H & _).
  exact H.
Defined.

(** X25. Every call on the object dispatcher works on the entry of its
    object type only: the loaders and the initializers of all other
    object types are as before, and at most the initializer of its own
    object type has run. *)
Theorem object_calls_touch_one_type c (l l' : ObjAttrDataLoader.t) :
  ObjAttrDataLoader.step c l = Ret l' →
  (∀ o, o ≠ called_type c →
        ObjAttrDataLoader.loaders l' !! o = ObjAttrDataLoader.loaders l !! o
        ∧ ObjAttrDataLoader.initLoaders l' !! o
          = ObjAttrDataLoader.initLoaders l !! o)
  ∧ (ObjAttrDataLoader.inited l' = ObjAttrDataLoader.inited l
     ∨ ObjAttrDataLoader.inited l'
       = ObjAttrDataLoader.inited l ++ [called_type c]).
Proof.
  intros Hs.
  (* [loader] and [update] on the object type of the call *)
  assert (∀ o r l1,
            ObjAttrDataLoader.loader o l = Ret (r, l1) →
            (∀ o', o' ≠ o →
               ObjAttrDataLoader.loaders l1 !! o' = ObjAttrDataLoader.loaders l !! o'
               ∧ ObjAttrDataLoader.initLoaders l1 !! o'
                 = ObjAttrDataLoader.initLoaders l !! o')
            ∧ (ObjAttrDataLoader.inited l1 = ObjAttrDataLoader.inited l
               ∨ ObjAttrDataLoader.inited l1 = ObjAttrDataLoader.inited l ++ [o]))
    as Hloader.
  { intros o r l1 Hl. unfold ObjAttrDataLoader.loader in Hl.
    destruct (ObjAttrDataLoader.loaders l !! o) as [r0 |].
    { injection Hl as <- <-. split; [done | by left]. }
    destruct (ObjAttrDataLoader.initLoaders l !! o) as [[f |] |];
      [| done | injection Hl as <- <-; split; [done | by left]].
    injection Hl as <- <-. split; [| by right].
    intros o' Ho'. cbn. by rewrite !lookup_insert_ne. }
  assert (∀ o al l1,
            (∀ o', o' ≠ o →
               ObjAttrDataLoader.loaders l1 !! o' = ObjAttrDataLoader.loaders l !! o'
               ∧ ObjAttrDataLoader.initLoaders l1 !! o'
                 = ObjAttrDataLoader.initLoaders l !! o') →
            ∀ o', o' ≠ o →
               ObjAttrDataLoader.loaders (ObjAttrDataLoader.update o al l1) !! o'
               = ObjAttrDataLoader.loaders l !! o'
               ∧ ObjAttrDataLoader.initLoaders (ObjAttrDataLoader.update o al l1) !! o'
                 = ObjAttrDataLoader.initLoaders l !! o') as Hupdate.
  { intros o al l1 H o' Ho'. cbn. rewrite lookup_insert_ne by done. by apply H. }
  destruct c as [env o a key | env o a keys | o a key value | o a key value
                | o a key]; cbn [ObjAttrDataLoader.step called_type] in *.
  - unfold ObjAttrDataLoader.Load in Hs.
    destruct (ObjAttrDataLoader.loader o l) as [[r l1] | |] eqn:Hl; [| done | done].
    destruct (Hloader o r l1 Hl) as [H1 H2]. cbn [mbind Outcome_bind] in Hs.
    destruct r as [al |]; [| by injection Hs as <-].
    destruct (AttrDataLoader.Load env a key al) as [[[v e] al1] | |];
      [| done | done].
    cbn in Hs. injection Hs as <-. split; [by apply Hupdate | done].
  - unfold ObjAttrDataLoader.LoadAll in Hs.
    destruct (ObjAttrDataLoader.loader o l) as [[r l1] | |] eqn:Hl; [| done | done].
    destruct (Hloader o r l1 Hl) as [H1 H2]. cbn [mbind Outcome_bind] in Hs.
    destruct r as [al |]; [| by injection Hs as <-].
    destruct (AttrDataLoader.LoadAll env a keys al) as [[[v e] al1] | |];
      [| done | done].
    cbn in Hs. injection Hs as <-. split; [by apply Hupdate | done].
  - unfold ObjAttrDataLoader.Prime, ObjAttrDataLoader.prime in Hs.
    destruct (ObjAttrDataLoader.loader o l) as [[r l1] | |] eqn:Hl; [| done | done].
    destruct (Hloader o r l1 Hl) as [H1 H2]. cbn [mbind Outcome_bind] in Hs.
    destruct r as [al |]; [| by injection Hs as <-].
    destruct (AttrDataLoader.prime a key value false al) as [[v al1] | |];
      [| done | done].
    cbn in Hs. injection Hs as <-. split; [by apply Hupdate | done].
  - unfold ObjAttrDataLoader.ForcePrime, ObjAttrDataLoader.prime in Hs.
    destruct (ObjAttrDataLoader.loader o l) as [[r l1] | |] eqn:Hl; [| done | done].
    destruct (Hloader o r l1 Hl) as [H1 H2]. cbn [mbind Outcome_bind] in Hs.
    destruct r as [al |]; [| by injection Hs as <-].
    destruct (AttrDataLoader.prime a key value true al) as [[v al1] | |];
      [| done | done].
    cbn in Hs. injection Hs as <-. split; [by apply Hupdate | done].
  - unfold ObjAttrDataLoader.Clear in Hs.
    destruct (ObjAttrDataLoader.loader o l) as [[r l1] | |] eqn:Hl; [| done | done].
    destruct (Hloader o r l1 Hl) as [H1 H2]. cbn [mbind Outcome_bind] in Hs.
    destruct r as [al |]; [| by injection Hs as <-].
    destruct (AttrDataLoader.Clear a key al) as [al1 | |]; [| done | done].
    cbn in Hs. injection Hs as <-. split; [by apply Hupdate | done].
Qed.

Lemma object_calls_touch_one_type_witness :
  match ObjAttrDataLoader.step
          (ObjAttrDataLoader.DoPrime (AStr "account") (AStr "id") (AInt 1) (AStr "v"))
          (ObjAttrDataLoader.NewObjAttrDataLoader
             (Some {[ AStr "account" := Some (λ _, Some account_loader);
                      AStr "order" := Some (λ _, Some account_loader) ]})) with
  | Ret l' =>
      ObjAttrDataLoader.loaders l' !! AStr "order" = None
      ∧ ObjAttrDataLoader.inited l' = [AStr "account"]
  | _ => False
  end.
Proof.
  set (l := ObjAttrDataLoader.NewObjAttrDataLoader _).
  assert (match ObjAttrDataLoader.step
                  (ObjAttrDataLoader.DoPrime (AStr "account") (AStr "id") (AInt 1)
                     (AStr "v")) l with
          | Ret l' => ObjAttrDataLoader.inited l' = [AStr "account"]
          | _ => False
          end) as Hi by (vm_compute; reflexivity).
  destruct (ObjAttrDataLoader.step _ l) as [l' | |] eqn:Hs;
    [| destruct Hi | destruct Hi].
  destruct (object_calls_touch_one_type _ l l' Hs) as [H _].
  destruct (H (AStr "order")) as [H1 _]; [discriminate |].
  split; [rewrite H1; reflexivity | exact Hi].
Defined.

(** ** Propagation between attributes *)

(** X26. What a propagator is for: when the propagator of attribute [a]
    answers a loaded value with one [Prime] of key [k'] of another
    attribute [a'] that has a loader (constructed already, or made by
    its initializer at this moment), then after a [Load] by [a] that
    returned no error the loader of [a'] holds a value for [k']: the
    value it had cached before or else the primed one. Nothing was
    fetched through the loader of [a'], and the next [Load] of [k'] from
    it is answered from the cache and leaves it as it is. *)
Theorem propagator_primes_the_other_attribute env a a' key k' v v' p dl0
    (l l1 : AttrDataLoader.t) :
  AttrDataLoader.propagators l !! a = Some p →
  p v = [AttrDataLoader.CallPrime a' k' v'] →
  a' ≠ a →
  (AttrDataLoader.loaders l !! a' = Some (Some dl0)
   ∨ (AttrDataLoader.loaders l !! a' = None
      ∧ ∃ f, AttrDataLoader.initLoaders l !! a' = Some (Some f)
             ∧ f tt = Some dl0)) →
  AttrDataLoader.Load env a key l = Ret (v, None, l1) →
  ∃ dl1,
    AttrDataLoader.loaders l1 !! a' = Some (Some dl1)
    ∧ cache_get k' dl1 = Some (default v' (cache_get k' dl0))
    ∧ heap dl1 = heap dl0 ∧ fetched dl1 = fetched dl0
    ∧ DataLoader.Load [] k' dl1
      = Ret (default v' (cache_get k' dl0), None, dl1).
Proof.
  intros Hp Hpv Hne Hreg HL.
  assert (∃ dl1, AttrDataLoader.loaders l1 !! a' = Some (Some dl1)
                 ∧ dl1 = (DataLoader.Prime k' v' false dl0).2)
    as (dl1 & Hk1 & ->).
  { unfold AttrDataLoader.Load in HL.
    destruct (AttrDataLoader.loader a l) as [[o l0] | |] eqn:Hl; [| done | done].
    cbn [mbind Outcome_bind] in HL.
    destruct (attr_loader_frame a l o l0 Hl) as (Hp0 & _ & Hfr0).
    destruct (Hfr0 a' Hne) as [Hl0 Hi0].
    destruct o as [dl |]; [| done].
    destruct (DataLoader.Load env key dl) as [[[v1 e1] dl'] | |]; [| done | done].
    cbn [mbind Outcome_bind] in HL.
    case_decide as He; [| cbn in HL; congruence].
    destruct (AttrDataLoader.RunPropagator v1 a (AttrDataLoader.update a dl' l0))
      as [l2 | |] eqn:E; [| done | done].
    cbn [mbind Outcome_bind] in HL. injection HL as -> _ ->.
    unfold AttrDataLoader.RunPropagator in E.
    cbn [AttrDataLoader.propagators AttrDataLoader.update
         AttrDataLoader.set_loaders] in E.
    rewrite Hp0, Hp, Hpv in E.
    cbn [AttrDataLoader.perform_all AttrDataLoader.perform] in E.
    unfold AttrDataLoader.Prime, AttrDataLoader.prime in E.
    set (lm := AttrDataLoader.set_propagated _ _) in E.
    assert (AttrDataLoader.loaders lm !! a' = AttrDataLoader.loaders l !! a')
      as Hlm.
    { unfold lm. cbn. rewrite lookup_insert_ne by done. done. }
    assert (AttrDataLoader.initLoaders lm !! a'
            = AttrDataLoader.initLoaders l !! a') as Him.
    { unfold lm. cbn. done. }
    assert (∃ lm', AttrDataLoader.loader a' lm = Ret (Some dl0, lm')) as [lm' Hlm'].
    { unfold AttrDataLoader.loader. rewrite Hlm, Him.
      destruct Hreg as [-> | (-> & f & -> & ->)]; by eexists. }
    rewrite Hlm' in E. cbn [mbind Outcome_bind] in E.
    unfold DataLoader.prime in E.
    destruct (DataLoader.Prime k' v' false dl0) as [r dlx]. cbn in E.
    injection E as <-. exists dlx. split; [| done].
    cbn. apply lookup_insert_eq. }
  exists (DataLoader.Prime k' v' false dl0).2. split; [done |].
  assert (cache_get k' (DataLoader.Prime k' v' false dl0).2
          = Some (default v' (cache_get k' dl0))) as Hc.
  { rewrite Prime_result. cbn [orb].
    destruct (cache_get k' dl0) as [it |] eqn:Hget.
    - by rewrite bool_decide_false.
    - rewrite bool_decide_true by done. cbn [snd default].
      rewrite cache_get_unsafeSet. by rewrite decide_True. }
  split; [done |].
  split; [rewrite Prime_result; by destruct (_ || _) |].
  split; [rewrite Prime_result; by destruct (_ || _) |].
  by rewrite (Load_hit [] k' _ _ Hc).
Qed.

Lemma propagator_primes_the_other_attribute_witness :
  match AttrDataLoader.Load [] (AStr "id") (AInt 1) account_loader with
  | Ret (_, _, l1) =>
      match AttrDataLoader.loaders l1 !! AStr "email" with
      | Some (Some dl1) =>
          DataLoader.Load [] (AStr "ann@x") dl1 = Ret (AStr "ann@x", None, dl1)
      | _ => False
      end
  | _ => False
  end.
Proof.
  assert (match AttrDataLoader.Load [] (AStr "id") (AInt 1) account_loader with
          | Ret (v, e, _) => v = AStr "ann@x" ∧ e = None
          | _ => False
          end) as Hve by (vm_compute; split; reflexivity).
  destruct (AttrDataLoader.Load [] (AStr "id") (AInt 1) account_loader)
    as [[[v e] l1] | |] eqn:HL; [| destruct Hve | destruct Hve].
  destruct Hve as [-> ->].
  destruct (propagator_primes_the_other_attribute [] (AStr "id") (AStr "email")
              (AInt 1) (AStr "ann@x") (AStr "ann@x") (AStr "ann@x")
              (λ v, [AttrDataLoader.CallPrime (AStr "email") v v])
              (NewDataLoader 0 0 accounts_by_email) account_loader l1)
    as (dl1 & Hk & _ & _ & _ & Hload);
    [reflexivity | reflexivity | discriminate
     | right; split; [reflexivity | eexists; split; reflexivity] | exact HL |].
  rewrite Hk. exact Hload.
Defined.
